(** * AIWC workload characterisation (Oclgrind plugin): a shallow embedding

    The development follows [WorkloadCharacterisation.cpp]: the host-transfer
    tracker, the worker-local accumulator, the group merger and the report
    builder of [kernelEnd].

    Conventions.
    - Machine integers are [Z] with the wrap-around of their C++ type written
      out ([u32] for [unsigned], [u64] for [size_t], [s32] for [int], [s64]
      for [long]).
    - [std::unordered_map] is a [gmap]; its iteration order is unspecified in
      C++, and every loop of the report that walks a map is read as a fold
      over the map's entries.
    - [std::vector] is a [list]; reading or writing past its end is undefined
      behaviour and is modelled by [None].
    - [float] and [double] values are read as exact real numbers: rounding
      is not modelled.  The arithmetic keeps the IEEE special values, so
      [0/0] is NaN and [x/0] is an infinity.  The sums that [kernelEnd]
      keeps in [float] are stated for inputs small enough that no term is
      lost in the sum: the bound is a hypothesis of each such theorem. *)

From Stdlib Require Import ZArith Reals Lra Lia List Ascii Sorting.Permutation.
From stdpp Require Import base option list gmap strings fin_maps sorting pretty.

#[local] Open Scope string_scope.
#[local] Open Scope list_scope.
#[local] Open Scope Z_scope.

(** ** Machine integers *)

Definition u32 (x : Z) : Z := x mod 2 ^ 32.
Definition u64 (x : Z) : Z := x mod 2 ^ 64.
Definition s32 (x : Z) : Z := (x + 2 ^ 31) mod 2 ^ 32 - 2 ^ 31.
Definition s64 (x : Z) : Z := (x + 2 ^ 63) mod 2 ^ 64 - 2 ^ 63.

(** [v[i] = x] on a [std::vector]: defined only for [0 <= i < v.size()]. *)
Definition vec_set {A} (v : list A) (i : Z) (x : A) : option (list A) :=
  if bool_decide (0 <= i < Z.of_nat (length v))
  then Some (<[Z.to_nat i := x]> v) else None.

(** [v[i]] on a [std::vector]. *)
Definition vec_get {A} (v : list A) (i : Z) : option A :=
  if bool_decide (0 <= i) then v !! Z.to_nat i else None.

(** ** Host-transfer tracker *)

Module Transfers.

Record HostTransferLog := mkLog {
  m_hostToDeviceCopy : list string;
  m_deviceToHostCopy : list string;
  m_numberOfHostToDeviceCopiesBeforeKernelNamed : Z;
  m_last_kernel_name : string
}.

(** The constructor. *)
Definition init : HostTransferLog := mkLog [] [] 0 "".

Definition hostMemoryLoad (s : HostTransferLog) : HostTransferLog :=
  mkLog (m_hostToDeviceCopy s)
        (m_deviceToHostCopy s ++ [m_last_kernel_name s])
        (m_numberOfHostToDeviceCopiesBeforeKernelNamed s)
        (m_last_kernel_name s).

Definition hostMemoryStore (s : HostTransferLog) : HostTransferLog :=
  mkLog (m_hostToDeviceCopy s ++ [m_last_kernel_name s])
        (m_deviceToHostCopy s)
        (s32 (m_numberOfHostToDeviceCopiesBeforeKernelNamed s + 1))
        (m_last_kernel_name s).

(** The loop [for (int i = 0; i < n; i++) v[end_of_list - i] = name;]
    with [todo] iterations left. *)
Fixpoint relabel_loop (todo : nat) (i end_of_list : Z) (name : string)
    (v : list string) : option (list string) :=
  match todo with
  | O => Some v
  | S todo' =>
      v' ← vec_set v (u64 (s32 (end_of_list - i))) name;
      relabel_loop todo' (s32 (i + 1)) end_of_list name v'
  end.

(** The transfer part of [kernelBegin]. *)
Definition kernelBegin (name : string) (s : HostTransferLog)
    : option HostTransferLog :=
  let end_of_list := s32 (u64 (Z.of_nat (length (m_hostToDeviceCopy s)) - 1)) in
  v ← relabel_loop (Z.to_nat (m_numberOfHostToDeviceCopiesBeforeKernelNamed s))
        0 end_of_list name (m_hostToDeviceCopy s);
  Some (mkLog v (m_deviceToHostCopy s) 0 name).

(** [kernelEnd] reads and writes none of the transfer fields. *)
Definition kernelEnd (name : string) (s : HostTransferLog) : HostTransferLog := s.

Inductive Event :=
| HostMemoryStore
| HostMemoryLoad
| KernelBegin (name : string)
| KernelEnd (name : string).

Definition step (s : HostTransferLog) (e : Event) : option HostTransferLog :=
  match e with
  | HostMemoryStore => Some (hostMemoryStore s)
  | HostMemoryLoad => Some (hostMemoryLoad s)
  | KernelBegin name => kernelBegin name s
  | KernelEnd name => Some (kernelEnd name s)
  end.

Fixpoint run (s : HostTransferLog) (es : list Event) : option HostTransferLog :=
  match es with
  | [] => Some s
  | e :: es' => s' ← step s e; run s' es'
  end.

(** [std::unique] followed by [resize]: one element is kept of every run of
    equal neighbours. *)
Fixpoint unique_from (prev : string) (l : list string) : list string :=
  match l with
  | [] => []
  | x :: l' =>
      if decide (prev = x) then unique_from prev l' else x :: unique_from x l'
  end.

Definition unique (l : list string) : list string :=
  match l with
  | [] => []
  | x :: l' => x :: unique_from x l'
  end.

(** [std::count]. *)
Definition count (item : string) (l : list string) : Z :=
  Z.of_nat (length (filter (λ x, x = item) l)).

(** The rows the destructor writes below the header [metric,kernel,count]. *)
Definition transfer_rows (s : HostTransferLog) : list (string * string * Z) :=
  let unique_kernels_involved_with_device_to_host_copies :=
    unique (m_deviceToHostCopy s) in
  let unique_kernels_involved_with_host_to_device_copies :=
    unique (m_hostToDeviceCopy s) in
  map (λ item, ("transfer: host to device", item, count item (m_hostToDeviceCopy s)))
      unique_kernels_involved_with_host_to_device_copies
  ++ map (λ item, ("transfer: device to host", item, count item (m_deviceToHostCopy s)))
      unique_kernels_involved_with_device_to_host_copies.

(** The attribution in the words of the specification.  A store belongs to
    the kernel that is enqueued next, and keeps the last known name when no
    kernel follows; a load belongs to the kernel named last. *)
Fixpoint next_kernel (es : list Event) : option string :=
  match es with
  | [] => None
  | KernelBegin name :: _ => Some name
  | _ :: es' => next_kernel es'
  end.

Fixpoint spec_host_to_device (last : string) (es : list Event) : list string :=
  match es with
  | [] => []
  | HostMemoryStore :: es' =>
      default last (next_kernel es') :: spec_host_to_device last es'
  | KernelBegin name :: es' => spec_host_to_device name es'
  | _ :: es' => spec_host_to_device last es'
  end.

Fixpoint spec_device_to_host (last : string) (es : list Event) : list string :=
  match es with
  | [] => []
  | HostMemoryLoad :: es' => last :: spec_device_to_host last es'
  | KernelBegin name :: es' => spec_device_to_host name es'
  | _ :: es' => spec_device_to_host last es'
  end.

(** What one callback does to the log, in the words of the specification. *)
Definition spec_step (s : HostTransferLog) (e : Event) (s' : HostTransferLog)
    : Prop :=
  let pending := m_numberOfHostToDeviceCopiesBeforeKernelNamed in
  match e with
  | HostMemoryStore =>
      m_hostToDeviceCopy s' = m_hostToDeviceCopy s ++ [m_last_kernel_name s]
      ∧ pending s' = pending s + 1
      ∧ m_deviceToHostCopy s' = m_deviceToHostCopy s
      ∧ m_last_kernel_name s' = m_last_kernel_name s
  | KernelBegin name =>
      m_hostToDeviceCopy s'
      = take (length (m_hostToDeviceCopy s) - Z.to_nat (pending s))
             (m_hostToDeviceCopy s)
        ++ replicate (Z.to_nat (pending s)) name
      ∧ pending s' = 0
      ∧ m_deviceToHostCopy s' = m_deviceToHostCopy s
      ∧ m_last_kernel_name s' = name
  | HostMemoryLoad =>
      m_deviceToHostCopy s' = m_deviceToHostCopy s ++ [m_last_kernel_name s]
      ∧ m_hostToDeviceCopy s' = m_hostToDeviceCopy s
      ∧ pending s' = pending s
      ∧ m_last_kernel_name s' = m_last_kernel_name s
  | KernelEnd _ => s' = s
  end.

(** Rows of one metric that name kernel [k]. *)
Definition rows_for (metric k : string) (rows : list (string * string * Z))
    : list (string * string * Z) :=
  filter (λ r, r.1.1 = metric ∧ r.1.2 = k) rows.

End Transfers.

(** ** Floating-point values, rounding aside *)

Module FP.

#[local] Open Scope R_scope.

(** A [float] or [double]: a real number, an infinity or NaN.  Zero carries
    no sign. *)
Inductive double :=
| NaN
| Inf (negative : bool)
| Fin (r : R).

Definition of_Z (z : Z) : double := Fin (IZR z).

Definition negative_R (r : R) : bool := if Rlt_dec r 0 then true else false.
Definition zero_R (r : R) : bool := if Req_dec_T r 0 then true else false.

Definition dneg (a : double) : double :=
  match a with
  | NaN => NaN
  | Inf s => Inf (negb s)
  | Fin r => Fin (- r)
  end.

Definition dadd (a b : double) : double :=
  match a, b with
  | NaN, _ | _, NaN => NaN
  | Inf s, Inf s' => if Bool.eqb s s' then Inf s else NaN
  | Inf s, Fin _ | Fin _, Inf s => Inf s
  | Fin x, Fin y => Fin (x + y)
  end.

Definition dsub (a b : double) : double := dadd a (dneg b).

Definition dmul (a b : double) : double :=
  match a, b with
  | NaN, _ | _, NaN => NaN
  | Inf s, Inf s' => Inf (xorb s s')
  | Inf s, Fin y | Fin y, Inf s =>
      if zero_R y then NaN else Inf (xorb s (negative_R y))
  | Fin x, Fin y => Fin (x * y)
  end.

Definition ddiv (a b : double) : double :=
  match a, b with
  | NaN, _ | _, NaN => NaN
  | Inf _, Inf _ => NaN
  | Inf s, Fin y => Inf (xorb s (negative_R y))
  | Fin _, Inf _ => Fin 0
  | Fin x, Fin y =>
      if zero_R y
      then (if zero_R x then NaN else Inf (negative_R x))
      else Fin (x / y)
  end.

Definition dsqrt (a : double) : double :=
  match a with
  | NaN => NaN
  | Inf s => if s then NaN else Inf false
  | Fin x => if negative_R x then NaN else Fin (sqrt x)
  end.

(** [std::log2]. *)
Definition dlog2 (a : double) : double :=
  match a with
  | NaN => NaN
  | Inf s => if s then NaN else Inf false
  | Fin x =>
      if negative_R x then NaN
      else if zero_R x then Inf true
      else Fin (ln x / ln 2)
  end.

(** [a < b]; false as soon as one side is NaN. *)
Definition dlt (a b : double) : bool :=
  match a, b with
  | NaN, _ | _, NaN => false
  | Inf s, Inf s' => s && negb s'
  | Inf s, Fin _ => s
  | Fin _, Inf s => negb s
  | Fin x, Fin y => if Rlt_dec x y then true else false
  end.

(** [std::min(a, b)], which is [(b < a) ? b : a]. *)
Definition dmin (a b : double) : double := if dlt b a then b else a.

(** [a != 0]. *)
Definition dnonzero (a : double) : bool :=
  match a with
  | Fin x => negb (zero_R x)
  | _ => true
  end.

Definition isnan (a : double) : bool :=
  match a with NaN => true | _ => false end.

End FP.

(** ** Worker-local accumulator and group merger *)

Module AIWC.
Import FP.

(** The address spaces of [core/common.h]. *)
Definition AddrSpacePrivate : Z := 0.
Definition AddrSpaceGlobal : Z := 1.
Definition AddrSpaceConstant : Z := 2.
Definition AddrSpaceLocal : Z := 3.

(** What the plugin reads of an [llvm::Instruction]. *)
Inductive Opcode :=
| Load
| Store
| Br
| OtherOp (name : string).

Definition getOpcodeName (opcode : Opcode) : string :=
  match opcode with
  | Load => "load"
  | Store => "store"
  | Br => "br"
  | OtherOp name => name
  end.

Record Operand := mkOperand {
  isLabelTy : bool;
  printAsOperand : string
}.

Record Instruction := mkInstruction {
  getOpcode : Opcode;
  getPointerAddressSpace : Z;
  getPointerOperandName : string;
  getOperands : list Operand;
  getParent : string;
  getDebugLine : Z
}.

(** [m[k]++] and [m[k] += v] on an [unordered_map<K, size_t>]. *)
Definition map_add `{Countable K} (k : K) (v : Z) (m : gmap K Z) : gmap K Z :=
  <[k := u64 (default 0 (m !! k) + v)]> m.

(** [m[k]++] on an [unordered_map<K, unsigned>]. *)
Definition map_incr32 `{Countable K} (k : K) (m : gmap K Z) : gmap K Z :=
  <[k := u32 (default 0 (m !! k) + 1)]> m.

(** [m[k].push_back(b)]. *)
Definition map_push (k : Z) (b : bool) (m : gmap Z (list bool)) : gmap Z (list bool) :=
  <[k := default [] (m !! k) ++ [b]]> m.

(** The thread-local [m_state].  [allocated] tells whether the container
    pointers have been set by [workGroupBegin]; the counters are [unsigned]. *)
Record WorkerState := mkWorker {
  allocated : bool;
  computeOps : gmap string Z;
  memoryOps : list Z;
  branchOps : gmap Z (list bool);
  instructionsBetweenBarriers : list Z;
  instructionWidth : gmap Z Z;
  instructionsPerWorkitem : list Z;
  instructionsBetweenLoadOrStore : list Z;
  loadInstructionLabels : gmap string Z;
  storeInstructionLabels : gmap string Z;
  threads_invoked : Z;
  instruction_count : Z;
  barriers_hit : Z;
  workitem_instruction_count : Z;
  ops_between_load_or_store : Z;
  global_memory_access_count : Z;
  local_memory_access_count : Z;
  constant_memory_access_count : Z;
  previous_instruction_is_branch : bool;
  target1 : string;
  target2 : string;
  branch_loc : Z
}.

(** [m_state = {NULL}]. *)
Definition null_state : WorkerState :=
  mkWorker false ∅ [] ∅ [] ∅ [] [] ∅ ∅ 0 0 0 0 0 0 0 0 false "" "" 0.

Definition set_memoryOps (v : list Z) (st : WorkerState) : WorkerState :=
  mkWorker (allocated st) (computeOps st) v (branchOps st)
    (instructionsBetweenBarriers st) (instructionWidth st)
    (instructionsPerWorkitem st) (instructionsBetweenLoadOrStore st)
    (loadInstructionLabels st) (storeInstructionLabels st)
    (threads_invoked st) (instruction_count st) (barriers_hit st)
    (workitem_instruction_count st) (ops_between_load_or_store st)
    (global_memory_access_count st) (local_memory_access_count st)
    (constant_memory_access_count st) (previous_instruction_is_branch st)
    (target1 st) (target2 st) (branch_loc st).

(** [memoryLoad] and [memoryStore]; [addressSpace] is what
    [memory->getAddressSpace()] returns. *)
Definition memoryLoad (addressSpace address : Z) (st : WorkerState)
    : option WorkerState :=
  if bool_decide (addressSpace ≠ AddrSpacePrivate)
  then (if allocated st then Some (set_memoryOps (memoryOps st ++ [address]) st)
        else None)
  else Some st.

Definition memoryStore := memoryLoad.

(** [memoryAtomicLoad] and [memoryAtomicStore] compare with the literal 0. *)
Definition memoryAtomicLoad (addressSpace address : Z) (st : WorkerState)
    : option WorkerState :=
  if bool_decide (addressSpace ≠ 0)
  then (if allocated st then Some (set_memoryOps (memoryOps st ++ [address]) st)
        else None)
  else Some st.

Definition memoryAtomicStore := memoryAtomicLoad.

(** The conditional-branch test of [instructionExecuted]: a [Br] with three
    operands of which the second and the third are labels. *)
Definition conditional_branch (instruction : Instruction)
    : option (string * string) :=
  match getOpcode instruction, getOperands instruction with
  | Br, [_; op1; op2] =>
      if isLabelTy op1 && isLabelTy op2
      then Some (printAsOperand op1, printAsOperand op2)
      else None
  | _, _ => None
  end.

(** [instructionExecuted]; [num] is [result.num].  [None] stands for a null
    container or for the raised [SIGINT] of "Error in branching!". *)
Definition instructionExecuted (instruction : Instruction) (num : Z)
    (st : WorkerState) : option WorkerState :=
  if negb (allocated st) then None else
  let opcode := getOpcode instruction in
  let opcode_name := getOpcodeName opcode in
  let computeOps' := map_add opcode_name 1 (computeOps st) in
  let isMemoryInst :=
    match opcode with Load | Store => true | _ => false end in
  let addressSpace := getPointerAddressSpace instruction in
  let counted (space : Z) (c : Z) :=
    if isMemoryInst && bool_decide (addressSpace = space) then u32 (c + 1) else c in
  let local' := counted AddrSpaceLocal (local_memory_access_count st) in
  let global' := counted AddrSpaceGlobal (global_memory_access_count st) in
  let constant' := counted AddrSpaceConstant (constant_memory_access_count st) in
  let ops := u32 (ops_between_load_or_store st + 1) in
  let name := getPointerOperandName instruction in
  let loads' :=
    match opcode with
    | Load => map_add name 1 (loadInstructionLabels st)
    | _ => loadInstructionLabels st
    end in
  let stores' :=
    match opcode with
    | Store => map_add name 1 (storeInstructionLabels st)
    | _ => storeInstructionLabels st
    end in
  let between' :=
    if isMemoryInst then instructionsBetweenLoadOrStore st ++ [ops]
    else instructionsBetweenLoadOrStore st in
  let ops' := if isMemoryInst then 0 else ops in
  branchOps' ←
    (if previous_instruction_is_branch st then
       if decide (getParent instruction = target1 st)
       then Some (map_push (branch_loc st) true (branchOps st))
       else if decide (getParent instruction = target2 st)
       then Some (map_push (branch_loc st) false (branchOps st))
       else None
     else Some (branchOps st));
  let cb := conditional_branch instruction in
  Some (mkWorker true computeOps' (memoryOps st) branchOps'
    (instructionsBetweenBarriers st)
    (map_add num 1 (instructionWidth st))
    (instructionsPerWorkitem st) between' loads' stores'
    (threads_invoked st)
    (u32 (instruction_count st + 1))
    (barriers_hit st)
    (u32 (workitem_instruction_count st + 1))
    ops' global' local' constant'
    (bool_decide (is_Some cb))
    (from_option fst (target1 st) cb)
    (from_option snd (target2 st) cb)
    (match cb with
     | Some _ => u32 (getDebugLine instruction)
     | None => branch_loc st
     end)).

Definition workItemBarrier (st : WorkerState) : option WorkerState :=
  if negb (allocated st) then None else
  Some (mkWorker true (computeOps st) (memoryOps st) (branchOps st)
    (instructionsBetweenBarriers st ++ [instruction_count st])
    (instructionWidth st) (instructionsPerWorkitem st)
    (instructionsBetweenLoadOrStore st)
    (loadInstructionLabels st) (storeInstructionLabels st)
    (threads_invoked st) 0 (u32 (barriers_hit st + 1))
    (workitem_instruction_count st) (ops_between_load_or_store st)
    (global_memory_access_count st) (local_memory_access_count st)
    (constant_memory_access_count st) (previous_instruction_is_branch st)
    (target1 st) (target2 st) (branch_loc st)).

Definition workItemClearBarrier (st : WorkerState) : WorkerState :=
  mkWorker (allocated st) (computeOps st) (memoryOps st) (branchOps st)
    (instructionsBetweenBarriers st) (instructionWidth st)
    (instructionsPerWorkitem st) (instructionsBetweenLoadOrStore st)
    (loadInstructionLabels st) (storeInstructionLabels st)
    (threads_invoked st) 0 (barriers_hit st)
    (workitem_instruction_count st) (ops_between_load_or_store st)
    (global_memory_access_count st) (local_memory_access_count st)
    (constant_memory_access_count st) (previous_instruction_is_branch st)
    (target1 st) (target2 st) (branch_loc st).

Definition workItemBegin (st : WorkerState) : WorkerState :=
  mkWorker (allocated st) (computeOps st) (memoryOps st) (branchOps st)
    (instructionsBetweenBarriers st) (instructionWidth st)
    (instructionsPerWorkitem st) (instructionsBetweenLoadOrStore st)
    (loadInstructionLabels st) (storeInstructionLabels st)
    (u32 (threads_invoked st + 1)) 0 (barriers_hit st)
    0 0
    (global_memory_access_count st) (local_memory_access_count st)
    (constant_memory_access_count st) (previous_instruction_is_branch st)
    (target1 st) (target2 st) (branch_loc st).

Definition workItemComplete (st : WorkerState) : option WorkerState :=
  if negb (allocated st) then None else
  Some (mkWorker true (computeOps st) (memoryOps st) (branchOps st)
    (instructionsBetweenBarriers st ++ [instruction_count st])
    (instructionWidth st)
    (instructionsPerWorkitem st ++ [workitem_instruction_count st])
    (instructionsBetweenLoadOrStore st)
    (loadInstructionLabels st) (storeInstructionLabels st)
    (threads_invoked st) (instruction_count st) (barriers_hit st)
    (workitem_instruction_count st) (ops_between_load_or_store st)
    (global_memory_access_count st) (local_memory_access_count st)
    (constant_memory_access_count st) (previous_instruction_is_branch st)
    (target1 st) (target2 st) (branch_loc st)).

(** [workGroupBegin]: the containers are created when absent and emptied;
    [workitem_instruction_count] and [ops_between_load_or_store] are left
    as they are. *)
Definition workGroupBegin (st : WorkerState) : WorkerState :=
  mkWorker true ∅ [] ∅ [] ∅ [] [] ∅ ∅ 0 0 0
    (workitem_instruction_count st) (ops_between_load_or_store st)
    0 0 0 false "" "" 0.

(** The invocation aggregate: the [m_...] members of the plugin. *)
Record Aggregate := mkAggregate {
  m_computeOps : gmap string Z;
  m_memoryOps : list Z;
  m_branchOps : gmap Z (list bool);
  m_instructionsToBarrier : list Z;
  m_instructionWidth : gmap Z Z;
  m_instructionsPerWorkitem : list Z;
  m_instructionsBetweenLoadOrStore : list Z;
  m_loadInstructionLabels : gmap string Z;
  m_storeInstructionLabels : gmap string Z;
  m_threads_invoked : Z;
  m_barriers_hit : Z;
  m_global_memory_access : Z;
  m_local_memory_access : Z;
  m_constant_memory_access : Z
}.

(** The aggregate part of [kernelBegin]. *)
Definition kernelBegin (a : Aggregate) : Aggregate :=
  mkAggregate ∅ [] ∅ [] ∅ [] [] ∅ ∅ 0 0 0 0 0.

(** [for (item : worker) m[item.first] += item.second]. *)
Definition merge_counts `{Countable K} (worker m : gmap K Z) : gmap K Z :=
  map_fold (λ k v acc, map_add k v acc) m worker.

(** [for (item : worker) for (b : item.second) m[item.first].push_back(b)]. *)
Definition merge_branches (worker m : gmap Z (list bool)) : gmap Z (list bool) :=
  map_fold (λ k bs acc, foldl (λ acc' b, map_push k b acc') acc bs) m worker.

(** The aggregate when [workGroupComplete] has merged the worker into it. *)
Definition merge_into (a : Aggregate) (st : WorkerState) : Aggregate :=
  mkAggregate
    (merge_counts (computeOps st) (m_computeOps a))
    (m_memoryOps a ++ memoryOps st)
    (merge_branches (branchOps st) (m_branchOps a))
    (m_instructionsToBarrier a ++ instructionsBetweenBarriers st)
    (merge_counts (instructionWidth st) (m_instructionWidth a))
    (m_instructionsPerWorkitem a ++ instructionsPerWorkitem st)
    (m_instructionsBetweenLoadOrStore a ++ instructionsBetweenLoadOrStore st)
    (merge_counts (loadInstructionLabels st) (m_loadInstructionLabels a))
    (merge_counts (storeInstructionLabels st) (m_storeInstructionLabels a))
    (u32 (m_threads_invoked a + threads_invoked st))
    (u32 (m_barriers_hit a + barriers_hit st))
    (u32 (m_global_memory_access a + global_memory_access_count st))
    (u32 (m_local_memory_access a + local_memory_access_count st))
    (u32 (m_constant_memory_access a + constant_memory_access_count st)).

(** [workGroupComplete], under the plugin's mutex; the worker's [memoryOps]
    are cleared on the way. *)
Definition workGroupComplete (a : Aggregate) (st : WorkerState)
    : option (Aggregate * WorkerState) :=
  if negb (allocated st) then None
  else Some (merge_into a st, set_memoryOps [] st).

(** *** The report builder of [kernelEnd] *)

(** [std::accumulate(v.begin(), v.end(), 0.0)]. *)
Definition accumulate (v : list Z) : double :=
  foldl (λ acc x, dadd acc (of_Z x)) (Fin 0) v.

(** The sum of the values of a map, in [size_t]. *)
Definition sum_values `{Countable K} (m : gmap K Z) : Z :=
  map_fold (λ _ v acc, u64 (acc + v)) 0 m.

(** [(unsigned)ceil(n * 0.9)].  For [n] below [2^53] the product [n * 0.9]
    rounds to [9n/10] exactly when that is an integer and lies at least
    [1/10] away from every integer otherwise, so its ceiling is that of the
    rational [9n/10]. *)
Definition ceil_090 (n : Z) : Z := u32 ((9 * n + 9) / 10).

(** [std::partial_sort_copy] with [left.second > right.second] into a vector
    as long as the source: the counts in descending order.  The order of
    entries with equal counts is unspecified and the keys are not kept:
    this gives every metric that is a count, and leaves out the names that
    [kernelEnd] prints beside the counts and the order of the printed rows
    among equal counts, which follow the iteration order of the hash map. *)
Definition sorted_desc (counts : list Z) : list Z :=
  merge_sort Z.ge counts.

(** [while (count < significant) { count += sorted[n].second; n++; }] *)
Fixpoint cover (sorted : list Z) (significant count n : Z) {struct sorted}
    : option Z :=
  if bool_decide (count < significant) then
    match sorted with
    | [] => None
    | x :: rest => cover rest significant (u64 (count + x)) (u64 (n + 1))
    end
  else Some n.

(** [*std::min_element(v.begin(), v.end())] and its [max] twin. *)
Definition min_element (v : list Z) : option Z :=
  match v with
  | [] => None
  | x :: v' => Some (foldl Z.min x v')
  end.

Definition max_element (v : list Z) : option Z :=
  match v with
  | [] => None
  | x :: v' => Some (foldl Z.max x v')
  end.

(** The median of a [vector<unsigned>], computed on the sorted copy with
    [unsigned] arithmetic. *)
Definition median (v : list Z) : option Z :=
  let itb := merge_sort Z.le v in
  let size := Z.of_nat (length itb) in
  if bool_decide (size mod 2 = 0) then
    a ← vec_get itb (u64 (size / 2 - 1));
    b ← vec_get itb (size / 2);
    Some (u32 (a + b) / 2)
  else vec_get itb (size / 2).

(** [local_address_count[nskip]]. *)
Definition local_address_count (nskip : Z) (ops : list Z) : gmap Z Z :=
  foldl (λ h address, map_incr32 (address ≫ nskip) h) ∅ ops.

(** One round of [entropy = entropy - prob * std::log2(prob)]. *)
Definition entropy_step (memory_access_count : Z) (entropy : double) (value : Z)
    : double :=
  let prob := ddiv (dmul (of_Z value) (Fin 1)) (of_Z memory_access_count) in
  dsub entropy (dmul prob (dlog2 prob)).

(** The global entropy walks [sorted_count] and casts each count to [int]. *)
Definition mem_entropy_of (sorted_count : list Z) (memory_access_count : Z)
    : double :=
  foldl (λ e count, entropy_step memory_access_count e (s32 count))
        (Fin 0) sorted_count.

(** A local entropy walks the map [local_address_count[nskip]]. *)
Definition local_entropy_of (h : gmap Z Z) (memory_access_count : Z) : double :=
  map_fold (λ _ count e, entropy_step memory_access_count e count) (Fin 0) h.

(** The history window. *)
Definition m : nat := 16%nat.

Definition pattern_of (bs : list bool) : string :=
  foldr (λ (b : bool) s, String (if b then "1" else "0")%char s) "" bs.

(** The pattern that starts at position [i]. *)
Definition window (bs : list bool) (i : nat) : string :=
  pattern_of (take m (drop i bs)).

(** The history patterns [H] of one branch; the loop counter runs over
    [0 .. size - m]. *)
Definition history (bs : list bool) : gmap string Z :=
  foldl (λ H i, map_incr32 (window bs i) H) ∅
        (seq 0 (length bs - (m - 1))).

(** [std::count(pattern.begin(), pattern.end(), c)]. *)
Fixpoint count_char (c : Ascii.ascii) (pattern : string) : Z :=
  match pattern with
  | EmptyString => 0
  | String c' rest =>
      (if Ascii.eqb c' c then 1 else 0) + count_char c rest
  end.

Record BranchEntropy := mkBranchEntropy {
  average_entropy : double;
  yokota_entropy : double;
  yokota_entropy_per_workload : double;
  N : Z
}.

Definition probability_of_taken (pattern : string) : double :=
  let taken := u32 (count_char "1" pattern) in
  let not_taken := u32 (count_char "0" pattern) in
  ddiv (of_Z taken) (of_Z (u32 (not_taken + taken))).

Definition linear_branch_entropy (p : double) : double :=
  dmul (Fin 2) (dmin p (dsub (Fin 1) p)).

(** The body of [for (auto const &h : H)].  The three accumulators are
    [float]: read as reals they are exact as long as every sum is a
    binary32 number, which holds for [average_entropy] while fewer than
    [2^21] windows have been counted (every term is a whole number of
    eighths), and they leave out the rounding of [std::log2] and of the two
    Yokota sums, which for fewer than [2^16] windows is far below the
    smallest term that is not zero. *)
Definition pattern_step (pattern : string) (number_of_occurances : Z)
    (acc : BranchEntropy) : BranchEntropy :=
  let p := probability_of_taken pattern in
  let plogp := dmul p (dlog2 p) in
  mkBranchEntropy
    (dadd (average_entropy acc)
          (dmul (of_Z number_of_occurances) (linear_branch_entropy p)))
    (if dnonzero p
     then dsub (yokota_entropy acc)
               (dmul (dmul (of_Z number_of_occurances) p) (dlog2 p))
     else yokota_entropy acc)
    (if dnonzero p
     then dsub (yokota_entropy_per_workload acc) plogp
     else yokota_entropy_per_workload acc)
    (u32 (N acc + number_of_occurances)).

(** The body of [for (auto const &branch : m_branchOps)]. *)
Definition branch_step (line : Z) (bs : list bool) (acc : BranchEntropy)
    : BranchEntropy :=
  if bool_decide (length bs < m)%nat then acc
  else map_fold pattern_step acc (history bs).

(** The three entropies and [N] when the loop over the branches is done,
    before the division. *)
Definition branch_loop (branches : gmap Z (list bool)) : BranchEntropy :=
  map_fold branch_step (mkBranchEntropy (Fin 0) (Fin 0) (Fin 0) 0) branches.

(** [average_entropy / N], with NaN turned into 0.  [N] is converted to
    [float], exactly below [2^24], and the quotient is rounded once. *)
Definition average_linear (acc : BranchEntropy) : double :=
  let a := ddiv (average_entropy acc) (of_Z (N acc)) in
  if isnan a then Fin 0 else a.

(** The local variables of [kernelEnd], each as a function of the
    aggregate.  A variable whose computation dereferences an iterator or
    indexes a vector is an [option]. *)
Section kernelEnd.
Context (a : Aggregate).

(** Compute *)
Definition sorted_ops : list Z :=
  sorted_desc (map snd (map_to_list (m_computeOps a))).
Definition operation_count : Z :=
  foldl (λ acc c, u64 (acc + c)) 0 sorted_ops.
Definition significant_operation_count : Z := ceil_090 operation_count.
Definition total_instruction_count : Z := operation_count.
Definition major_operations : option Z :=
  cover sorted_ops significant_operation_count 0 0.

(** Utilization *)
Definition freedom_to_reorder : double :=
  ddiv (accumulate (m_instructionsBetweenLoadOrStore a))
       (of_Z (Z.of_nat (length (m_instructionsBetweenLoadOrStore a)))).
Definition resource_pressure : double :=
  ddiv (map_fold (λ _ v acc, dadd acc (of_Z v))
          (map_fold (λ _ v acc, dadd acc (of_Z v)) (Fin 0)
             (m_storeInstructionLabels a))
          (m_loadInstructionLabels a))
       (of_Z (m_threads_invoked a)).

(** Thread-level parallelism *)
Definition granularity : double := ddiv (Fin 1) (of_Z (m_threads_invoked a)).
Definition itb_min : option Z := min_element (m_instructionsToBarrier a).
Definition itb_max : option Z := max_element (m_instructionsToBarrier a).
Definition itb_median : option Z := median (m_instructionsToBarrier a).
Definition barriers_per_instruction : double :=
  ddiv (of_Z (u32 (m_barriers_hit a + m_threads_invoked a)))
       (of_Z total_instruction_count).

(** Work distribution *)
Definition ipt_min : option Z := min_element (m_instructionsPerWorkitem a).
Definition ipt_max : option Z := max_element (m_instructionsPerWorkitem a).
Definition ipt_median : option Z := median (m_instructionsPerWorkitem a).

(** Data parallelism *)
Definition simd_min : option Z :=
  min_element (map fst (map_to_list (m_instructionWidth a))).
Definition simd_max : option Z :=
  max_element (map fst (map_to_list (m_instructionWidth a))).
Definition simd_sum : Z :=
  map_fold (λ k v acc, s64 (acc + u64 (v * k))) 0 (m_instructionWidth a).
Definition simd_num : Z :=
  map_fold (λ k v acc, s64 (acc + v)) 0 (m_instructionWidth a).
Definition simd_mean : double := ddiv (of_Z simd_sum) (of_Z simd_num).
Definition simd_sq_sum : double :=
  map_fold (λ k v acc,
      dadd acc (dmul (dmul (dsub (of_Z k) simd_mean) (dsub (of_Z k) simd_mean))
                     (of_Z v)))
    (Fin 0) (m_instructionWidth a).
Definition simd_stdev : double := dsqrt (ddiv simd_sq_sum (of_Z simd_num)).
Definition instructions_per_operand : double :=
  ddiv (of_Z total_instruction_count) (of_Z simd_sum).

(** Memory footprint *)
Definition sorted_count : list Z :=
  sorted_desc (map snd (map_to_list (local_address_count 0 (m_memoryOps a)))).
Definition memory_access_count : Z :=
  foldl (λ acc c, u64 (acc + c)) 0 sorted_count.
Definition total_memory_footprint : Z :=
  Z.of_nat (size (local_address_count 0 (m_memoryOps a))).
Definition significant_memory_access_count : Z := ceil_090 memory_access_count.
Definition unique_memory_addresses : option Z :=
  cover sorted_count significant_memory_access_count 0 0.

(** Memory entropy *)
Definition mem_entropy : double := mem_entropy_of sorted_count memory_access_count.
Definition loc_entropy : list double :=
  map (λ nskip, local_entropy_of
                  (local_address_count (Z.of_nat nskip) (m_memoryOps a))
                  memory_access_count)
      (seq 1 10).

(** Memory diversity *)
Definition m_total_memory_access : Z :=
  u32 (u32 (m_global_memory_access a + m_local_memory_access a)
       + m_constant_memory_access a).
Definition relative_usage (x : Z) : double :=
  dmul (ddiv (of_Z x) (of_Z m_total_memory_access)) (Fin 100).

(** Control *)
Definition sorted_branch_ops : list Z :=
  sorted_desc (map (λ x, Z.of_nat (length x.2)) (map_to_list (m_branchOps a))).
Definition branch_op_count : Z :=
  foldl (λ acc c, u64 (acc + c)) 0 sorted_branch_ops.
Definition significant_branch_op_count : Z := ceil_090 branch_op_count.
Definition unique_branch_addresses : option Z :=
  cover sorted_branch_ops significant_branch_op_count 0 0.

(** "Reset kernel counts, ready to start anew": what the end of [kernelEnd]
    clears and what it leaves. *)
Definition reset : Aggregate :=
  mkAggregate ∅ [] ∅ [] (m_instructionWidth a) [] [] ∅ ∅
    0 (m_barriers_hit a) (m_global_memory_access a)
    (m_local_memory_access a) (m_constant_memory_access a).

End kernelEnd.

(** What [kernelEnd] prints and writes.  [rep_yokota_entropy] and
    [rep_memory_access_count] are printed only; the other fields are written
    to the CSV file as well. *)
Record Report := mkReport {
  rep_major_operations : Z;
  rep_total_instruction_count : Z;
  rep_freedom_to_reorder : double;
  rep_resource_pressure : double;
  rep_threads_invoked : Z;
  rep_simd_sum : Z;
  rep_barriers_hit : Z;
  rep_itb_min : Z;
  rep_itb_max : Z;
  rep_itb_median : double;
  rep_ipt_min : Z;
  rep_ipt_max : Z;
  rep_ipt_median : Z;
  rep_simd_min : Z;
  rep_simd_max : Z;
  rep_simd_mean : double;
  rep_simd_stdev : double;
  rep_granularity : double;
  rep_barriers_per_instruction : double;
  rep_instructions_per_operand : double;
  rep_memory_access_count : Z;
  rep_total_memory_footprint : Z;
  rep_unique_memory_addresses : Z;
  rep_mem_entropy : double;
  rep_loc_entropy : list double;
  rep_global_memory_access : Z;
  rep_local_memory_access : Z;
  rep_constant_memory_access : Z;
  rep_relative_local : double;
  rep_relative_constant : double;
  rep_total_unique_branches : Z;
  rep_unique_branch_addresses : Z;
  rep_yokota_entropy : double;
  rep_yokota_entropy_per_workload : double;
  rep_average_entropy : double
}.

(** [kernelEnd]: the report and the aggregate it leaves behind.  [None] is
    undefined behaviour: an end iterator dereferenced or a vector read past
    its end. *)
Definition kernelEnd (a : Aggregate) : option (Report * Aggregate) :=
  major ← major_operations a;
  itb_min ← itb_min a;
  itb_max ← itb_max a;
  itb_median ← itb_median a;
  ipt_min ← ipt_min a;
  ipt_max ← ipt_max a;
  ipt_median ← ipt_median a;
  simd_min ← simd_min a;
  simd_max ← simd_max a;
  unique_mem ← unique_memory_addresses a;
  unique_branch ← unique_branch_addresses a;
  let entropy := branch_loop (m_branchOps a) in
  Some (mkReport major (total_instruction_count a)
          (freedom_to_reorder a) (resource_pressure a) (m_threads_invoked a)
          (simd_sum a) (m_barriers_hit a) itb_min itb_max (of_Z itb_median)
          ipt_min ipt_max ipt_median simd_min simd_max
          (simd_mean a) (simd_stdev a)
          (granularity a) (barriers_per_instruction a)
          (instructions_per_operand a)
          (memory_access_count a) (total_memory_footprint a) unique_mem
          (mem_entropy a) (loc_entropy a)
          (m_global_memory_access a) (m_local_memory_access a)
          (m_constant_memory_access a)
          (relative_usage a (m_local_memory_access a))
          (relative_usage a (m_constant_memory_access a))
          (Z.of_nat (length (sorted_branch_ops a))) unique_branch
          (yokota_entropy entropy) (yokota_entropy_per_workload entropy)
          (average_linear entropy),
        reset a).

(** A value of the CSV file or of the printed report. *)
Inductive Cell :=
| CInt (z : Z)
| CDouble (x : double).

(** The rows of [aiwc_<kernel>_<n>.csv] below the header [metric,count]. *)
Definition csv_rows (r : Report) : list (string * Cell) :=
  [ ("opcode", CInt (rep_major_operations r));
    ("total instruction count", CInt (rep_total_instruction_count r));
    ("freedom to reorder", CDouble (rep_freedom_to_reorder r));
    ("resource pressure", CDouble (rep_resource_pressure r));
    ("workitems", CInt (rep_threads_invoked r));
    ("operand sum", CInt (rep_simd_sum r));
    ("total # of barriers hit", CInt (rep_barriers_hit r));
    ("min instructions to barrier", CInt (rep_itb_min r));
    ("max instructions to barrier", CInt (rep_itb_max r));
    ("median instructions to barrier", CDouble (rep_itb_median r));
    ("min instructions executed by a work-item", CInt (rep_ipt_min r));
    ("max instructions executed by a work-item", CInt (rep_ipt_max r));
    ("median instructions executed by a work-item", CInt (rep_ipt_median r));
    ("max simd width", CInt (rep_simd_max r));
    ("mean simd width", CDouble (rep_simd_mean r));
    ("stdev simd width", CDouble (rep_simd_stdev r));
    ("granularity", CDouble (rep_granularity r));
    ("barriers per instruction", CDouble (rep_barriers_per_instruction r));
    ("instructions per operand", CDouble (rep_instructions_per_operand r));
    ("total memory footprint", CInt (rep_total_memory_footprint r));
    ("90% memory footprint", CInt (rep_unique_memory_addresses r));
    ("global memory address entropy", CDouble (rep_mem_entropy r)) ]
  ++ imap (λ i e,
       ("local memory address entropy -- "
          +:+ pretty (i + 1)%nat +:+ " LSBs skipped", CDouble e))
       (rep_loc_entropy r)
  ++ [ ("total global memory accessed", CInt (rep_global_memory_access r));
       ("total local memory accessed", CInt (rep_local_memory_access r));
       ("total constant memory accessed", CInt (rep_constant_memory_access r));
       ("relative local memory usage", CDouble (rep_relative_local r));
       ("relative constant memory usage", CDouble (rep_relative_constant r));
       ("total unique branch instructions", CInt (rep_total_unique_branches r));
       ("90% branch instructions", CInt (rep_unique_branch_addresses r));
       ("branch entropy (yokota)", CDouble (rep_yokota_entropy_per_workload r));
       ("branch entropy (average linear)", CDouble (rep_average_entropy r)) ].

(** The printed lines that the CSV file does not repeat under the same
    name, and the printed freedom to reorder. *)
Definition stdout_rows (r : Report) : list (string * Cell) :=
  [ ("Freedom to Reorder: ", CDouble (rep_freedom_to_reorder r));
    ("num memory accesses: ", CInt (rep_memory_access_count r));
    ("Yokota Branch Entropy: ", CDouble (rep_yokota_entropy r));
    ("Yokota Branch Entropy per Workload: ",
       CDouble (rep_yokota_entropy_per_workload r));
    ("Average Linear Branch Entropy: ", CDouble (rep_average_entropy r)) ].

End AIWC.

(** ** The statistics in the words of the specification *)

Module Spec.

#[local] Open Scope R_scope.

Definition sumZ (l : list Z) : Z := foldr Z.add 0%Z l.
Definition sumR (l : list R) : R := foldr Rplus 0 l.

(** How often [x] occurs in [l]. *)
Definition occurrences {A} `{EqDecision A} (x : A) (l : list A) : Z :=
  Z.of_nat (length (filter (λ y, y = x) l)).

(** The entry of a histogram for a key that was counted [c] times. *)
Definition counted (c : Z) : option Z :=
  if decide (c = 0%Z) then None else Some c.

Definition log2 (x : R) : R := ln x / ln 2.

(** [- sum p log2 p] over the distinct elements of [l], with [p] the share
    of the element among the [n] counted. *)
Definition entropy {A} `{EqDecision A} (l : list A) (n : Z) : R :=
  - sumR (map (λ x, let p := IZR (occurrences x l) / IZR n in p * log2 p)
              (remove_dups l)).

(** [t] is the ceiling of nine tenths of [n]. *)
Definition ceiling_of_nine_tenths (n t : Z) : Prop :=
  (9 * n ≤ 10 * t ∧ 10 * (t - 1) < 9 * n)%Z.

(** The first [n] entries of [counts] are the smallest prefix whose sum
    reaches [threshold]. *)
Definition smallest_cover (counts : list Z) (threshold : Z) (n : Z) : Prop :=
  (0 ≤ n ≤ Z.of_nat (length counts))%Z
  ∧ (threshold ≤ sumZ (take (Z.to_nat n) counts))%Z
  ∧ ∀ k : nat, (Z.of_nat k < n)%Z → (sumZ (take k counts) < threshold)%Z.

(** [sorted] lists [counts] in descending order. *)
Definition descending_sort_of (counts sorted : list Z) : Prop :=
  sorted ≡ₚ counts ∧ Sorted Z.ge sorted.

(** The history window of the specification, [m = 16]. *)
Definition window_length : nat := 16%nat.

(** The character that stands for an outcome, and the string of ['0'] and
    ['1'] that stands for a run of outcomes. *)
Definition digit (b : bool) : Ascii.ascii :=
  if b then "1"%char else "0"%char.
Definition digits (w : list bool) : string :=
  String.string_of_list_ascii (digit <$> w).

(** "Slide a window of length m across the sequence, emitting
    (length - m + 1) strings": the string emitted at position [i] stands
    for the outcomes [i .. i + m - 1] of the sequence. *)
Definition windows (bs : list bool) : list string :=
  (λ i, digits (take window_length (drop i bs)))
    <$> seq 0 (length bs + 1 - window_length).

(** "Count each distinct pattern": every distinct string with the number
    of positions that emit it.  A branch with fewer than [m] outcomes has
    no window. *)
Definition line_patterns (bs : list bool) : list (string * Z) :=
  if decide (length bs < window_length)%nat then []
  else (λ pattern, (pattern, occurrences pattern (windows bs)))
         <$> remove_dups (windows bs).

(** The patterns of all branches, line after line. *)
Definition all_patterns (branches : gmap Z (list bool)) : list (string * Z) :=
  map_to_list branches ≫= λ branch, line_patterns branch.2.

(** [takenCount], the number of ['1'] in a pattern, and the number of
    ['0']. *)
Definition taken (pattern : string) : Z :=
  occurrences "1"%char (String.list_ascii_of_string pattern).
Definition not_taken (pattern : string) : Z :=
  occurrences "0"%char (String.list_ascii_of_string pattern).

(** A history pattern: sixteen characters, each ['0'] or ['1']. *)
Definition sixteen (pattern : string) : Prop :=
  (0 ≤ taken pattern ∧ 0 ≤ not_taken pattern
   ∧ not_taken pattern + taken pattern = 16)%Z.

(** [p = takenCount / m]. *)
Definition taken_rate (pattern : string) : R :=
  IZR (taken pattern) / IZR (Z.of_nat window_length).

(** [p log2 p], counted only when [p] is not zero. *)
Definition plogp (pattern : string) : R :=
  if decide (taken pattern = 0%Z) then 0
  else taken_rate pattern * log2 (taken_rate pattern).

Definition linear (pattern : string) : R :=
  2 * Rmin (taken_rate pattern) (1 - taken_rate pattern).

Definition yokota (ps : list (string * Z)) : R :=
  - sumR (map (λ pc, IZR pc.2 * plogp pc.1) ps).
Definition yokota_per_workload (ps : list (string * Z)) : R :=
  - sumR (map (λ pc, plogp pc.1) ps).
Definition linear_numerator (ps : list (string * Z)) : R :=
  sumR (map (λ pc, IZR pc.2 * linear pc.1) ps).
Definition window_count (ps : list (string * Z)) : Z := sumZ (map snd ps).
Definition average_linear (ps : list (string * Z)) : R :=
  if decide (window_count ps = 0%Z) then 0
  else linear_numerator ps / IZR (window_count ps).

(** A whole number of eighths below [2^21]: a number that binary32, with
    its significand of 24 bits, holds exactly. *)
Definition eighths (x : R) : Prop :=
  ∃ k : Z, (0 ≤ k < 2 ^ 24)%Z ∧ x = IZR k / 8.

(** A report with its three branch entropies blanked. *)
Definition without_branch_entropy (r : AIWC.Report) : AIWC.Report :=
  AIWC.mkReport (AIWC.rep_major_operations r)
    (AIWC.rep_total_instruction_count r) (AIWC.rep_freedom_to_reorder r)
    (AIWC.rep_resource_pressure r) (AIWC.rep_threads_invoked r)
    (AIWC.rep_simd_sum r) (AIWC.rep_barriers_hit r) (AIWC.rep_itb_min r)
    (AIWC.rep_itb_max r) (AIWC.rep_itb_median r) (AIWC.rep_ipt_min r)
    (AIWC.rep_ipt_max r) (AIWC.rep_ipt_median r) (AIWC.rep_simd_min r)
    (AIWC.rep_simd_max r) (AIWC.rep_simd_mean r) (AIWC.rep_simd_stdev r)
    (AIWC.rep_granularity r) (AIWC.rep_barriers_per_instruction r)
    (AIWC.rep_instructions_per_operand r) (AIWC.rep_memory_access_count r)
    (AIWC.rep_total_memory_footprint r) (AIWC.rep_unique_memory_addresses r)
    (AIWC.rep_mem_entropy r) (AIWC.rep_loc_entropy r)
    (AIWC.rep_global_memory_access r) (AIWC.rep_local_memory_access r)
    (AIWC.rep_constant_memory_access r) (AIWC.rep_relative_local r)
    (AIWC.rep_relative_constant r) (AIWC.rep_total_unique_branches r)
    (AIWC.rep_unique_branch_addresses r) FP.NaN FP.NaN FP.NaN.

(** The rows of the CSV file other than the two branch entropies. *)
Definition other_rows (r : AIWC.Report) : list (string * AIWC.Cell) :=
  filter (λ row, row.1 ≠ "branch entropy (yokota)"
                 ∧ row.1 ≠ "branch entropy (average linear)")
         (AIWC.csv_rows r).

(** The sequence of a branch once [bs] has been pushed onto it. *)
Definition appended (old : option (list bool)) (bs : list bool)
    : option (list bool) :=
  match bs with
  | [] => old
  | _ => Some (default [] old ++ bs)
  end.

(** Two aggregates that differ only in the order in which the workers'
    contributions were appended. *)
Definition same_up_to_order (a b : AIWC.Aggregate) : Prop :=
  AIWC.m_computeOps a = AIWC.m_computeOps b
  ∧ AIWC.m_memoryOps a ≡ₚ AIWC.m_memoryOps b
  ∧ (∀ line, option_Forall2 Permutation
               (AIWC.m_branchOps a !! line) (AIWC.m_branchOps b !! line))
  ∧ AIWC.m_instructionsToBarrier a ≡ₚ AIWC.m_instructionsToBarrier b
  ∧ AIWC.m_instructionWidth a = AIWC.m_instructionWidth b
  ∧ AIWC.m_instructionsPerWorkitem a ≡ₚ AIWC.m_instructionsPerWorkitem b
  ∧ AIWC.m_instructionsBetweenLoadOrStore a
    ≡ₚ AIWC.m_instructionsBetweenLoadOrStore b
  ∧ AIWC.m_loadInstructionLabels a = AIWC.m_loadInstructionLabels b
  ∧ AIWC.m_storeInstructionLabels a = AIWC.m_storeInstructionLabels b
  ∧ AIWC.m_threads_invoked a = AIWC.m_threads_invoked b
  ∧ AIWC.m_barriers_hit a = AIWC.m_barriers_hit b
  ∧ AIWC.m_global_memory_access a = AIWC.m_global_memory_access b
  ∧ AIWC.m_local_memory_access a = AIWC.m_local_memory_access b
  ∧ AIWC.m_constant_memory_access a = AIWC.m_constant_memory_access b.

(** The number of recorded outcomes of all branches. *)
Definition outcomes (branches : gmap Z (list bool)) : Z :=
  sumZ (map (λ branch, Z.of_nat (length branch.2)) (map_to_list branches)).

End Spec.

(** ** The plugin driven by one worker thread *)

Module Plugin.
Import FP.

Record State := mkState {
  transfers : Transfers.HostTransferLog;
  aggregate : AIWC.Aggregate;
  m_state : AIWC.WorkerState
}.

(** The plugin as the constructor leaves it.  The constructor assigns the
    two members of the transfer log and nothing else: the containers are
    empty by their own constructors, but the five scalar counters
    [m_threads_invoked], [m_barriers_hit] and the three access counts hold
    whatever the memory held.  They are parameters here. *)
Definition constructed
    (threads_invoked barriers_hit global local constant : Z) : State :=
  mkState Transfers.init
          (AIWC.mkAggregate ∅ [] ∅ [] ∅ [] [] ∅ ∅
             threads_invoked barriers_hit global local constant)
          AIWC.null_state.

(** The plugin with the five counters at 0, which is what the first
    [kernelBegin] makes of them whatever they were.  A run that merges or
    reports before any [kernelBegin] reads the counters the constructor
    left, and [init] does not stand for it. *)
Definition init : State :=
  mkState Transfers.init (AIWC.kernelBegin (AIWC.mkAggregate ∅ [] ∅ [] ∅ [] [] ∅ ∅ 0 0 0 0 0))
          AIWC.null_state.

Inductive Event :=
| KernelBegin (name : string)
| KernelEnd (name : string)
| WorkGroupBegin
| WorkGroupComplete
| WorkItemBegin
| WorkItemComplete
| WorkItemBarrier
| WorkItemClearBarrier
| InstructionExecuted (instruction : AIWC.Instruction) (num : Z)
| MemoryLoad (addressSpace address : Z)
| MemoryStore (addressSpace address : Z)
| MemoryAtomicLoad (addressSpace address : Z)
| MemoryAtomicStore (addressSpace address : Z)
| HostMemoryLoad
| HostMemoryStore.

Definition on_worker (s : State) (st : option AIWC.WorkerState)
    : option (State * list AIWC.Report) :=
  st' ← st; Some (mkState (transfers s) (aggregate s) st', []).

(** One callback; the reports are those [kernelEnd] emits. *)
Definition step (s : State) (e : Event) : option (State * list AIWC.Report) :=
  match e with
  | KernelBegin name =>
      log ← Transfers.kernelBegin name (transfers s);
      Some (mkState log (AIWC.kernelBegin (aggregate s)) (m_state s), [])
  | KernelEnd name =>
      '(r, a) ← AIWC.kernelEnd (aggregate s);
      Some (mkState (Transfers.kernelEnd name (transfers s)) a (m_state s), [r])
  | WorkGroupBegin => on_worker s (Some (AIWC.workGroupBegin (m_state s)))
  | WorkGroupComplete =>
      '(a, st) ← AIWC.workGroupComplete (aggregate s) (m_state s);
      Some (mkState (transfers s) a st, [])
  | WorkItemBegin => on_worker s (Some (AIWC.workItemBegin (m_state s)))
  | WorkItemComplete => on_worker s (AIWC.workItemComplete (m_state s))
  | WorkItemBarrier => on_worker s (AIWC.workItemBarrier (m_state s))
  | WorkItemClearBarrier =>
      on_worker s (Some (AIWC.workItemClearBarrier (m_state s)))
  | InstructionExecuted instruction num =>
      on_worker s (AIWC.instructionExecuted instruction num (m_state s))
  | MemoryLoad addressSpace address =>
      on_worker s (AIWC.memoryLoad addressSpace address (m_state s))
  | MemoryStore addressSpace address =>
      on_worker s (AIWC.memoryStore addressSpace address (m_state s))
  | MemoryAtomicLoad addressSpace address =>
      on_worker s (AIWC.memoryAtomicLoad addressSpace address (m_state s))
  | MemoryAtomicStore addressSpace address =>
      on_worker s (AIWC.memoryAtomicStore addressSpace address (m_state s))
  | HostMemoryLoad =>
      Some (mkState (Transfers.hostMemoryLoad (transfers s)) (aggregate s) (m_state s), [])
  | HostMemoryStore =>
      Some (mkState (Transfers.hostMemoryStore (transfers s)) (aggregate s) (m_state s), [])
  end.

Fixpoint run (s : State) (es : list Event) : option (State * list AIWC.Report) :=
  match es with
  | [] => Some (s, [])
  | e :: es' =>
      '(s', rs) ← step s e;
      '(s'', rs') ← run s' es';
      Some (s'', rs ++ rs')
  end.

(** The work-groups of one invocation, each run by some worker and merged
    when it completes: the aggregate after the merges, in the order given. *)
Fixpoint merge_all (a : AIWC.Aggregate) (workers : list AIWC.WorkerState)
    : option AIWC.Aggregate :=
  match workers with
  | [] => Some a
  | st :: rest =>
      '(a', _) ← AIWC.workGroupComplete a st;
      merge_all a' rest
  end.

End Plugin.

(** ** Scenarios *)

Module Scenario.
Import AIWC Plugin.

Definition add : Instruction := mkInstruction (OtherOp "add") 0 "" [] "entry" 0.
Definition ret : Instruction := mkInstruction (OtherOp "ret") 0 "" [] "entry" 0.
Definition load_global : Instruction :=
  mkInstruction Load AddrSpaceGlobal "a" [] "entry" 0.

Definition executed (instruction : Instruction) (n : nat) : list Event :=
  replicate n (InstructionExecuted instruction 1).

(** A work-item that runs four instructions and reaches a barrier, and the
    same work-item resuming for two more instructions. *)
Definition to_barrier : list Event :=
  [WorkItemBegin] ++ executed add 4 ++ [WorkItemBarrier].
Definition after_barrier : list Event :=
  [WorkItemClearBarrier] ++ executed add 2 ++ [WorkItemComplete].

(** Two such work-items in one work-group: one after the other, and both
    gathered at the barrier before either resumes. *)
Definition two_items_in_turn : list Event :=
  [KernelBegin "K"; WorkGroupBegin]
  ++ to_barrier ++ after_barrier ++ to_barrier ++ after_barrier
  ++ [WorkGroupComplete].
Definition two_items_at_barrier : list Event :=
  [KernelBegin "K"; WorkGroupBegin]
  ++ to_barrier ++ to_barrier ++ after_barrier ++ after_barrier
  ++ [WorkGroupComplete].

(** A kernel of one work-item that computes and returns without touching
    memory. *)
Definition no_memory_kernel : list Event :=
  [KernelBegin "K"; WorkGroupBegin; WorkItemBegin;
   InstructionExecuted add 1; InstructionExecuted ret 1;
   WorkItemComplete; WorkGroupComplete].

(** A kernel of one work-item that loads from global memory, waits at a
    barrier and returns. *)
Definition load_and_barrier_kernel : list Event :=
  [KernelBegin "K"; WorkGroupBegin; WorkItemBegin;
   InstructionExecuted load_global 1; MemoryLoad AddrSpaceGlobal 4096;
   WorkItemBarrier; WorkItemClearBarrier;
   InstructionExecuted ret 1;
   WorkItemComplete; WorkGroupComplete].

(** The conditional branch of line 42, [br %cmp, %a, %b] in the order
    of its operands, once as the terminator of block [%a] and once as the
    terminator of block [%b]. *)
Definition br_42 (parent : string) : Instruction :=
  mkInstruction Br 0 ""
    [mkOperand false "%cmp"; mkOperand true "%a"; mkOperand true "%b"]
    parent 42.

(** The worker state at the end of a work-group, before it is merged. *)
Definition worker_after (events : list Event) : option WorkerState :=
  '(s, _) ← run init (WorkGroupBegin :: events); Some (m_state s).

(** Two work-groups of one work-item each, both going through the branch of
    line 42: the first goes to [%a] and then to [%b], the second goes to
    [%b] fifteen times. *)
Definition group_taken_then_not : list Event :=
  [WorkItemBegin; InstructionExecuted (br_42 "%b") 1;
   InstructionExecuted (br_42 "%a") 1; InstructionExecuted (br_42 "%b") 1;
   WorkItemComplete].
Definition group_not_taken : list Event :=
  [WorkItemBegin; InstructionExecuted (br_42 "%b") 1]
  ++ replicate 15 (InstructionExecuted (br_42 "%b") 1)
  ++ [WorkItemComplete].

(** The aggregate with the given memory operations and nothing else. *)
Definition with_memoryOps (ops : list Z) : Aggregate :=
  mkAggregate ∅ ops ∅ [] ∅ [] [] ∅ ∅ 0 0 0 0 0.

(** The aggregate with the given branch sequences and nothing else. *)
Definition with_branchOps (branches : gmap Z (list bool)) : Aggregate :=
  mkAggregate ∅ [] branches [] ∅ [] [] ∅ ∅ 0 0 0 0 0.


(** One work-item whose control goes from block to block through that
    branch: after the first execution in [%b], thirty-two times to [%a] and
    back to [%b].  Every execution after the first records the outcome of
    the one before it. *)
Definition alternating_kernel : list Event :=
  [KernelBegin "K"; WorkGroupBegin; WorkItemBegin;
   InstructionExecuted (br_42 "%b") 1]
  ++ mjoin (replicate 32 [InstructionExecuted (br_42 "%a") 1;
                          InstructionExecuted (br_42 "%b") 1])
  ++ [WorkItemComplete; WorkGroupComplete].

End Scenario.

(** ** Aggregates within the range of the counters *)

Module Range.
Import AIWC Spec.

(** The number of executed instructions an aggregate holds. *)
Definition instructions (a : Aggregate) : Z :=
  sumZ (map snd (map_to_list (m_computeOps a))).

(** An aggregate as the callbacks build it while the counters do not wrap:
    every opcode it holds was counted at least once, every branch it holds
    has an outcome, and the instructions, the memory operations and the
    branch outcomes each number fewer than [2^32]. *)
Definition in_range (a : Aggregate) : Prop :=
  map_Forall (λ _ c, 0 < c) (m_computeOps a)
  ∧ instructions a < 2 ^ 32
  ∧ Z.of_nat (length (m_memoryOps a)) < 2 ^ 32
  ∧ map_Forall (λ _ bs, bs ≠ []) (m_branchOps a)
  ∧ outcomes (m_branchOps a) < 2 ^ 32.

(** The instruction widths while [simd_sum] and [simd_num], which are
    [long], do not overflow: no width is negative, every width was counted
    at least once, and the counts and the operands each number fewer than
    [2^63]. *)
Definition widths_in_range (a : Aggregate) : Prop :=
  map_Forall (λ width count, 0 ≤ width ∧ 0 < count) (m_instructionWidth a)
  ∧ sumZ (map (λ item, item.2) (map_to_list (m_instructionWidth a))) < 2 ^ 63
  ∧ sumZ (map (λ item, item.2 * item.1) (map_to_list (m_instructionWidth a)))
    < 2 ^ 63.

(** The total of a map of counts. *)
Definition total `{Countable K} (m : gmap K Z) : Z :=
  sumZ (map snd (map_to_list m)).

(** The opcode counts and the width counts of one container pair: every
    entry was counted at least once, both maps count the same number of
    instructions, and that number is at most [bound]. *)
Definition balanced (ops : gmap string Z) (widths : gmap Z Z) (bound : Z)
    : Prop :=
  map_Forall (λ _ c, 0 < c) ops
  ∧ map_Forall (λ _ c, 0 < c) widths
  ∧ total ops = total widths
  ∧ total ops ≤ bound.

(** The load and store labels of one container triple: every label was
    counted at least once, and the two maps count as many memory
    instructions as [gaps] holds gaps, at most [bound]. *)
Definition labelled (loads stores : gmap string Z) (gaps : list Z) (bound : Z)
    : Prop :=
  map_Forall (λ _ c, 0 < c) loads
  ∧ map_Forall (λ _ c, 0 < c) stores
  ∧ total loads + total stores = Z.of_nat (length gaps)
  ∧ Z.of_nat (length gaps) ≤ bound.

End Range.

(** ** Two work-items of one work-group and a barrier *)

Module Barrier.
Import AIWC Plugin Scenario.

(** A work-item that begins, executes [n] times the instruction and waits
    at a barrier; the work-item when it resumes, executes [k] times the
    instruction and completes. *)
Definition reaches_barrier (i : Instruction) (n : nat) : list Event :=
  [WorkItemBegin] ++ executed i n ++ [WorkItemBarrier].
Definition resumes (i : Instruction) (k : nat) : list Event :=
  [WorkItemClearBarrier] ++ executed i k ++ [WorkItemComplete].

(** A work-group of two such work-items on one worker: the second begins
    when the first has completed, or both wait at the barrier before either
    resumes. *)
Definition in_turn (i : Instruction) (n1 k1 n2 k2 : nat) : list Event :=
  [WorkGroupBegin] ++ reaches_barrier i n1 ++ resumes i k1
  ++ reaches_barrier i n2 ++ resumes i k2.
Definition gathered (i : Instruction) (n1 k1 n2 k2 : nat) : list Event :=
  [WorkGroupBegin] ++ reaches_barrier i n1 ++ reaches_barrier i n2
  ++ resumes i k1 ++ resumes i k2.

(** The work-item completes after [k] more instructions, its barrier
    having been cleared before. *)
Definition completes (i : Instruction) (k : nat) : list Event :=
  executed i k ++ [WorkItemComplete].

(** Both work-items are released from the barrier before either resumes:
    the two [workItemClearBarrier] come first, then the first work-item
    runs to completion, then the second. *)
Definition released_together (i : Instruction) (n1 k1 n2 k2 : nat)
    : list Event :=
  [WorkGroupBegin] ++ reaches_barrier i n1 ++ reaches_barrier i n2
  ++ [WorkItemClearBarrier; WorkItemClearBarrier]
  ++ completes i k1 ++ completes i k2.

(** The two work-items of [two_items_at_barrier], released together. *)
Definition two_items_released_together : list Event :=
  [KernelBegin "K"] ++ released_together add 4 2 4 2 ++ [WorkGroupComplete].

(** What the barrier callbacks and the instruction counters read and write
    of the worker state. *)
Definition counters (st : WorkerState)
    : bool * bool * list Z * list Z * Z * Z :=
  (allocated st, previous_instruction_is_branch st,
   instructionsPerWorkitem st, instructionsBetweenBarriers st,
   workitem_instruction_count st, instruction_count st).

End Barrier.

(** ** The names of the files written *)

Module Logfile.

(** ["aiwc_" + kernel + "_" + std::to_string(logfile_count) + ".csv"], the
    file of [kernelEnd], and the file of the destructor. *)
Definition logfile_name (kernel : string) (logfile_count : Z) : string :=
  "aiwc_" +:+ kernel +:+ "_" +:+ pretty logfile_count +:+ ".csv".
Definition transfers_logfile_name (logfile_count : Z) : string :=
  "aiwc_memory_transfers_" +:+ pretty logfile_count +:+ ".csv".

(** [while (std::ifstream(logfile_name)) { logfile_count++; ... }]: the
    count at which the loop stops, if it stops within [fuel] tests.
    [present] tells whether a file of that name can be opened; the counter
    is an [int]. *)
Fixpoint first_free (fuel : nat) (present : string → bool) (name : Z → string)
    (logfile_count : Z) : option Z :=
  match fuel with
  | O => None
  | S fuel' =>
      if present (name logfile_count)
      then first_free fuel' present name (s32 (logfile_count + 1))
      else Some logfile_count
  end.

End Logfile.

(** ** What one work-group adds to the aggregate *)

Module Contribution.
Import AIWC Plugin.

(** The callbacks of a worker between [workGroupBegin] and
    [workGroupComplete]. *)
Definition inside_group (e : Event) : bool :=
  match e with
  | KernelBegin _ | KernelEnd _ | WorkGroupBegin | WorkGroupComplete => false
  | _ => true
  end.

(** The addresses of the memory callbacks outside the private address
    space, in the order of the callbacks. *)
Definition recorded (e : Event) : list Z :=
  match e with
  | MemoryLoad addressSpace address | MemoryStore addressSpace address
  | MemoryAtomicLoad addressSpace address
  | MemoryAtomicStore addressSpace address =>
      if bool_decide (addressSpace ≠ AddrSpacePrivate) then [address] else []
  | _ => []
  end.

Definition is_item_begin (e : Event) : bool :=
  match e with WorkItemBegin => true | _ => false end.
Definition is_barrier (e : Event) : bool :=
  match e with WorkItemBarrier => true | _ => false end.

(** An executed load or store whose pointer is in the address space
    [space]. *)
Definition accesses (space : Z) (e : Event) : bool :=
  match e with
  | InstructionExecuted instruction _ =>
      match getOpcode instruction with
      | Load | Store => bool_decide (getPointerAddressSpace instruction = space)
      | _ => false
      end
  | _ => false
  end.

Definition number_of (p : Event → bool) (es : list Event) : Z :=
  Z.of_nat (length (filter (λ e, p e = true) es)).

End Contribution.

(** ** Loops *)

Module Loop.
Import AIWC Plugin Scenario.

(** One work-item that goes twenty times round a loop: the conditional
    branch of line 42 closes the body [%a] and jumps back to it.  The
    first of the twenty-one executions records nothing, each later one
    records that the branch before it was taken. *)
Definition loop_kernel : list Event :=
  [KernelBegin "K"; WorkGroupBegin; WorkItemBegin]
  ++ replicate 21 (InstructionExecuted (br_42 "%a") 1)
  ++ [WorkItemComplete; WorkGroupComplete].

(** A branch that went the same way every time it was recorded, and a
    kernel all of whose branches did. *)
Definition one_way (bs : list bool) : Prop :=
  Forall (λ b, b = hd false bs) bs.
Definition predictable (branches : gmap Z (list bool)) : Prop :=
  map_Forall (λ _ bs, one_way bs) branches.

End Loop.

(** * Verification *)
(** ** Machine integers *)

Lemma u32_small x : 0 ≤ x < 2 ^ 32 → u32 x = x.
Proof. intros ?. unfold u32. by apply Z.mod_small. Qed.

Lemma u64_small x : 0 ≤ x < 2 ^ 64 → u64 x = x.
Proof. intros ?. unfold u64. by apply Z.mod_small. Qed.

Lemma s32_small x : - 2 ^ 31 ≤ x < 2 ^ 31 → s32 x = x.
Proof. intros ?. unfold s32. rewrite Z.mod_small; lia. Qed.

Lemma vec_set_Some {A} (v : list A) (i : Z) (x : A) :
  0 ≤ i < Z.of_nat (length v) → vec_set v i x = Some (<[Z.to_nat i := x]> v).
Proof. intros ?. unfold vec_set. by rewrite bool_decide_eq_true_2. Qed.

(** ** Host-transfer tracker *)

Section transfers.
Import Transfers.

(** The loop of [kernelBegin] overwrites the [n] entries that end where the
    last [i] entries begin. *)
Lemma relabel_loop_spec name (n : nat) : ∀ (i : Z) (v : list string),
  0 ≤ i →
  i + Z.of_nat n ≤ Z.of_nat (length v) →
  Z.of_nat (length v) < 2 ^ 31 →
  relabel_loop n i (Z.of_nat (length v) - 1) name v
  = Some (take (length v - Z.to_nat i - n) v ++ replicate n name
          ++ drop (length v - Z.to_nat i) v).
Proof.
  induction n as [|n IH]; intros i v Hi Hn Hlen.
  - simpl. f_equal.
    rewrite Nat.sub_0_r. by rewrite take_drop.
  - cbn [relabel_loop].
    rewrite (s32_small (_ - i)) by lia.
    rewrite u64_small by lia.
    rewrite vec_set_Some by lia. cbn [mbind option_bind].
    rewrite (s32_small (i + 1)) by lia.
    pose proof (IH (i + 1) (<[Z.to_nat (Z.of_nat (length v) - 1 - i) := name]> v)) as IH'.
    rewrite length_insert in IH'.
    rewrite IH' by lia. f_equal.
    replace (Z.to_nat (Z.of_nat (length v) - 1 - i))
      with (length v - Z.to_nat i - 1)%nat by lia.
    replace (length v - Z.to_nat (i + 1))%nat
      with (length v - Z.to_nat i - 1)%nat by lia.
    set (k := (length v - Z.to_nat i - 1)%nat).
    assert (Hk : (k < length v)%nat) by lia.
    rewrite take_insert_ge by lia.
    rewrite drop_insert_ge by lia.
    rewrite Nat.sub_diag.
    replace (length v - Z.to_nat i - S n)%nat with (k - n)%nat by lia.
    replace (length v - Z.to_nat i)%nat with (S k) by lia.
    destruct (lookup_lt_is_Some_2 v k Hk) as [y Hy].
    rewrite (drop_S v y k Hy), replicate_S_end, <- !app_assoc. done.
Qed.

Lemma end_of_list_spec (len : Z) :
  0 ≤ len < 2 ^ 31 → s32 (u64 (len - 1)) = len - 1.
Proof.
  intros H. destruct (decide (len = 0)) as [->|]; [done|].
  rewrite u64_small by lia. apply s32_small. lia.
Qed.

Lemma kernelBegin_spec name s :
  0 ≤ m_numberOfHostToDeviceCopiesBeforeKernelNamed s
    ≤ Z.of_nat (length (m_hostToDeviceCopy s)) →
  Z.of_nat (length (m_hostToDeviceCopy s)) < 2 ^ 31 →
  ∃ s', kernelBegin name s = Some s' ∧ spec_step s (KernelBegin name) s'.
Proof.
  intros HN Hlen. unfold kernelBegin.
  rewrite end_of_list_spec by lia.
  rewrite relabel_loop_spec by lia. cbn [mbind option_bind].
  eexists; split; [done|]. cbn.
  repeat split. change (Z.to_nat 0) with 0%nat.
  rewrite Nat.sub_0_r, drop_all, app_nil_r. done.
Qed.

Lemma step_spec s e :
  0 ≤ m_numberOfHostToDeviceCopiesBeforeKernelNamed s
    ≤ Z.of_nat (length (m_hostToDeviceCopy s)) →
  Z.of_nat (length (m_hostToDeviceCopy s)) + 1 < 2 ^ 31 →
  ∃ s', step s e = Some s' ∧ spec_step s e s'.
Proof.
  intros HN Hlen. destruct e as [| |name|name]; cbn [step].
  - eexists; split; [done|]. cbn. rewrite s32_small by lia. done.
  - eexists; split; [done|]. by cbn.
  - apply kernelBegin_spec; lia.
  - eexists; split; [done|]. by cbn.
Qed.

(** A run from any state whose pending counter is within its list. *)
Lemma run_spec es : ∀ s,
  0 ≤ m_numberOfHostToDeviceCopiesBeforeKernelNamed s
    ≤ Z.of_nat (length (m_hostToDeviceCopy s)) →
  Z.of_nat (length (m_hostToDeviceCopy s)) + Z.of_nat (length es) < 2 ^ 31 →
  ∃ s', run s es = Some s'
    ∧ m_hostToDeviceCopy s'
      = match next_kernel es with
        | Some name =>
            take (length (m_hostToDeviceCopy s)
                  - Z.to_nat (m_numberOfHostToDeviceCopiesBeforeKernelNamed s))
                 (m_hostToDeviceCopy s)
            ++ replicate
                 (Z.to_nat (m_numberOfHostToDeviceCopiesBeforeKernelNamed s)) name
        | None => m_hostToDeviceCopy s
        end ++ spec_host_to_device (m_last_kernel_name s) es
    ∧ m_deviceToHostCopy s'
      = m_deviceToHostCopy s ++ spec_device_to_host (m_last_kernel_name s) es
    ∧ 0 ≤ m_numberOfHostToDeviceCopiesBeforeKernelNamed s'
        ≤ Z.of_nat (length (m_hostToDeviceCopy s'))
    ∧ Z.of_nat (length (m_hostToDeviceCopy s'))
      ≤ Z.of_nat (length (m_hostToDeviceCopy s)) + Z.of_nat (length es).
Proof.
  induction es as [|e es IH]; intros s HN Hlen.
  { exists s. simpl. rewrite !app_nil_r. repeat split; try done; lia. }
  cbn [length] in Hlen |- *.
  destruct (step_spec s e) as (s1 & Hstep & Hlaw); [done|lia|].
  cbn [run]. rewrite Hstep. cbn [mbind option_bind].
  destruct e as [| |name|name]; cbn [spec_step] in Hlaw;
    set (n := m_numberOfHostToDeviceCopiesBeforeKernelNamed s) in *;
    set (v := m_hostToDeviceCopy s) in *.
  - destruct Hlaw as (Hh & Hp & Hd & Hl).
    assert (Hlen1 : length (m_hostToDeviceCopy s1) = S (length v)).
    { rewrite Hh, length_app. simpl. lia. }
    destruct (IH s1) as (s' & Hrun & Hh' & Hd' & HN' & Hlen').
    { rewrite Hp, Hlen1. lia. }
    { rewrite Hlen1. lia. }
    exists s'. split; [done|]. split; [|split; [|split]]; [| |done|lia].
    + rewrite Hh', Hl, Hp, Hlen1, Hh.
      cbn [next_kernel spec_host_to_device].
      destruct (next_kernel es) as [k|]; simpl.
      * replace (S (length v) - Z.to_nat (n + 1))%nat
          with (length v - Z.to_nat n)%nat by lia.
        rewrite take_app_le by lia.
        replace (Z.to_nat (n + 1)) with (S (Z.to_nat n)) by lia.
        rewrite replicate_S_end, <- !app_assoc. done.
      * by rewrite <- app_assoc.
    + by rewrite Hd', Hd, Hl.
  - destruct Hlaw as (Hd & Hh & Hp & Hl).
    destruct (IH s1) as (s' & Hrun & Hh' & Hd' & HN' & Hlen').
    { rewrite Hh, Hp. lia. }
    { rewrite Hh. lia. }
    exists s'. split; [done|]. split; [|split; [|split]]; [| |done|].
    + by rewrite Hh', Hl, Hp, Hh.
    + rewrite Hd', Hd, Hl. cbn [spec_device_to_host]. by rewrite <- app_assoc.
    + rewrite Hh in Hlen'. lia.
  - destruct Hlaw as (Hh & Hp & Hd & Hl).
    assert (Hlen1 : length (m_hostToDeviceCopy s1) = length v).
    { rewrite Hh, length_app, length_take, length_replicate. lia. }
    destruct (IH s1) as (s' & Hrun & Hh' & Hd' & HN' & Hlen').
    { rewrite Hp. lia. }
    { rewrite Hlen1. lia. }
    exists s'. split; [done|]. split; [|split; [|split]]; [| |done|lia].
    + rewrite Hh', Hl, Hp. cbn [next_kernel spec_host_to_device].
      f_equal. change (Z.to_nat 0) with 0%nat. rewrite Nat.sub_0_r.
      rewrite firstn_all. simpl. rewrite app_nil_r.
      by destruct (next_kernel es).
    + by rewrite Hd', Hd, Hl.
  - subst s1 v n.
    destruct (IH s) as (s' & Hrun & Hh' & Hd' & HN' & Hlen'); [done|lia|].
    exists s'. split; [done|]. split; [|split; [|split]]; [done|done|done|lia].
Qed.

(** C6.  For every sequence of callbacks (shorter than [2^31], the range of
    the [int] counter) the tracker runs without leaving its lists, every
    host store appends an entry tagged with the last known kernel name and
    increments the pending counter, [kernelBegin] renames the last [N]
    host-to-device entries to the kernel being enqueued and zeroes the
    counter, every host load appends an entry tagged with the kernel named
    last, and no device-to-host entry is ever renamed: the two lists are the
    attribution the specification describes.  For the sequence store, store,
    [kernelBegin K], [kernelEnd K], load, the transfers file attributes two
    host-to-device transfers and one device-to-host transfer to [K]. *)
Theorem C6_host_transfer_attribution (es : list Event) (e : Event) :
  Z.of_nat (length es) + 1 < 2 ^ 31 →
  ∃ s s',
    run init es = Some s
    ∧ step s e = Some s'
    ∧ spec_step s e s'
    ∧ m_hostToDeviceCopy s = spec_host_to_device "" es
    ∧ m_deviceToHostCopy s = spec_device_to_host "" es
    ∧ (run init [HostMemoryStore; HostMemoryStore; KernelBegin "K";
                 KernelEnd "K"; HostMemoryLoad]
         ≫= (λ s, Some (transfer_rows s))
       = Some [("transfer: host to device", "K", 2);
               ("transfer: device to host", "K", 1)]).
Proof.
  intros Hlen.
  destruct (run_spec es init) as (s & Hrun & Hh & Hd & HN & Hl);
    [done|simpl; lia|].
  destruct (step_spec s e) as (s' & Hstep & Hlaw); [done|simpl in Hl; lia|].
  exists s, s'. split; [done|]. split; [done|]. split; [done|].
  split; [|split; [|done]].
  - rewrite Hh. simpl. by destruct (next_kernel es).
  - by rewrite Hd.
Qed.

Lemma C6_host_transfer_attribution_witness :
  ∃ s s',
    run init [HostMemoryStore; HostMemoryStore; KernelBegin "K"; KernelEnd "K"]
      = Some s
    ∧ step s HostMemoryLoad = Some s'
    ∧ spec_step s HostMemoryLoad s'
    ∧ m_hostToDeviceCopy s
      = spec_host_to_device ""
          [HostMemoryStore; HostMemoryStore; KernelBegin "K"; KernelEnd "K"]
    ∧ m_deviceToHostCopy s
      = spec_device_to_host ""
          [HostMemoryStore; HostMemoryStore; KernelBegin "K"; KernelEnd "K"]
    ∧ (run init [HostMemoryStore; HostMemoryStore; KernelBegin "K";
                 KernelEnd "K"; HostMemoryLoad]
         ≫= (λ s, Some (transfer_rows s))
       = Some [("transfer: host to device", "K", 2);
               ("transfer: device to host", "K", 1)]).
Proof.
  apply (C6_host_transfer_attribution
           [HostMemoryStore; HostMemoryStore; KernelBegin "K"; KernelEnd "K"]
           HostMemoryLoad).
  reflexivity.
Defined.

(** C4.  [std::unique] merges equal neighbours only.  When kernel [A] runs,
    then [B], then [A] again, each with a buffer write before and a read
    after, both lists are [A; B; A] and the transfers file has two rows for
    [A] in each direction, each carrying the total 2. *)
Theorem C4_recurring_kernel_gets_two_rows :
  ∃ s,
    run init [HostMemoryStore; KernelBegin "A"; KernelEnd "A"; HostMemoryLoad;
              HostMemoryStore; KernelBegin "B"; KernelEnd "B"; HostMemoryLoad;
              HostMemoryStore; KernelBegin "A"; KernelEnd "A"; HostMemoryLoad]
      = Some s
    ∧ m_hostToDeviceCopy s = ["A"; "B"; "A"]
    ∧ m_deviceToHostCopy s = ["A"; "B"; "A"]
    ∧ rows_for "transfer: host to device" "A" (transfer_rows s)
      = [("transfer: host to device", "A", 2);
         ("transfer: host to device", "A", 2)]
    ∧ rows_for "transfer: device to host" "A" (transfer_rows s)
      = [("transfer: device to host", "A", 2);
         ("transfer: device to host", "A", 2)].
Proof. eexists. split; [reflexivity|]. repeat split. Qed.

End transfers.

(** ** Floating-point values *)

Section fp.
Import FP.
#[local] Open Scope R_scope.

Lemma zero_R_IZR (z : Z) : zero_R (IZR z) = bool_decide (z = 0%Z).
Proof.
  unfold zero_R. destruct (Req_dec_T (IZR z) 0) as [H|H].
  - apply eq_IZR in H. by rewrite bool_decide_eq_true_2.
  - rewrite bool_decide_eq_false_2; [done|]. intros ->. by apply H.
Qed.

Lemma negative_R_IZR (z : Z) : negative_R (IZR z) = bool_decide (z < 0)%Z.
Proof.
  unfold negative_R. destruct (Rlt_dec (IZR z) 0) as [H|H].
  - apply lt_IZR in H. by rewrite bool_decide_eq_true_2.
  - rewrite bool_decide_eq_false_2; [done|]. intros Hz. apply H. by apply IZR_lt.
Qed.

Lemma ddiv_of_Z (x y : Z) :
  y ≠ 0%Z → ddiv (of_Z x) (of_Z y) = Fin (IZR x / IZR y).
Proof.
  intros Hy. unfold ddiv, of_Z. rewrite zero_R_IZR.
  by rewrite bool_decide_eq_false_2.
Qed.

Lemma ddiv_zero_zero : ddiv (Fin 0) (of_Z 0) = NaN.
Proof.
  unfold ddiv, of_Z. change 0 with (IZR 0). by rewrite !zero_R_IZR.
Qed.

End fp.

(** ** The plugin's callbacks *)

Section plugin.
Import FP AIWC Plugin.

Lemma run_app s es es' :
  run s (es ++ es')
  = '(s', rs) ← run s es; '(s'', rs') ← run s' es'; Some (s'', rs ++ rs').
Proof.
  revert s. induction es as [|e es IH]; intros s; simpl.
  - by destruct (run s es') as [[??]|].
  - destruct (step s e) as [[s1 rs1]|]; simpl; [|done].
    rewrite IH. destruct (run s1 es) as [[s2 rs2]|]; simpl; [|done].
    destruct (run s2 es') as [[s3 rs3]|]; simpl; [|done].
    by rewrite app_assoc.
Qed.

(** The first [kernelBegin] assigns the five counters that the constructor
    left: from it on, a run of the plugin as constructed is the run from
    [init], whatever the counters held. *)
Lemma run_constructed (threads_invoked barriers_hit global local constant : Z)
    (name : string) (es : list Event) :
  run (constructed threads_invoked barriers_hit global local constant)
      (KernelBegin name :: es)
  = run init (KernelBegin name :: es).
Proof. reflexivity. Qed.

(** The report of an aggregate on which no iterator or index leaves its
    container. *)
Lemma kernelEnd_Some a major i1 i2 i3 p1 p2 p3 s1 s2 um ub :
  major_operations a = Some major →
  itb_min a = Some i1 → itb_max a = Some i2 → itb_median a = Some i3 →
  ipt_min a = Some p1 → ipt_max a = Some p2 → ipt_median a = Some p3 →
  simd_min a = Some s1 → simd_max a = Some s2 →
  unique_memory_addresses a = Some um →
  unique_branch_addresses a = Some ub →
  kernelEnd a
  = Some (mkReport major (total_instruction_count a)
            (freedom_to_reorder a) (resource_pressure a) (m_threads_invoked a)
            (simd_sum a) (m_barriers_hit a) i1 i2 (of_Z i3)
            p1 p2 p3 s1 s2 (simd_mean a) (simd_stdev a)
            (granularity a) (barriers_per_instruction a)
            (instructions_per_operand a)
            (memory_access_count a) (total_memory_footprint a) um
            (mem_entropy a) (loc_entropy a)
            (m_global_memory_access a) (m_local_memory_access a)
            (m_constant_memory_access a)
            (relative_usage a (m_local_memory_access a))
            (relative_usage a (m_constant_memory_access a))
            (Z.of_nat (length (sorted_branch_ops a))) ub
            (yokota_entropy (branch_loop (m_branchOps a)))
            (yokota_entropy_per_workload (branch_loop (m_branchOps a)))
            (average_linear (branch_loop (m_branchOps a))),
          reset a).
Proof.
  intros H1 H2 H3 H4 H5 H6 H7 H8 H9 H10 H11. unfold kernelEnd.
  by rewrite H1, H2, H3, H4, H5, H6, H7, H8, H9, H10, H11.
Qed.

(** Whatever [kernelEnd] reports, it leaves [reset a] behind. *)
Lemma kernelEnd_reset a r a' : kernelEnd a = Some (r, a') → a' = reset a.
Proof.
  unfold kernelEnd. intros H.
  destruct (major_operations a); cbn in H; [|done].
  destruct (itb_min a); cbn in H; [|done].
  destruct (itb_max a); cbn in H; [|done].
  destruct (itb_median a); cbn in H; [|done].
  destruct (ipt_min a); cbn in H; [|done].
  destruct (ipt_max a); cbn in H; [|done].
  destruct (ipt_median a); cbn in H; [|done].
  destruct (simd_min a); cbn in H; [|done].
  destruct (simd_max a); cbn in H; [|done].
  destruct (unique_memory_addresses a); cbn in H; [|done].
  destruct (unique_branch_addresses a); cbn in H; [|done].
  by inversion H.
Qed.

(** A [kernelEnd] that returns has found an instruction to barrier count, a
    per work-item count and a width. *)
Lemma kernelEnd_nonempty a r a' :
  kernelEnd a = Some (r, a') →
  m_instructionsToBarrier a ≠ []
  ∧ m_instructionsPerWorkitem a ≠ []
  ∧ m_instructionWidth a ≠ ∅.
Proof.
  unfold kernelEnd. intros H.
  destruct (major_operations a); cbn in H; [|done].
  destruct (itb_min a) eqn:H1; cbn in H; [|done].
  destruct (itb_max a); cbn in H; [|done].
  destruct (itb_median a); cbn in H; [|done].
  destruct (ipt_min a) eqn:H2; cbn in H; [|done].
  destruct (ipt_max a); cbn in H; [|done].
  destruct (ipt_median a); cbn in H; [|done].
  destruct (simd_min a) eqn:H3; cbn in H; [|done].
  unfold itb_min, ipt_min, simd_min in *.
  repeat split; intros E; rewrite E in *; done.
Qed.

End plugin.

(** Evaluate the run of a closed trace and name the state it reaches. *)
Ltac run_prefix trace s0 Hrun :=
  let o := fresh "o" in
  pose (o := Plugin.run Plugin.init trace);
  assert (Hrun : Plugin.run Plugin.init trace = o) by reflexivity;
  vm_compute in o; subst o;
  match type of Hrun with _ = Some (?s, _) => set (s0 := s) in * end.

(** The report of a closed aggregate: the integer parts are evaluated, the
    floating-point parts are left as they are written. *)
Ltac report_of a r H :=
  let eval_as t := (let v := eval vm_compute in t in
                    constr:(eq_refl v <: t = v)) in
  let H1 := eval_as (AIWC.major_operations a) in
  let H2 := eval_as (AIWC.itb_min a) in
  let H3 := eval_as (AIWC.itb_max a) in
  let H4 := eval_as (AIWC.itb_median a) in
  let H5 := eval_as (AIWC.ipt_min a) in
  let H6 := eval_as (AIWC.ipt_max a) in
  let H7 := eval_as (AIWC.ipt_median a) in
  let H8 := eval_as (AIWC.simd_min a) in
  let H9 := eval_as (AIWC.simd_max a) in
  let H10 := eval_as (AIWC.unique_memory_addresses a) in
  let H11 := eval_as (AIWC.unique_branch_addresses a) in
  pose proof (kernelEnd_Some a _ _ _ _ _ _ _ _ _ _ _
                H1 H2 H3 H4 H5 H6 H7 H8 H9 H10 H11) as H;
  match type of H with _ = Some (?x, _) => set (r := x) in * end.

Section scenarios.
Import FP AIWC Plugin Scenario.

Lemma run_then_kernelEnd s es name s0 r a' :
  run s es = Some (s0, []) →
  kernelEnd (aggregate s0) = Some (r, a') →
  run s (es ++ [KernelEnd name])
  = Some (mkState (transfers s0) a' (m_state s0), [r]).
Proof.
  intros Hes Hend. rewrite run_app, Hes. cbn. by rewrite Hend.
Qed.

Lemma freedom_to_reorder_empty a :
  m_instructionsBetweenLoadOrStore a = [] → freedom_to_reorder a = NaN.
Proof.
  intros E. unfold freedom_to_reorder. rewrite E. cbn.
  apply ddiv_zero_zero.
Qed.

Lemma average_linear_no_window acc :
  average_entropy acc = Fin 0 → N acc = 0 → average_linear acc = Fin 0.
Proof.
  intros Ha HN. unfold average_linear. rewrite Ha, HN.
  by rewrite ddiv_zero_zero.
Qed.

(** C5.  Right after [kernelBegin] the aggregate is empty, and [kernelEnd]
    on it dereferences [std::min_element] of an empty vector (and would
    index the empty sorted copy and dereference the end of the empty width
    map): the behaviour is undefined and no report is produced. *)
Theorem C5_kernelEnd_without_work_is_undefined (a : Aggregate) :
  itb_min (kernelBegin a) = None
  ∧ itb_median (kernelBegin a) = None
  ∧ ipt_min (kernelBegin a) = None
  ∧ simd_min (kernelBegin a) = None
  ∧ kernelEnd (kernelBegin a) = None
  ∧ run init [KernelBegin "K"; KernelEnd "K"] = None.
Proof. repeat split. Qed.

(** C3.  A kernel whose single work-item executes an [add] and a [ret]
    records no load or store, so [kernelEnd] divides [0.0] by the size 0 and
    the freedom to reorder is NaN, on standard output and in the CSV row
    alike; the average linear branch entropy of the same report, whose
    [0/0] the code does test with [isnan], is 0. *)
Theorem C3_freedom_to_reorder_is_NaN_without_loads_or_stores :
  ∃ s r,
    run init (no_memory_kernel ++ [KernelEnd "K"]) = Some (s, [r])
    ∧ rep_freedom_to_reorder r = NaN
    ∧ ("freedom to reorder", CDouble NaN) ∈ csv_rows r
    ∧ ("Freedom to Reorder: ", CDouble NaN) ∈ stdout_rows r
    ∧ rep_average_entropy r = Fin 0.
Proof.
  run_prefix no_memory_kernel s0 Hrun.
  report_of (aggregate s0) r Hend.
  assert (Hf : rep_freedom_to_reorder r = NaN).
  { subst r. cbn [rep_freedom_to_reorder].
    by rewrite freedom_to_reorder_empty by reflexivity. }
  assert (Havg : rep_average_entropy r = Fin 0).
  { subst r. cbn [rep_average_entropy].
    by rewrite average_linear_no_window by reflexivity. }
  eexists _, r. split.
  { eapply run_then_kernelEnd; [exact Hrun|exact Hend]. }
  clear Hrun Hend. clearbody r s0.
  split; [exact Hf|]. split; [|split; [|exact Havg]].
  - unfold csv_rows. rewrite Hf. set_solver.
  - unfold stdout_rows. rewrite Hf. set_solver.
Qed.

Lemma merge_sort_eq_Permutation (l l' : list Z) :
  merge_sort Z.le l = merge_sort Z.le l' → l ≡ₚ l'.
Proof.
  intros E. rewrite <- (merge_sort_Permutation Z.le l), E.
  apply merge_sort_Permutation.
Qed.

(** Two work-items that each execute four instructions, reach a barrier,
    execute two more and complete, when each resumes as soon as its own
    barrier is cleared (one after the other, or both waiting first): the
    aggregate counts two work-items and two barriers,
    [instructionsBetweenBarriers] holds 4, 4, 2, 2 in some order, the
    median of its sorted copy [2; 2; 4; 4] is [(2 + 4) / 2 = 3] in integer
    arithmetic, and [kernelEnd] reports [(2 + 2) / 12] barriers per
    instruction. *)
Lemma two_work_items_resuming_in_turn :
  Forall (λ trace, ∃ s r s',
      run init trace = Some (s, [])
      ∧ m_threads_invoked (aggregate s) = 2
      ∧ m_barriers_hit (aggregate s) = 2
      ∧ m_instructionsToBarrier (aggregate s) ≡ₚ [4; 4; 2; 2]
      ∧ merge_sort Z.le (m_instructionsToBarrier (aggregate s)) = [2; 2; 4; 4]
      ∧ itb_median (aggregate s) = Some ((2 + 4) / 2)
      ∧ total_instruction_count (aggregate s) = 12
      ∧ run init (trace ++ [KernelEnd "K"]) = Some (s', [r])
      ∧ rep_threads_invoked r = 2
      ∧ rep_barriers_hit r = 2
      ∧ rep_itb_median r = Fin 3
      ∧ rep_barriers_per_instruction r = Fin ((2 + 2) / 12))
    [two_items_in_turn; two_items_at_barrier].
Proof.
  apply List.Forall_cons; [|apply List.Forall_cons; [|apply List.Forall_nil]].
  - run_prefix two_items_in_turn s0 Hrun.
    report_of (aggregate s0) r Hend.
    exists s0, r. eexists. split; [exact Hrun|].
    do 2 (split; [reflexivity|]).
    split; [apply merge_sort_eq_Permutation; reflexivity|].
    do 3 (split; [reflexivity|]).
    split; [eapply run_then_kernelEnd; [exact Hrun|exact Hend]|].
    do 3 (split; [reflexivity|]).
    subst r. cbn [rep_barriers_per_instruction]. unfold barriers_per_instruction.
    replace (u32 _) with 4 by reflexivity.
    replace (total_instruction_count _) with 12 by reflexivity.
    rewrite ddiv_of_Z by done. f_equal. lra.
  - run_prefix two_items_at_barrier s0 Hrun.
    report_of (aggregate s0) r Hend.
    exists s0, r. eexists. split; [exact Hrun|].
    do 2 (split; [reflexivity|]).
    split; [apply merge_sort_eq_Permutation; reflexivity|].
    do 3 (split; [reflexivity|]).
    split; [eapply run_then_kernelEnd; [exact Hrun|exact Hend]|].
    do 3 (split; [reflexivity|]).
    subst r. cbn [rep_barriers_per_instruction]. unfold barriers_per_instruction.
    replace (u32 _) with 4 by reflexivity.
    replace (total_instruction_count _) with 12 by reflexivity.
    rewrite ddiv_of_Z by done. f_equal. lra.
Qed.

(** C8.  The same two work-items when both are released from the barrier
    before either resumes, which is how a work-group releases its barrier:
    [workItemComplete] pushes the worker's count without zeroing it, as
    [workItemBarrier] does, so the second work-item's two instructions are
    counted on top of the first's.  The aggregate counts two work-items,
    two barriers and twelve instructions, and [kernelEnd] reports
    [(2 + 2) / 12] barriers per instruction, but
    [instructionsBetweenBarriers] is [4; 4; 2; 4], not 4, 4, 2, 2 in any
    order, and the median is [(4 + 4) / 2 = 4], not 3. *)
Theorem C8_released_together_counts_twice :
  ∃ s r s',
    run init Barrier.two_items_released_together = Some (s, [])
    ∧ m_threads_invoked (aggregate s) = 2
    ∧ m_barriers_hit (aggregate s) = 2
    ∧ m_instructionsToBarrier (aggregate s) = [4; 4; 2; 4]
    ∧ ¬ m_instructionsToBarrier (aggregate s) ≡ₚ [4; 4; 2; 2]
    ∧ merge_sort Z.le (m_instructionsToBarrier (aggregate s)) = [2; 4; 4; 4]
    ∧ itb_median (aggregate s) = Some ((4 + 4) / 2)
    ∧ total_instruction_count (aggregate s) = 12
    ∧ run init (Barrier.two_items_released_together ++ [KernelEnd "K"])
      = Some (s', [r])
    ∧ rep_threads_invoked r = 2
    ∧ rep_barriers_hit r = 2
    ∧ rep_itb_median r = Fin 4
    ∧ rep_itb_median r ≠ Fin 3
    ∧ rep_barriers_per_instruction r = Fin ((2 + 2) / 12).
Proof.
  run_prefix Barrier.two_items_released_together s0 Hrun.
  report_of (aggregate s0) r Hend.
  exists s0, r. eexists. split; [exact Hrun|].
  do 3 (split; [reflexivity|]).
  split.
  { intros Hp.
    pose proof (proj1 (Permutation_count_occ Z.eq_dec _ _) Hp 2) as Htwo.
    vm_compute in Htwo. discriminate Htwo. }
  do 3 (split; [reflexivity|]).
  split; [eapply run_then_kernelEnd; [exact Hrun|exact Hend]|].
  do 3 (split; [reflexivity|]).
  split.
  { subst r. cbn [rep_itb_median]. intros [= E]. lra. }
  subst r. cbn [rep_barriers_per_instruction]. unfold barriers_per_instruction.
  replace (u32 _) with 4 by reflexivity.
  replace (total_instruction_count _) with 12 by reflexivity.
  rewrite ddiv_of_Z by done. f_equal. lra.
Qed.

(** C2.  After a kernel whose work-item loads from global memory and waits
    at a barrier, [kernelEnd] has emptied the containers it names and zeroed
    [threads_invoked], but [instructionWidth] still holds its entry and the
    barrier and global-memory counters keep their values; the next
    [kernelBegin] is what clears them. *)
Theorem C2_kernelEnd_leaves_widths_and_counters :
  ∃ s r,
    run init (load_and_barrier_kernel ++ [KernelEnd "K"]) = Some (s, [r])
    ∧ m_computeOps (aggregate s) = ∅
    ∧ m_memoryOps (aggregate s) = []
    ∧ m_branchOps (aggregate s) = ∅
    ∧ m_instructionsToBarrier (aggregate s) = []
    ∧ m_instructionsPerWorkitem (aggregate s) = []
    ∧ m_instructionsBetweenLoadOrStore (aggregate s) = []
    ∧ m_loadInstructionLabels (aggregate s) = ∅
    ∧ m_storeInstructionLabels (aggregate s) = ∅
    ∧ m_threads_invoked (aggregate s) = 0
    ∧ m_instructionWidth (aggregate s) = {[1 := 2]}
    ∧ m_barriers_hit (aggregate s) = 1
    ∧ m_global_memory_access (aggregate s) = 1
    ∧ kernelBegin (aggregate s) = mkAggregate ∅ [] ∅ [] ∅ [] [] ∅ ∅ 0 0 0 0 0.
Proof.
  run_prefix load_and_barrier_kernel s0 Hrun.
  report_of (aggregate s0) r Hend.
  eexists _, r. split.
  { eapply run_then_kernelEnd; [exact Hrun|exact Hend]. }
  clear Hrun Hend. cbn [aggregate]. unfold reset.
  cbn [m_computeOps m_memoryOps m_branchOps m_instructionsToBarrier
       m_instructionsPerWorkitem m_instructionsBetweenLoadOrStore
       m_loadInstructionLabels m_storeInstructionLabels m_threads_invoked
       m_instructionWidth m_barriers_hit m_global_memory_access].
  do 9 (split; [reflexivity|]).
  split; [vm_compute; reflexivity|].
  do 2 (split; [reflexivity|]). reflexivity.
Qed.

End scenarios.

(** ** Histograms *)

Section histograms.
Import Spec.
Context `{Countable K}.

Lemma occurrences_nil (k : K) : occurrences k [] = 0.
Proof. done. Qed.

Lemma occurrences_cons (k x : K) l :
  occurrences k (x :: l) = (if decide (x = k) then 1 else 0) + occurrences k l.
Proof.
  unfold occurrences. rewrite filter_cons.
  destruct (decide (x = k)); simpl; lia.
Qed.

Lemma occurrences_app (k : K) l l' :
  occurrences k (l ++ l') = occurrences k l + occurrences k l'.
Proof. unfold occurrences. rewrite filter_app, length_app. lia. Qed.

Lemma occurrences_bounds (k : K) l : 0 ≤ occurrences k l ≤ Z.of_nat (length l).
Proof.
  unfold occurrences. pose proof (length_filter (λ y, y = k) l). lia.
Qed.

Lemma occurrences_pos (k : K) l : 0 < occurrences k l ↔ k ∈ l.
Proof.
  induction l as [|x l IH].
  - rewrite occurrences_nil. split; [lia|]. by intros ?%elem_of_nil.
  - rewrite occurrences_cons, elem_of_cons.
    pose proof (occurrences_bounds k l).
    destruct (decide (x = k)) as [->|]; [split; [by left|lia]|].
    rewrite Z.add_0_l, IH. split; [by right|]. by intros [?|?].
Qed.

Lemma occurrences_Permutation (k : K) l l' :
  l ≡ₚ l' → occurrences k l = occurrences k l'.
Proof. intros E. unfold occurrences. by rewrite E. Qed.

Lemma map_incr32_counted (x : K) (h : gmap K Z) (seen : list K) :
  (∀ k, h !! k = counted (occurrences k seen)) →
  Z.of_nat (length seen) + 1 < 2 ^ 32 →
  ∀ k, AIWC.map_incr32 x h !! k = counted (occurrences k (seen ++ [x])).
Proof.
  intros Hh Hlen k. unfold AIWC.map_incr32.
  rewrite occurrences_app, occurrences_cons, occurrences_nil, Z.add_0_r.
  pose proof (occurrences_bounds k seen).
  destruct (decide (x = k)) as [->|Hne].
  - rewrite lookup_insert_eq, Hh. unfold counted.
    assert (default 0 (if decide (occurrences k seen = 0) then None
                       else Some (occurrences k seen)) = occurrences k seen) as ->.
    { by destruct (decide (occurrences k seen = 0)) as [->|]. }
    rewrite u32_small by lia.
    case_decide; [lia|]. f_equal; lia.
  - rewrite lookup_insert_ne by done. rewrite Hh. f_equal. lia.
Qed.

Lemma foldl_map_incr32 (l : list K) : ∀ (h : gmap K Z) (seen : list K),
  (∀ k, h !! k = counted (occurrences k seen)) →
  Z.of_nat (length (seen ++ l)) < 2 ^ 32 →
  ∀ k, foldl (λ h x, AIWC.map_incr32 x h) h l !! k
       = counted (occurrences k (seen ++ l)).
Proof.
  induction l as [|x l IH]; intros h seen Hh Hlen k.
  - by rewrite app_nil_r.
  - simpl. rewrite (cons_middle x), app_assoc.
    rewrite cons_middle, app_assoc in Hlen.
    apply IH; [|done].
    apply map_incr32_counted; [done|].
    rewrite !length_app in Hlen. simpl in Hlen. lia.
Qed.

(** A histogram built by [m[k]++] holds, for every key, the number of its
    occurrences. *)
Lemma histogram_lookup (l : list K) (k : K) :
  Z.of_nat (length l) < 2 ^ 32 →
  foldl (λ h x, AIWC.map_incr32 x h) ∅ l !! k = counted (occurrences k l).
Proof.
  intros Hlen. apply (foldl_map_incr32 l ∅ []); [|done].
  intros k'. by rewrite lookup_empty.
Qed.

(** Its entries are the distinct keys, each with its count. *)
Lemma histogram_to_list (l : list K) :
  Z.of_nat (length l) < 2 ^ 32 →
  map_to_list (foldl (λ h x, AIWC.map_incr32 x h) ∅ l)
  ≡ₚ map (λ x, (x, occurrences x l)) (remove_dups l).
Proof.
  intros Hlen. apply NoDup_Permutation.
  - apply NoDup_map_to_list.
  - apply (NoDup_fmap_2_strong _).
    + intros x y _ _ E. by inversion E.
    + apply NoDup_remove_dups.
  - intros [k v]. rewrite elem_of_map_to_list, histogram_lookup by done.
    rewrite list_elem_of_fmap. unfold counted. split.
    + destruct (decide (occurrences k l = 0)) as [|Hne]; [done|].
      intros [= <-]. exists k. split; [done|].
      rewrite elem_of_remove_dups, <- occurrences_pos.
      pose proof (occurrences_bounds k l). lia.
    + intros (x & [= -> ->] & Hx).
      rewrite elem_of_remove_dups, <- occurrences_pos in Hx.
      destruct (decide (occurrences x l = 0)); [lia|done].
Qed.

End histograms.

(** ** Sums and the 90% cover *)

Section sums.
Import Spec AIWC.

Lemma sumZ_app l l' : sumZ (l ++ l') = sumZ l + sumZ l'.
Proof. induction l as [|x l IH]; simpl; lia. Qed.

Lemma sumZ_Permutation l l' : l ≡ₚ l' → sumZ l = sumZ l'.
Proof. induction 1; simpl; lia. Qed.

Lemma sumZ_nonneg l : Forall (λ x, 0 ≤ x) l → 0 ≤ sumZ l.
Proof. induction 1; simpl; lia. Qed.

Lemma sumZ_take_le l n : Forall (λ x, 0 ≤ x) l → sumZ (take n l) ≤ sumZ l.
Proof.
  intros Hl. rewrite <- (take_drop n l) at 2. rewrite sumZ_app.
  pose proof (sumZ_nonneg (drop n l) (Forall_drop _ _ _ Hl)). lia.
Qed.

Lemma u64_add_idemp a b : u64 (u64 a + b) = u64 (a + b).
Proof. unfold u64. by rewrite Zplus_mod_idemp_l. Qed.

(** Summing in [size_t] is summing and wrapping once. *)
Lemma foldl_u64_sum l : ∀ a,
  foldl (λ acc c, u64 (acc + c)) (u64 a) l = u64 (a + sumZ l).
Proof.
  induction l as [|x l IH]; intros a; simpl.
  - by rewrite Z.add_0_r.
  - rewrite u64_add_idemp, IH. f_equal. lia.
Qed.

Lemma foldl_u64_sum_0 l :
  foldl (λ acc c, u64 (acc + c)) 0 l = u64 (sumZ l).
Proof. apply (foldl_u64_sum l 0). Qed.

Lemma occurrences_NoDup {A} `{EqDecision A} (y : A) (L : list A) :
  NoDup L → occurrences y L = if decide (y ∈ L) then 1 else 0.
Proof.
  induction 1 as [|x L Hx HL IH].
  - rewrite occurrences_nil. by rewrite decide_False by apply not_elem_of_nil.
  - rewrite occurrences_cons, IH.
    destruct (decide (x = y)) as [->|Hne].
    + rewrite decide_False by done. by rewrite decide_True by (by left).
    + destruct (decide (y ∈ L)).
      * by rewrite decide_True by (by right).
      * rewrite decide_False; [done|]. intros [?|?]%elem_of_cons; naive_solver.
Qed.

(** The counts of the distinct elements add up to the length. *)
Lemma sumZ_occurrences {A} `{EqDecision A} (L l : list A) :
  NoDup L → (∀ y, y ∈ l → y ∈ L) →
  sumZ (map (λ x, occurrences x l) L) = Z.of_nat (length l).
Proof.
  intros HL. induction l as [|y l IH]; intros Hsub.
  - clear. induction L; simpl in *; [done|]. rewrite occurrences_nil. lia.
  - assert (sumZ (map (λ x, occurrences x (y :: l)) L)
            = occurrences y L + sumZ (map (λ x, occurrences x l) L)) as ->.
    { clear. induction L as [|x L IH]; simpl; [done|].
      rewrite IH, !occurrences_cons.
      destruct (decide (y = x)), (decide (x = y)); naive_solver lia. }
    rewrite IH by (intros; apply Hsub; by right).
    rewrite occurrences_NoDup by done.
    rewrite decide_True by (apply Hsub; by left). simpl length. lia.
Qed.

Lemma sumZ_occurrences_remove_dups {A} `{EqDecision A} (l : list A) :
  sumZ (map (λ x, occurrences x l) (remove_dups l)) = Z.of_nat (length l).
Proof.
  apply sumZ_occurrences; [apply NoDup_remove_dups|].
  intros y. by rewrite elem_of_remove_dups.
Qed.

(** [(unsigned)ceil(n * 0.9)] is the ceiling of nine tenths of [n]. *)
Lemma ceil_090_spec n :
  0 ≤ n < 2 ^ 32 → ceiling_of_nine_tenths n (ceil_090 n) ∧ 0 ≤ ceil_090 n ≤ n.
Proof.
  intros Hn. unfold ceil_090, ceiling_of_nine_tenths.
  assert (0 ≤ (9 * n + 9) / 10 ≤ n).
  { split; [apply Z.div_pos; lia|].
    apply Z.lt_succ_r, Z.div_lt_upper_bound; lia. }
  rewrite u32_small by lia.
  pose proof (Z.mul_div_le (9 * n + 9) 10).
  pose proof (Z.mul_succ_div_gt (9 * n + 9) 10). lia.
Qed.

(** The loop [while (count < significant) count += sorted[n++]] stops at the
    smallest prefix that reaches [significant], and never leaves the vector
    when the whole of it reaches [significant]. *)
Lemma cover_spec sorted : ∀ significant count n,
  Forall (λ x, 0 ≤ x) sorted →
  0 ≤ count → 0 ≤ n →
  count + sumZ sorted < 2 ^ 64 →
  n + Z.of_nat (length sorted) < 2 ^ 64 →
  significant ≤ count + sumZ sorted →
  ∃ k : nat,
    cover sorted significant count n = Some (n + Z.of_nat k)
    ∧ (k ≤ length sorted)%nat
    ∧ significant ≤ count + sumZ (take k sorted)
    ∧ ∀ j : nat, (j < k)%nat → count + sumZ (take j sorted) < significant.
Proof.
  induction sorted as [|x sorted IH]; intros sig count n Hpos Hc Hn Hsum Hlen Hsig.
  - exists 0%nat. simpl in *. rewrite bool_decide_eq_false_2 by lia.
    repeat split; [f_equal; lia|lia|lia|lia].
  - cbn [cover]. destruct (decide (count < sig)) as [Hlt|Hge].
    + rewrite bool_decide_eq_true_2 by done.
      inversion Hpos as [|?? Hx Hpos']; subst.
      pose proof (sumZ_nonneg _ Hpos').
      simpl in Hsum, Hlen, Hsig.
      rewrite (u64_small (count + x)) by lia.
      rewrite (u64_small (n + 1)) by lia.
      destruct (IH sig (count + x) (n + 1)) as (k & Hk & Hkl & Hreach & Hmin);
        [done|lia|lia|lia|lia|lia|].
      exists (S k). rewrite Hk. repeat split.
      * f_equal. lia.
      * simpl. lia.
      * simpl. lia.
      * intros [|j] Hj; simpl; [lia|].
        specialize (Hmin j). lia.
    + rewrite bool_decide_eq_false_2 by done. exists 0%nat.
      repeat split; [f_equal; lia|lia|simpl; lia|lia].
Qed.

End sums.

(** ** Sorting *)

Section sorting.
Import AIWC.

#[local] Instance Z_ge_total : Total Z.ge.
Proof. intros x y. lia. Qed.

#[local] Instance Z_ge_trans : Transitive Z.ge.
Proof. intros x y z. lia. Qed.

#[local] Instance Z_ge_antisymm : AntiSymm (=) Z.ge.
Proof. intros x y. lia. Qed.

Lemma sorted_desc_Permutation l : sorted_desc l ≡ₚ l.
Proof. apply merge_sort_Permutation. Qed.

Lemma sorted_desc_Sorted l : Sorted Z.ge (sorted_desc l).
Proof. apply (Sorted_merge_sort Z.ge). Qed.

(** Sorting forgets the order of its input. *)
Lemma sorted_desc_proper l l' : l ≡ₚ l' → sorted_desc l = sorted_desc l'.
Proof.
  intros E. apply (Sorted_unique Z.ge).
  - apply sorted_desc_Sorted.
  - apply sorted_desc_Sorted.
  - by rewrite !sorted_desc_Permutation.
Qed.

Lemma merge_sort_le_proper (l l' : list Z) :
  l ≡ₚ l' → merge_sort Z.le l = merge_sort Z.le l'.
Proof.
  intros E. apply (Sorted_unique Z.le).
  - apply (Sorted_merge_sort Z.le).
  - apply (Sorted_merge_sort Z.le).
  - by rewrite !merge_sort_Permutation.
Qed.

End sorting.

(** ** Entropy *)

Section entropy.
Import FP Spec AIWC.
#[local] Open Scope R_scope.

Lemma sumR_Permutation l l' : l ≡ₚ l' → sumR l = sumR l'.
Proof. induction 1; simpl; lra. Qed.

Lemma zero_R_false r : r ≠ 0 → zero_R r = false.
Proof. intros Hr. unfold zero_R. by destruct (Req_dec_T r 0). Qed.

Lemma negative_R_false r : 0 <= r → negative_R r = false.
Proof. intros Hr. unfold negative_R. destruct (Rlt_dec r 0); [lra|done]. Qed.

Lemma dlog2_Fin p : 0 < p → dlog2 (Fin p) = Fin (log2 p).
Proof.
  intros Hp. unfold dlog2.
  rewrite negative_R_false by lra. by rewrite zero_R_false by lra.
Qed.

Lemma ln_2_pos : 0 < ln 2.
Proof. pose proof ln_lt_2. lra. Qed.

(** The share of a positive count in a positive total. *)
Lemma share_pos (c n : Z) : (0 < c)%Z → (0 < n)%Z → 0 < IZR c / IZR n.
Proof.
  intros Hc Hn. apply Rdiv_lt_0_compat; by apply (IZR_lt 0).
Qed.

Lemma entropy_step_Fin (n c : Z) (e : R) :
  (0 < c)%Z → (0 < n)%Z →
  entropy_step n (Fin e) c
  = Fin (e - IZR c / IZR n * log2 (IZR c / IZR n)).
Proof.
  intros Hc Hn. unfold entropy_step, of_Z. cbn [dmul].
  rewrite Rmult_1_r. cbn [ddiv].
  rewrite zero_R_false by (apply not_0_IZR; lia).
  rewrite dlog2_Fin by by apply share_pos.
  done.
Qed.

Lemma mem_entropy_of_Fin (n : Z) (l : list Z) :
  (0 < n)%Z → Forall (λ c, 0 < c < 2 ^ 31)%Z l →
  mem_entropy_of l n
  = Fin (- sumR (map (λ c, IZR c / IZR n * log2 (IZR c / IZR n)) l)).
Proof.
  intros Hn Hl. unfold mem_entropy_of.
  assert (∀ e, foldl (λ e count, entropy_step n e (s32 count)) (Fin e) l
    = Fin (e - sumR (map (λ c, IZR c / IZR n * log2 (IZR c / IZR n)) l))) as Hgen.
  { induction Hl as [|c l Hc Hl IH]; intros e.
    - simpl. f_equal. lra.
    - cbn [foldl]. rewrite s32_small by lia. rewrite entropy_step_Fin by lia.
      rewrite IH. simpl. f_equal. lra. }
  rewrite Hgen. f_equal. lra.
Qed.

Lemma local_entropy_of_Fin (n : Z) (h : gmap Z Z) :
  (0 < n)%Z → map_Forall (λ _ c, 0 < c)%Z h →
  local_entropy_of h n
  = Fin (- sumR (map (λ kc, IZR kc.2 / IZR n * log2 (IZR kc.2 / IZR n))
                     (map_to_list h))).
Proof.
  intros Hn Hh. unfold local_entropy_of. rewrite map_fold_foldr.
  apply map_Forall_to_list in Hh.
  induction Hh as [|[k c] l Hc Hl IH].
  - simpl. f_equal. lra.
  - cbn [foldr uncurry fst snd]. rewrite IH. simpl in Hc.
    rewrite entropy_step_Fin by lia. simpl. f_equal. lra.
Qed.

(** Powers of integers compare as their logarithms do. *)
Lemma ln_pow_lt (x y n k : Z) :
  (0 < x)%Z → (0 < y)%Z → (0 ≤ n)%Z → (0 ≤ k)%Z →
  (x ^ n < y ^ k)%Z →
  IZR n * ln (IZR x) < IZR k * ln (IZR y).
Proof.
  intros Hx Hy Hn Hk Hlt.
  assert (0 < IZR x) by by apply (IZR_lt 0).
  assert (0 < IZR y) by by apply (IZR_lt 0).
  rewrite <- (Z2Nat.id n), <- (Z2Nat.id k) in * by done.
  rewrite <- !INR_IZR_INZ, <- !ln_pow by done.
  apply ln_increasing; [by apply pow_lt|].
  rewrite !pow_IZR. by apply IZR_lt.
Qed.

(** 339/146 < log2 5 < 1493/643, from 2^339 < 5^146 and 5^643 < 2^1493. *)
Lemma log2_5_bounds : 339 / 146 < log2 5 < 1493 / 643.
Proof.
  pose proof ln_2_pos as H2. unfold log2.
  assert (Hlo : 339 * ln 2 < 146 * ln 5) by by apply ln_pow_lt.
  assert (Hhi : 643 * ln 5 < 1493 * ln 2) by by apply ln_pow_lt.
  assert (E : ln 5 / ln 2 * ln 2 = ln 5) by (field; lra).
  split; apply (Rmult_lt_reg_r (ln 2)); try done; rewrite E; lra.
Qed.

End entropy.

(** ** Memory footprint and entropy *)

Section memory.
Import FP Spec AIWC Scenario.

Lemma remove_dups_length_le {A} `{EqDecision A} (l : list A) :
  (length (remove_dups l) ≤ length l)%nat.
Proof.
  induction l as [|x l IH]; simpl; [done|].
  destruct (decide_rel elem_of x l); simpl; lia.
Qed.

Lemma local_address_count_fmap nskip ops :
  local_address_count nskip ops
  = foldl (λ h x, map_incr32 x h) ∅ ((λ a, a ≫ nskip) <$> ops).
Proof. unfold local_address_count. by rewrite foldl_fmap. Qed.

Lemma local_address_count_0 ops :
  local_address_count 0 ops = foldl (λ h x, map_incr32 x h) ∅ ops.
Proof.
  rewrite local_address_count_fmap. f_equal.
  rewrite <- (list_fmap_id ops) at 2. apply list_fmap_ext.
  intros _ x _. apply Z.shiftr_0_r.
Qed.

(** The counts of the address histogram, in the order of the map. *)
Lemma histogram_counts ops :
  Z.of_nat (length ops) < 2 ^ 32 →
  (map_to_list (local_address_count 0 ops)).*2
  ≡ₚ map (λ x, occurrences x ops) (remove_dups ops).
Proof.
  intros Hlen. rewrite local_address_count_0, histogram_to_list by done.
  by rewrite <- list_fmap_compose.
Qed.

Lemma sorted_count_Permutation a :
  Z.of_nat (length (m_memoryOps a)) < 2 ^ 32 →
  sorted_count a
  ≡ₚ map (λ x, occurrences x (m_memoryOps a)) (remove_dups (m_memoryOps a)).
Proof.
  intros Hlen. unfold sorted_count.
  by rewrite sorted_desc_Permutation, histogram_counts.
Qed.

Lemma sorted_count_bounds a :
  Z.of_nat (length (m_memoryOps a)) < 2 ^ 32 →
  Forall (λ c, 0 < c ≤ Z.of_nat (length (m_memoryOps a))) (sorted_count a).
Proof.
  intros Hlen. rewrite sorted_count_Permutation by done.
  apply Forall_fmap, Forall_forall. intros x Hx. simpl.
  rewrite elem_of_remove_dups, <- occurrences_pos in Hx.
  pose proof (occurrences_bounds x (m_memoryOps a)). lia.
Qed.

Lemma memory_access_count_length a :
  Z.of_nat (length (m_memoryOps a)) < 2 ^ 32 →
  memory_access_count a = Z.of_nat (length (m_memoryOps a)).
Proof.
  intros Hlen. unfold memory_access_count.
  rewrite foldl_u64_sum_0, (sumZ_Permutation _ _ (sorted_count_Permutation a Hlen)).
  rewrite sumZ_occurrences_remove_dups. apply u64_small. lia.
Qed.

Lemma total_memory_footprint_distinct a :
  Z.of_nat (length (m_memoryOps a)) < 2 ^ 32 →
  total_memory_footprint a = Z.of_nat (length (remove_dups (m_memoryOps a))).
Proof.
  intros Hlen. unfold total_memory_footprint. f_equal.
  rewrite <- length_map_to_list, <- (length_fmap snd).
  by rewrite histogram_counts, length_fmap.
Qed.

Lemma unique_memory_addresses_smallest a :
  Z.of_nat (length (m_memoryOps a)) < 2 ^ 32 →
  ∃ n, unique_memory_addresses a = Some n
    ∧ smallest_cover (sorted_count a) (significant_memory_access_count a) n.
Proof.
  intros Hlen. unfold unique_memory_addresses, significant_memory_access_count.
  pose proof (memory_access_count_length a Hlen) as Hcount.
  pose proof (sorted_count_bounds a Hlen) as Hb.
  assert (Hsum : sumZ (sorted_count a) = Z.of_nat (length (m_memoryOps a))).
  { rewrite (sumZ_Permutation _ _ (sorted_count_Permutation a Hlen)).
    apply sumZ_occurrences_remove_dups. }
  assert (Hn : Z.of_nat (length (sorted_count a)) ≤ Z.of_nat (length (m_memoryOps a))).
  { rewrite (sorted_count_Permutation a Hlen), length_fmap.
    pose proof (remove_dups_length_le (m_memoryOps a)) as Hr. lia. }
  destruct (ceil_090_spec (memory_access_count a)) as [_ Hceil]; [lia|].
  destruct (cover_spec (sorted_count a)
              (ceil_090 (memory_access_count a)) 0 0)
    as (k & Hk & Hkl & Hreach & Hmin); try lia.
  { eapply Forall_impl; [exact Hb|]. simpl. lia. }
  exists (Z.of_nat k). split; [by rewrite Hk|].
  unfold smallest_cover. rewrite Nat2Z.id. repeat split; try lia.
  intros j Hj. specialize (Hmin j). lia.
Qed.

Lemma mem_entropy_spec a :
  Z.of_nat (length (m_memoryOps a)) < 2 ^ 31 →
  mem_entropy a = Fin (entropy (m_memoryOps a) (memory_access_count a)).
Proof.
  intros Hlen.
  assert (Hlen' : Z.of_nat (length (m_memoryOps a)) < 2 ^ 32) by lia.
  unfold mem_entropy, entropy.
  pose proof (sorted_count_Permutation a Hlen') as Hperm.
  pose proof (sorted_count_bounds a Hlen') as Hb.
  rewrite (memory_access_count_length a Hlen') in *.
  destruct (decide (m_memoryOps a = [])) as [Hops|Hops].
  { rewrite Hops in *. apply Permutation_nil_r in Hperm. rewrite Hperm. simpl.
    unfold mem_entropy_of. simpl. f_equal. lra. }
  assert (0 < Z.of_nat (length (m_memoryOps a))).
  { destruct (m_memoryOps a); [done|]. simpl. lia. }
  rewrite mem_entropy_of_Fin.
  - f_equal. f_equal.
    rewrite (sumR_Permutation _ _ (fmap_Permutation _ _ _ Hperm)).
    by rewrite <- list_fmap_compose.
  - done.
  - eapply Forall_impl; [exact Hb|]. simpl. lia.
Qed.

(** Every field of a report comes from the local variable of its name. *)
Lemma kernelEnd_inv a r a' :
  kernelEnd a = Some (r, a') →
  ∃ major i1 i2 i3 p1 p2 p3 s1 s2 um ub,
    major_operations a = Some major
    ∧ itb_min a = Some i1 ∧ itb_max a = Some i2 ∧ itb_median a = Some i3
    ∧ ipt_min a = Some p1 ∧ ipt_max a = Some p2 ∧ ipt_median a = Some p3
    ∧ simd_min a = Some s1 ∧ simd_max a = Some s2
    ∧ unique_memory_addresses a = Some um
    ∧ unique_branch_addresses a = Some ub
    ∧ kernelEnd a = Some (r, reset a)
    ∧ a' = reset a
    ∧ r = mkReport major (total_instruction_count a)
            (freedom_to_reorder a) (resource_pressure a) (m_threads_invoked a)
            (simd_sum a) (m_barriers_hit a) i1 i2 (of_Z i3)
            p1 p2 p3 s1 s2 (simd_mean a) (simd_stdev a)
            (granularity a) (barriers_per_instruction a)
            (instructions_per_operand a)
            (memory_access_count a) (total_memory_footprint a) um
            (mem_entropy a) (loc_entropy a)
            (m_global_memory_access a) (m_local_memory_access a)
            (m_constant_memory_access a)
            (relative_usage a (m_local_memory_access a))
            (relative_usage a (m_constant_memory_access a))
            (Z.of_nat (length (sorted_branch_ops a))) ub
            (yokota_entropy (branch_loop (m_branchOps a)))
            (yokota_entropy_per_workload (branch_loop (m_branchOps a)))
            (average_linear (branch_loop (m_branchOps a))).
Proof.
  intros E. pose proof E as E'. unfold kernelEnd in E.
  destruct (major_operations a) as [major|]; cbn in E; [|done].
  destruct (itb_min a) as [i1|]; cbn in E; [|done].
  destruct (itb_max a) as [i2|]; cbn in E; [|done].
  destruct (itb_median a) as [i3|]; cbn in E; [|done].
  destruct (ipt_min a) as [p1|]; cbn in E; [|done].
  destruct (ipt_max a) as [p2|]; cbn in E; [|done].
  destruct (ipt_median a) as [p3|]; cbn in E; [|done].
  destruct (simd_min a) as [s1|]; cbn in E; [|done].
  destruct (simd_max a) as [s2|]; cbn in E; [|done].
  destruct (unique_memory_addresses a) as [um|]; cbn in E; [|done].
  destruct (unique_branch_addresses a) as [ub|]; cbn in E; [|done].
  injection E as <- <-.
  exists major, i1, i2, i3, p1, p2, p3, s1, s2, um, ub.
  repeat split; exact E'.
Qed.

(** The memory fields of a report. *)
Lemma kernelEnd_memory a r a' :
  kernelEnd a = Some (r, a') →
  rep_total_memory_footprint r = total_memory_footprint a
  ∧ rep_memory_access_count r = memory_access_count a
  ∧ Some (rep_unique_memory_addresses r) = unique_memory_addresses a
  ∧ rep_mem_entropy r = mem_entropy a.
Proof.
  intros (major & i1 & i2 & i3 & p1 & p2 & p3 & s1 & s2 & um & ub & Hend)%kernelEnd_inv.
  destruct Hend as (E1 & E2 & E3 & E4 & E5 & E6 & E7 & E8 & E9 & Eum & Eub & Hk & -> & ->).
  by rewrite Eum.
Qed.

(** The branch-entropy fields of a report. *)
Lemma kernelEnd_branch a r a' :
  kernelEnd a = Some (r, a') →
  rep_yokota_entropy r = yokota_entropy (branch_loop (m_branchOps a))
  ∧ rep_yokota_entropy_per_workload r
    = yokota_entropy_per_workload (branch_loop (m_branchOps a))
  ∧ rep_average_entropy r = average_linear (branch_loop (m_branchOps a)).
Proof.
  intros (major & i1 & i2 & i3 & p1 & p2 & p3 & s1 & s2 & um & ub & Hend)%kernelEnd_inv.
  by destruct Hend as (E1 & E2 & E3 & E4 & E5 & E6 & E7 & E8 & E9 & Eum & Eub & Hk & -> & ->).
Qed.

End memory.

Section memory_claim.
Import FP Spec AIWC Scenario.

(** Four accesses to one address and one to another: the entropy is
    [log2 5 - 8/5]. *)
Lemma four_and_one_entropy :
  ∃ e, mem_entropy (with_memoryOps [4096; 4096; 4096; 4096; 8192]) = Fin e
    ∧ (Rabs (e - 7219 / 10000) < 1 / 10000)%R.
Proof.
  unfold mem_entropy.
  replace (sorted_count _) with [4; 1] by reflexivity.
  replace (memory_access_count _) with 5 by reflexivity.
  rewrite mem_entropy_of_Fin by (repeat constructor; lia).
  eexists. split; [reflexivity|]. cbn [map sumR foldr].
  pose proof log2_5_bounds as H5. pose proof ln_2_pos as H2.
  unfold log2 in *.
  assert (ln (4 / 5) = 2 * ln 2 - ln 5)%R as ->.
  { unfold Rdiv. rewrite ln_mult, ln_Rinv by lra.
    replace 4%R with (2 * 2)%R by lra. rewrite ln_mult by lra. lra. }
  assert (ln (1 / 5) = - ln 5)%R as ->.
  { unfold Rdiv. rewrite Rmult_1_l. apply ln_Rinv. lra. }
  replace (- (4 / 5 * ((2 * ln 2 - ln 5) / ln 2) + (1 / 5 * (- ln 5 / ln 2) + 0)))%R
    with (ln 5 / ln 2 - 8 / 5)%R by (field; lra).
  apply Rabs_def1; lra.
Qed.

(** C7, as the code has it.  For every aggregate with fewer than [2^31]
    memory operations: the total footprint is the number of distinct
    addresses, the access count is the length of [memoryOps], the sorted
    counts are the histogram's counts in descending order, the threshold is
    the ceiling of nine tenths of the access count, the 90% footprint is
    the smallest prefix of the sorted counts whose sum reaches the
    threshold, the global entropy is minus the sum of [p log2 p] over the
    histogram, and a report carries these values.  Four accesses to 0x1000
    and one to 0x2000 give footprint 2, access count 5, threshold 5, hence
    90% footprint 2, and entropy within 0.0001 of 0.7219. *)
Theorem C7_memory_footprint_and_entropy (a : Aggregate) :
  Z.of_nat (length (m_memoryOps a)) < 2 ^ 31 →
  total_memory_footprint a = Z.of_nat (length (remove_dups (m_memoryOps a)))
  ∧ memory_access_count a = Z.of_nat (length (m_memoryOps a))
  ∧ descending_sort_of
      (map (λ x, occurrences x (m_memoryOps a)) (remove_dups (m_memoryOps a)))
      (sorted_count a)
  ∧ ceiling_of_nine_tenths (memory_access_count a)
      (significant_memory_access_count a)
  ∧ (∃ n, unique_memory_addresses a = Some n
       ∧ smallest_cover (sorted_count a) (significant_memory_access_count a) n)
  ∧ mem_entropy a = Fin (entropy (m_memoryOps a) (memory_access_count a))
  ∧ (∀ r a', kernelEnd a = Some (r, a') →
       rep_total_memory_footprint r = total_memory_footprint a
       ∧ rep_memory_access_count r = memory_access_count a
       ∧ Some (rep_unique_memory_addresses r) = unique_memory_addresses a
       ∧ rep_mem_entropy r = mem_entropy a)
  ∧ (total_memory_footprint (with_memoryOps [4096; 4096; 4096; 4096; 8192]) = 2
     ∧ memory_access_count (with_memoryOps [4096; 4096; 4096; 4096; 8192]) = 5
     ∧ significant_memory_access_count
         (with_memoryOps [4096; 4096; 4096; 4096; 8192]) = 5
     ∧ unique_memory_addresses
         (with_memoryOps [4096; 4096; 4096; 4096; 8192]) = Some 2
     ∧ ∃ e, mem_entropy (with_memoryOps [4096; 4096; 4096; 4096; 8192]) = Fin e
         ∧ (Rabs (e - 7219 / 10000) < 1 / 10000)%R).
Proof.
  intros Hlen.
  assert (Hlen' : Z.of_nat (length (m_memoryOps a)) < 2 ^ 32) by lia.
  split; [by apply total_memory_footprint_distinct|].
  split; [by apply memory_access_count_length|].
  split; [split; [by apply sorted_count_Permutation|apply sorted_desc_Sorted]|].
  split.
  { apply ceil_090_spec. rewrite memory_access_count_length by done. lia. }
  split; [by apply unique_memory_addresses_smallest|].
  split; [by apply mem_entropy_spec|].
  split.
  { intros r a' Hend. by apply (kernelEnd_memory a r a'). }
  do 4 (split; [reflexivity|]). apply four_and_one_entropy.
Qed.

Lemma C7_memory_footprint_and_entropy_witness :
  total_memory_footprint (with_memoryOps [4096; 4096; 4096; 4096; 8192])
  = Z.of_nat (length (remove_dups [4096; 4096; 4096; 4096; 8192]))
  ∧ unique_memory_addresses (with_memoryOps [4096; 4096; 4096; 4096; 8192])
    = Some 2.
Proof.
  pose proof (C7_memory_footprint_and_entropy
                (with_memoryOps [4096; 4096; 4096; 4096; 8192]) eq_refl) as H.
  split; [apply H|reflexivity].
Defined.

(** C7 as stated gives 90% footprint 1 for four accesses to 0x1000 and one
    to 0x2000.  The threshold is [ceil(0.9 * 5) = 5]; the first address
    covers 4 accesses only, so the loop takes the second one as well. *)
Lemma C7_ninety_percent_footprint_is_not_one :
  significant_memory_access_count
    (with_memoryOps [4096; 4096; 4096; 4096; 8192]) = 5
  ∧ sorted_count (with_memoryOps [4096; 4096; 4096; 4096; 8192]) = [4; 1]
  ∧ unique_memory_addresses (with_memoryOps [4096; 4096; 4096; 4096; 8192])
    = Some 2
  ∧ unique_memory_addresses (with_memoryOps [4096; 4096; 4096; 4096; 8192])
    ≠ Some 1.
Proof. by repeat split. Qed.

End memory_claim.

(** ** Branch entropy *)

Section branch.
Import FP Spec AIWC.
#[local] Open Scope R_scope.

(** The string that the loop builds character by character is the string
    of the specification, and [std::count] counts what the specification
    counts. *)
Lemma pattern_of_digits w : pattern_of w = digits w.
Proof.
  unfold digits. induction w as [|b w IH]; [reflexivity|].
  cbn [pattern_of foldr fmap list_fmap String.string_of_list_ascii].
  fold (pattern_of w). rewrite IH. by destruct b.
Qed.

Lemma count_char_occurrences c pattern :
  count_char c pattern = occurrences c (String.list_ascii_of_string pattern).
Proof.
  induction pattern as [|c' rest IH]; [reflexivity|].
  cbn [count_char String.list_ascii_of_string]. rewrite occurrences_cons, IH.
  destruct (Ascii.eqb_spec c' c) as [->|Hne].
  - by rewrite decide_True.
  - by rewrite decide_False.
Qed.

Lemma taken_count_char pattern : taken pattern = count_char "1" pattern.
Proof. unfold taken. by rewrite count_char_occurrences. Qed.

Lemma not_taken_count_char pattern :
  not_taken pattern = count_char "0" pattern.
Proof. unfold not_taken. by rewrite count_char_occurrences. Qed.

(** The loop of [kernelEnd] visits the positions of the specification and
    reads at each the window of the specification. *)
Lemma windows_window bs :
  windows bs = window bs <$> seq 0 (length bs - (m - 1)).
Proof.
  unfold windows, window, window_length, m.
  replace (length bs + 1 - 16)%nat with (length bs - (16 - 1))%nat by lia.
  apply list_fmap_ext. intros _ i _. by rewrite pattern_of_digits.
Qed.

Lemma count_char_pattern_of w :
  (0 ≤ taken (pattern_of w) ∧ 0 ≤ count_char "0" (pattern_of w)
   ∧ count_char "0" (pattern_of w) + taken (pattern_of w)
     = Z.of_nat (length w))%Z.
Proof.
  rewrite taken_count_char.
  induction w as [|[] w IH]; simpl; [lia|..];
    change (Ascii.eqb "1" "1") with true; change (Ascii.eqb "0" "0") with true;
    change (Ascii.eqb "1" "0") with false; change (Ascii.eqb "0" "1") with false;
    lia.
Qed.

Lemma length_windows bs : length (windows bs) = (length bs - 15)%nat.
Proof. rewrite windows_window. by rewrite length_fmap, length_seq. Qed.

Lemma windows_sixteen bs pattern : pattern ∈ windows bs → sixteen pattern.
Proof.
  rewrite windows_window. intros (i & -> & Hi)%list_elem_of_fmap.
  apply elem_of_seq in Hi. unfold window, sixteen.
  pose proof (count_char_pattern_of (take m (drop i bs))) as Hc.
  rewrite length_take, length_drop in Hc. rewrite not_taken_count_char.
  unfold m in *. lia.
Qed.

Lemma history_windows bs :
  history bs = foldl (λ h x, map_incr32 x h) ∅ (windows bs).
Proof. rewrite windows_window. unfold history. by rewrite foldl_fmap. Qed.

(** The entries of [H] are the distinct patterns with their counts. *)
Lemma history_to_list bs :
  (m ≤ length bs)%nat → (Z.of_nat (length bs) < 2 ^ 32)%Z →
  map_to_list (history bs) ≡ₚ line_patterns bs.
Proof.
  intros Hm Hlen. unfold line_patterns. change window_length with m. rewrite decide_False by lia.
  rewrite history_windows. apply histogram_to_list.
  rewrite length_windows. lia.
Qed.

Lemma line_patterns_sixteen bs :
  Forall (λ pc, sixteen pc.1 ∧ (0 < pc.2)%Z) (line_patterns bs).
Proof.
  unfold line_patterns. change window_length with m. destruct (decide (length bs < m)%nat); [done|].
  apply Forall_fmap, Forall_forall. intros pattern Hp. simpl.
  rewrite elem_of_remove_dups in Hp. split; [by eapply windows_sixteen|].
  by apply occurrences_pos.
Qed.

Lemma window_count_line bs :
  window_count (line_patterns bs)
  = if decide (length bs < m)%nat then 0%Z else (Z.of_nat (length bs) - 15)%Z.
Proof.
  unfold window_count, line_patterns. change window_length with m.
  destruct (decide (length bs < m)%nat); [done|].
  rewrite <- list_fmap_compose.
  transitivity (Z.of_nat (length (windows bs)));
    [apply (sumZ_occurrences_remove_dups (windows bs))|].
  rewrite length_windows. unfold m in *. lia.
Qed.

Lemma sumR_cons x l : sumR (x :: l) = x + sumR l.
Proof. done. Qed.

Lemma sumZ_cons x l : sumZ (x :: l) = (x + sumZ l)%Z.
Proof. done. Qed.

(** The sums are sums: they split over [++] and forget the order. *)
Lemma yokota_app ps ps' : yokota (ps ++ ps') = yokota ps + yokota ps'.
Proof.
  unfold yokota. rewrite map_app.
  induction ps as [|? ps IH]; simpl in *; lra.
Qed.

Lemma yokota_per_workload_app ps ps' :
  yokota_per_workload (ps ++ ps')
  = yokota_per_workload ps + yokota_per_workload ps'.
Proof.
  unfold yokota_per_workload. rewrite map_app.
  induction ps as [|? ps IH]; simpl in *; lra.
Qed.

Lemma linear_numerator_app ps ps' :
  linear_numerator (ps ++ ps') = linear_numerator ps + linear_numerator ps'.
Proof.
  unfold linear_numerator. rewrite map_app.
  induction ps as [|? ps IH]; simpl in *; lra.
Qed.

Lemma window_count_app ps ps' :
  window_count (ps ++ ps') = (window_count ps + window_count ps')%Z.
Proof. unfold window_count. by rewrite map_app, sumZ_app. Qed.

Lemma yokota_Permutation ps ps' : ps ≡ₚ ps' → yokota ps = yokota ps'.
Proof.
  intros E. unfold yokota. f_equal. apply sumR_Permutation.
  by apply fmap_Permutation.
Qed.

Lemma yokota_per_workload_Permutation ps ps' :
  ps ≡ₚ ps' → yokota_per_workload ps = yokota_per_workload ps'.
Proof.
  intros E. unfold yokota_per_workload. f_equal. apply sumR_Permutation.
  by apply fmap_Permutation.
Qed.

Lemma linear_numerator_Permutation ps ps' :
  ps ≡ₚ ps' → linear_numerator ps = linear_numerator ps'.
Proof.
  intros E. unfold linear_numerator. apply sumR_Permutation.
  by apply fmap_Permutation.
Qed.

Lemma window_count_Permutation ps ps' :
  ps ≡ₚ ps' → window_count ps = window_count ps'.
Proof.
  intros E. unfold window_count. apply sumZ_Permutation.
  by apply fmap_Permutation.
Qed.

Lemma u32_add_idemp a b : u32 (u32 a + b) = u32 (a + b).
Proof. unfold u32. by rewrite Zplus_mod_idemp_l. Qed.

Lemma probability_of_taken_Fin pattern :
  sixteen pattern → probability_of_taken pattern = Fin (taken_rate pattern).
Proof.
  intros (H1 & H0 & Hsum). unfold probability_of_taken, taken_rate.
  rewrite <- taken_count_char, <- not_taken_count_char.
  rewrite (u32_small (taken pattern)), (u32_small (not_taken pattern)) by lia.
  rewrite Hsum, u32_small by lia. change (Z.of_nat window_length) with 16%Z.
  by rewrite ddiv_of_Z.
Qed.

Lemma taken_rate_bounds pattern :
  sixteen pattern → 0 <= taken_rate pattern <= 1.
Proof.
  intros (H1 & H0 & Hsum). unfold taken_rate. change (Z.of_nat window_length) with 16%Z.
  assert (0 <= IZR (taken pattern) <= 16) by (split; apply IZR_le; lia).
  lra.
Qed.

Lemma taken_rate_zero pattern :
  taken_rate pattern = 0 ↔ taken pattern = 0%Z.
Proof.
  unfold taken_rate. change (Z.of_nat window_length) with 16%Z. split.
  - intros E. apply eq_IZR. lra.
  - intros ->. lra.
Qed.

Lemma zero_R_zero : zero_R 0 = true.
Proof. by rewrite zero_R_IZR. Qed.

Lemma linear_branch_entropy_Fin pattern :
  linear_branch_entropy (Fin (taken_rate pattern)) = Fin (linear pattern).
Proof.
  unfold linear_branch_entropy, linear, dmin, Rmin. cbn.
  destruct (Rlt_dec _ _), (Rle_dec _ _); cbn; f_equal; lra.
Qed.

(** What one history pattern adds to the sums. *)
Lemma pattern_step_Fin pattern c A Y W n :
  sixteen pattern →
  pattern_step pattern c (mkBranchEntropy (Fin A) (Fin Y) (Fin W) n)
  = mkBranchEntropy (Fin (A + IZR c * linear pattern))
      (Fin (Y - IZR c * plogp pattern))
      (Fin (W - plogp pattern))
      (u32 (n + c)).
Proof.
  intros Hp. unfold pattern_step.
  rewrite probability_of_taken_Fin by done.
  rewrite linear_branch_entropy_Fin. cbn [average_entropy yokota_entropy
    yokota_entropy_per_workload N dadd dmul of_Z dnonzero].
  unfold plogp. pose proof (taken_rate_bounds pattern Hp).
  destruct (decide (taken pattern = 0%Z)) as [E|E].
  - rewrite (proj2 (taken_rate_zero pattern) E).
    rewrite zero_R_zero. cbn.
    f_equal; f_equal; lra.
  - assert (taken_rate pattern ≠ 0) by by rewrite taken_rate_zero.
    rewrite zero_R_false by done. cbn [negb].
    rewrite dlog2_Fin by lra. cbn. f_equal; f_equal; lra.
Qed.

Lemma foldr_pattern_step ps : ∀ A Y W n,
  Forall (λ pc, sixteen pc.1) ps →
  (0 ≤ n < 2 ^ 32)%Z →
  foldr (uncurry pattern_step) (mkBranchEntropy (Fin A) (Fin Y) (Fin W) n) ps
  = mkBranchEntropy (Fin (A + linear_numerator ps)) (Fin (Y + yokota ps))
      (Fin (W + yokota_per_workload ps)) (u32 (n + window_count ps)).
Proof.
  intros A Y W n Hps Hn. induction Hps as [|[pattern c] ps Hp Hps IH].
  - unfold linear_numerator, yokota, yokota_per_workload, window_count. cbn.
    rewrite Z.add_0_r, u32_small by done. f_equal; f_equal; lra.
  - cbn [foldr uncurry]. rewrite IH. simpl in Hp.
    rewrite pattern_step_Fin by done.
    unfold linear_numerator, yokota, yokota_per_workload, window_count.
    cbn [map fst snd]. rewrite !sumR_cons, sumZ_cons, u32_add_idemp.
    f_equal; f_equal; try lra. lia.
Qed.

(** What one branch adds to the sums. *)
Lemma branch_step_Fin line bs A Y W n :
  (Z.of_nat (length bs) < 2 ^ 32)%Z → (0 ≤ n < 2 ^ 32)%Z →
  branch_step line bs (mkBranchEntropy (Fin A) (Fin Y) (Fin W) n)
  = mkBranchEntropy (Fin (A + linear_numerator (line_patterns bs)))
      (Fin (Y + yokota (line_patterns bs)))
      (Fin (W + yokota_per_workload (line_patterns bs)))
      (u32 (n + window_count (line_patterns bs))).
Proof.
  intros Hlen Hn. unfold branch_step.
  destruct (decide (length bs < m)%nat) as [Hshort|Hlong].
  - rewrite bool_decide_eq_true_2 by done.
    unfold line_patterns. change window_length with m. rewrite decide_True by done.
    unfold linear_numerator, yokota, yokota_per_workload, window_count. cbn.
    rewrite Z.add_0_r, u32_small by done. f_equal; f_equal; lra.
  - rewrite bool_decide_eq_false_2 by done.
    rewrite map_fold_foldr.
    pose proof (history_to_list bs ltac:(lia) Hlen) as Hperm.
    rewrite foldr_pattern_step; [|rewrite Hperm|done].
    + by rewrite (linear_numerator_Permutation _ _ Hperm),
        (yokota_Permutation _ _ Hperm),
        (yokota_per_workload_Permutation _ _ Hperm),
        (window_count_Permutation _ _ Hperm).
    + eapply Forall_impl; [apply line_patterns_sixteen|]. by intros ? [??].
Qed.

Lemma foldr_branch_step (lines : list (Z * list bool)) : ∀ A Y W n,
  Forall (λ branch, Z.of_nat (length branch.2) < 2 ^ 32)%Z lines →
  (0 ≤ n < 2 ^ 32)%Z →
  foldr (uncurry branch_step) (mkBranchEntropy (Fin A) (Fin Y) (Fin W) n) lines
  = mkBranchEntropy
      (Fin (A + linear_numerator (lines ≫= λ branch, line_patterns branch.2)))
      (Fin (Y + yokota (lines ≫= λ branch, line_patterns branch.2)))
      (Fin (W + yokota_per_workload (lines ≫= λ branch, line_patterns branch.2)))
      (u32 (n + window_count (lines ≫= λ branch, line_patterns branch.2))).
Proof.
  intros A Y W n Hlines Hn. induction Hlines as [|[line bs] lines Hb Hl IH].
  - unfold linear_numerator, yokota, yokota_per_workload, window_count. cbn.
    rewrite Z.add_0_r, u32_small by done. f_equal; f_equal; lra.
  - cbn [foldr uncurry]. rewrite IH. simpl in Hb.
    rewrite branch_step_Fin; [|done|apply Z.mod_pos_bound; lia].
    rewrite bind_cons. cbn [snd].
    rewrite linear_numerator_app, yokota_app, yokota_per_workload_app,
      window_count_app, u32_add_idemp.
    f_equal; f_equal; try lra. lia.
Qed.

End branch.

Section branch_claims.
Import FP Spec AIWC Plugin Scenario.
#[local] Open Scope R_scope.

Lemma sumZ_bound l (B : Z) :
  Forall (λ x, 0 ≤ x)%Z l → (sumZ l < B)%Z → Forall (λ x, x < B)%Z l.
Proof.
  induction 1 as [|x l Hx Hl IH]; intros Hsum; [done|].
  rewrite sumZ_cons in Hsum. pose proof (sumZ_nonneg l Hl).
  constructor; [lia|]. apply IH. lia.
Qed.

Lemma outcomes_bound branches :
  (outcomes branches < 2 ^ 32)%Z →
  Forall (λ branch, Z.of_nat (length branch.2) < 2 ^ 32)%Z (map_to_list branches).
Proof.
  unfold outcomes. intros Hsum.
  apply (sumZ_bound _ _) in Hsum.
  - by rewrite Forall_fmap in Hsum.
  - apply Forall_fmap, Forall_forall. intros; simpl; lia.
Qed.

Lemma all_patterns_sixteen branches :
  Forall (λ pc, sixteen pc.1 ∧ (0 < pc.2)%Z) (all_patterns branches).
Proof.
  unfold all_patterns. apply Forall_bind, Forall_forall.
  intros branch _. apply line_patterns_sixteen.
Qed.

Lemma window_count_lines (lines : list (Z * list bool)) :
  window_count (lines ≫= λ branch, line_patterns branch.2)
  = sumZ (map (λ branch, if decide (length branch.2 < m)%nat then 0
                         else Z.of_nat (length branch.2) - 15)%Z lines).
Proof.
  induction lines as [|[line bs] lines IH]; [done|].
  rewrite bind_cons, window_count_app, IH, window_count_line. done.
Qed.

Lemma window_count_le_outcomes branches :
  (0 ≤ window_count (all_patterns branches) ≤ outcomes branches)%Z.
Proof.
  unfold all_patterns, outcomes. rewrite window_count_lines.
  induction (map_to_list branches) as [|[line bs] lines IH]; [done|].
  cbn [map snd]. rewrite !sumZ_cons. destruct (decide _); unfold m in *; lia.
Qed.

Lemma window_count_zero ps :
  Forall (λ pc : string * Z, 0 < pc.2)%Z ps → window_count ps = 0%Z → ps = [].
Proof.
  intros Hps. destruct Hps as [|[p c] ps Hc Hps]; [done|].
  unfold window_count. cbn [map snd]. rewrite sumZ_cons. simpl in Hc.
  assert (0 ≤ sumZ (map snd ps))%Z.
  { apply sumZ_nonneg, Forall_fmap. eapply Forall_impl; [exact Hps|].
    simpl. lia. }
  lia.
Qed.

(** The loop over the branches computes the sums of the specification. *)
Lemma branch_loop_spec branches :
  (outcomes branches < 2 ^ 32)%Z →
  branch_loop branches
  = mkBranchEntropy (Fin (linear_numerator (all_patterns branches)))
      (Fin (yokota (all_patterns branches)))
      (Fin (yokota_per_workload (all_patterns branches)))
      (window_count (all_patterns branches)).
Proof.
  intros Hb. unfold branch_loop. rewrite map_fold_foldr.
  rewrite foldr_branch_step; [|by apply outcomes_bound|done].
  fold (all_patterns branches).
  pose proof (window_count_le_outcomes branches).
  rewrite Z.add_0_l, u32_small by lia. f_equal; f_equal; lra.
Qed.

Lemma average_linear_spec branches :
  (outcomes branches < 2 ^ 32)%Z →
  AIWC.average_linear (branch_loop branches)
  = Fin (Spec.average_linear (all_patterns branches)).
Proof.
  intros Hb. rewrite branch_loop_spec by done.
  unfold AIWC.average_linear, Spec.average_linear.
  cbn [average_entropy N ddiv of_Z]. rewrite zero_R_IZR.
  destruct (decide (window_count (all_patterns branches) = 0%Z)) as [E|E].
  - rewrite bool_decide_eq_true_2 by done.
    rewrite (window_count_zero (all_patterns branches)); [|by eapply Forall_impl;
      [apply all_patterns_sixteen|intros ? [??]]|done].
    unfold linear_numerator. cbn [map sumR foldr]. by rewrite zero_R_zero.
  - by rewrite bool_decide_eq_false_2 by done.
Qed.





(** The branch entropies of a report are the sums of the specification. *)
Lemma report_yokota a :
  (outcomes (m_branchOps a) < 2 ^ 32)%Z →
  ∀ r a', kernelEnd a = Some (r, a') →
    rep_yokota_entropy r = Fin (yokota (all_patterns (m_branchOps a)))
    ∧ rep_yokota_entropy_per_workload r
      = Fin (yokota_per_workload (all_patterns (m_branchOps a))).
Proof.
  intros Hb r a' Hend. apply (kernelEnd_branch a r a') in Hend.
  destruct Hend as (H1 & H2 & H3).
  by rewrite H1, H2, branch_loop_spec by done.
Qed.

(** [2 min(p, 1 - p)] is a whole number of eighths, at most eight. *)
Lemma linear_eighths pattern :
  sixteen pattern →
  ∃ j : Z, (0 ≤ j ≤ 8)%Z ∧ linear pattern = IZR j / 8.
Proof.
  intros (H1 & H0 & Hsum). unfold linear, taken_rate.
  change (Z.of_nat window_length) with 16%Z.
  assert (0 <= IZR (taken pattern) <= 16) as Ht
    by (split; apply IZR_le; lia).
  destruct (decide (taken pattern ≤ 8)%Z) as [Hle|Hgt].
  - exists (taken pattern). split; [lia|].
    assert (IZR (taken pattern) <= 8) by (apply IZR_le; lia).
    unfold Rmin. destruct (Rle_dec _ _); lra.
  - exists (16 - taken pattern)%Z. split; [lia|]. rewrite minus_IZR.
    assert (9 <= IZR (taken pattern)) by (apply IZR_le; lia).
    unfold Rmin. destruct (Rle_dec _ _); lra.
Qed.

Lemma linear_numerator_eighths ps :
  Forall (λ pc, sixteen pc.1 ∧ (0 < pc.2)%Z) ps →
  ∃ k : Z, (0 ≤ k ≤ 8 * window_count ps)%Z
           ∧ linear_numerator ps = IZR k / 8.
Proof.
  unfold linear_numerator, window_count.
  induction 1 as [|[pattern c] ps [Hp Hc] Hps (k & Hk & IH)]; cbn [map fst snd].
  { exists 0%Z. split; [cbn; lia|]. unfold sumR. simpl. lra. }
  cbn [fst snd] in Hp, Hc. rewrite sumR_cons, sumZ_cons, IH.
  destruct (linear_eighths pattern Hp) as (j & Hj & ->).
  exists (c * j + k)%Z. split; [nia|].
  rewrite plus_IZR, mult_IZR. lra.
Qed.

Lemma window_count_submseteq qs ps :
  Forall (λ pc : string * Z, sixteen pc.1 ∧ (0 < pc.2)%Z) ps →
  qs ⊆+ ps →
  Forall (λ pc : string * Z, sixteen pc.1 ∧ (0 < pc.2)%Z) qs
  ∧ (window_count qs ≤ window_count ps)%Z.
Proof.
  intros Hps Hsub. split.
  { rewrite Forall_forall in *. intros pc Hin. apply Hps.
    by eapply elem_of_submseteq. }
  apply submseteq_Permutation in Hsub as (rest & Hperm).
  rewrite (window_count_Permutation _ _ Hperm), window_count_app.
  assert (0 ≤ window_count rest)%Z; [|lia].
  rewrite Hperm in Hps. apply Forall_app in Hps as [_ Hrest].
  unfold window_count. apply sumZ_nonneg, Forall_fmap.
  eapply Forall_impl; [exact Hrest|]. intros [??] [_ ?]. simpl in *. lia.
Qed.

(** The numerator of the average when the loop has visited any part of
    the patterns, in any order. *)
Lemma visited_eighths branches visited :
  (outcomes branches < 2 ^ 21)%Z →
  visited ⊆+ all_patterns branches →
  eighths (linear_numerator visited).
Proof.
  intros Hb Hsub.
  destruct (window_count_submseteq _ _ (all_patterns_sixteen branches) Hsub)
    as [Hvisited Hle].
  destruct (linear_numerator_eighths visited Hvisited) as (k & Hk & E).
  pose proof (window_count_le_outcomes branches).
  exists k. split; [lia|exact E].
Qed.



Lemma log2_nonpos p : 0 < p <= 1 → log2 p <= 0.
Proof.
  intros [H0 H1]. pose proof ln_2_pos. unfold log2.
  assert (ln p <= 0).
  { destruct (Rle_lt_or_eq_dec p 1 H1) as [Hlt| ->]; [|rewrite ln_1; lra].
    pose proof (ln_increasing p 1 H0 Hlt). rewrite ln_1 in *. lra. }
  apply Rmult_le_reg_r with (ln 2); [done|].
  unfold Rdiv. rewrite Rmult_assoc, Rinv_l by lra. lra.
Qed.


Lemma plogp_nonpos pattern : sixteen pattern → plogp pattern <= 0.
Proof.
  intros Hp. unfold plogp. destruct (decide _) as [|Hne]; [lra|].
  pose proof (taken_rate_bounds pattern Hp).
  assert (taken_rate pattern ≠ 0) by by rewrite taken_rate_zero.
  pose proof (log2_nonpos (taken_rate pattern)). nra.
Qed.










End branch_claims.


(** ** The group merger *)

Section merge.
Import FP Spec AIWC Plugin.

Lemma foldl_comm_Permutation {A B} (f : B → A → B) (l l' : list A) :
  (∀ b x y, f (f b x) y = f (f b y) x) →
  l ≡ₚ l' → ∀ b, foldl f b l = foldl f b l'.
Proof.
  intros Hf. induction 1 as [|x l l' _ IH|x y l|l l' l'' _ IH1 _ IH2];
    intros b; simpl.
  - done.
  - apply IH.
  - by rewrite Hf.
  - by rewrite IH1.
Qed.

Lemma map_incr32_comm `{Countable K} (x y : K) (h : gmap K Z) :
  map_incr32 y (map_incr32 x h) = map_incr32 x (map_incr32 y h).
Proof.
  destruct (decide (x = y)) as [->|Hne]; [done|].
  unfold map_incr32. rewrite !lookup_insert_ne by done.
  by apply insert_insert_ne.
Qed.

(** The address histograms do not depend on the order of the accesses. *)
Lemma local_address_count_proper nskip ops ops' :
  ops ≡ₚ ops' → local_address_count nskip ops = local_address_count nskip ops'.
Proof.
  intros E. unfold local_address_count.
  apply (foldl_comm_Permutation (λ h address, map_incr32 (address ≫ nskip) h));
    [|done].
  intros h x y. apply map_incr32_comm.
Qed.

Lemma merge_counts_lookup `{Countable K} (w m : gmap K Z) (k : K) :
  merge_counts w m !! k
  = match w !! k with
    | Some v => Some (u64 (default 0 (m !! k) + v))
    | None => m !! k
    end.
Proof.
  revert k. unfold merge_counts.
  apply (map_fold_weak_ind (λ r w', ∀ k, r !! k = match w' !! k with
    | Some v => Some (u64 (default 0 (m !! k) + v))
    | None => m !! k
    end)).
  - intros k. by rewrite lookup_empty.
  - intros i x w' r Hfresh IH k. unfold map_add.
    destruct (decide (i = k)) as [->|Hne].
    + rewrite !lookup_insert_eq, IH, Hfresh. done.
    + rewrite !lookup_insert_ne by done. apply IH.
Qed.

Lemma merge_counts_comm `{Countable K} (w1 w2 m : gmap K Z) :
  merge_counts w2 (merge_counts w1 m) = merge_counts w1 (merge_counts w2 m).
Proof.
  apply map_eq. intros k. rewrite !merge_counts_lookup.
  destruct (w1 !! k), (w2 !! k); simpl; try done.
  rewrite !u64_add_idemp. do 2 f_equal. lia.
Qed.

Lemma foldl_map_push_lookup line bs : ∀ acc line',
  foldl (λ acc' b, map_push line b acc') acc bs !! line'
  = if decide (line' = line) then appended (acc !! line) bs else acc !! line'.
Proof.
  induction bs as [|b bs IH]; intros acc line'; simpl.
  - by destruct (decide _) as [->|].
  - rewrite IH. unfold map_push.
    destruct (decide (line' = line)) as [->|Hne].
    + rewrite lookup_insert_eq. simpl.
      destruct bs; simpl; [done|]. by rewrite <- app_assoc.
    + by rewrite lookup_insert_ne.
Qed.

Lemma merge_branches_lookup (w m : gmap Z (list bool)) (line : Z) :
  merge_branches w m !! line
  = match w !! line with
    | Some bs => appended (m !! line) bs
    | None => m !! line
    end.
Proof.
  revert line. unfold merge_branches.
  apply (map_fold_weak_ind (λ r w', ∀ line, r !! line = match w' !! line with
    | Some bs => appended (m !! line) bs
    | None => m !! line
    end)).
  - intros line. by rewrite lookup_empty.
  - intros i bs w' r Hfresh IH line. rewrite foldl_map_push_lookup.
    destruct (decide (line = i)) as [->|Hne].
    + by rewrite lookup_insert_eq, IH, Hfresh.
    + rewrite lookup_insert_ne by done. apply IH.
Qed.

Lemma appended_Permutation o o' bs :
  option_Forall2 Permutation o o' →
  option_Forall2 Permutation (appended o bs) (appended o' bs).
Proof.
  intros Ho. destruct bs as [|b bs]; [done|]. simpl. constructor.
  destruct Ho as [x y E|]; simpl; [by rewrite E|done].
Qed.

Lemma appended_comm o bs bs' :
  option_Forall2 Permutation
    (appended (appended o bs) bs') (appended (appended o bs') bs).
Proof.
  destruct bs as [|b bs], bs' as [|b' bs']; simpl; try reflexivity.
  constructor. rewrite <- !app_assoc.
  apply Permutation_app_head, (Permutation_app_comm (b :: bs) (b' :: bs')).
Qed.

#[local] Instance same_up_to_order_refl : Reflexive same_up_to_order.
Proof. intros a. unfold same_up_to_order. repeat split; reflexivity. Qed.

#[local] Instance same_up_to_order_trans : Transitive same_up_to_order.
Proof.
  intros a b c. unfold same_up_to_order.
  intros (A1 & A2 & A3 & A4 & A5 & A6 & A7 & A8 & A9 & A10 & A11 & A12 & A13 & A14)
         (B1 & B2 & B3 & B4 & B5 & B6 & B7 & B8 & B9 & B10 & B11 & B12 & B13 & B14).
  repeat split; try (etrans; eassumption).
  intros line. etrans; [apply A3|apply B3].
Qed.

(** Merging a worker keeps two aggregates the same up to order. *)
Lemma merge_into_proper a b st :
  same_up_to_order a b → same_up_to_order (merge_into a st) (merge_into b st).
Proof.
  unfold same_up_to_order.
  intros (A1 & A2 & A3 & A4 & A5 & A6 & A7 & A8 & A9 & A10 & A11 & A12 & A13 & A14).
  cbn. rewrite A1, A2, A4, A5, A6, A7, A8, A9, A10, A11, A12, A13, A14.
  repeat split; try reflexivity.
  intros line. rewrite !merge_branches_lookup.
  destruct (branchOps st !! line); [by apply appended_Permutation|apply A3].
Qed.

(** Merging two workers in either order gives the same aggregate up to
    order. *)
Lemma merge_into_comm a st st' :
  same_up_to_order (merge_into (merge_into a st) st')
                   (merge_into (merge_into a st') st).
Proof.
  unfold same_up_to_order. cbn.
  repeat split;
    try apply merge_counts_comm;
    try (rewrite <- !app_assoc; apply Permutation_app_head, Permutation_app_comm);
    try (rewrite !u32_add_idemp; f_equal; lia).
  intros line. rewrite !merge_branches_lookup.
  destruct (branchOps st !! line), (branchOps st' !! line);
    try reflexivity.
  apply appended_comm.
Qed.

Lemma foldl_merge_into_Permutation ws ws' :
  ws ≡ₚ ws' → ∀ a b, same_up_to_order a b →
  same_up_to_order (foldl merge_into a ws) (foldl merge_into b ws').
Proof.
  induction 1 as [|st ws ws' _ IH|st st' ws|ws ws' ws'' _ IH1 _ IH2];
    intros a b Hab; simpl.
  - done.
  - by apply IH, merge_into_proper.
  - assert (∀ c d, same_up_to_order c d →
              same_up_to_order (foldl merge_into c ws) (foldl merge_into d ws)) as Hws.
    { induction ws as [|w ws IH]; intros c d Hcd; simpl; [done|].
      by apply IH, merge_into_proper. }
    apply Hws. etrans; [apply merge_into_comm|].
    by do 2 apply merge_into_proper.
  - etrans; [by apply IH1|]. by apply IH2.
Qed.

Lemma merge_all_Some a ws :
  merge_all a ws = Some (foldl merge_into a ws) ∨ merge_all a ws = None.
Proof.
  revert a. induction ws as [|st ws IH]; intros a; simpl; [by left|].
  unfold workGroupComplete. destruct (allocated st); simpl; [apply IH|by right].
Qed.

Lemma merge_all_allocated a ws :
  is_Some (merge_all a ws) ↔ Forall (λ st, allocated st = true) ws.
Proof.
  revert a. induction ws as [|st ws IH]; intros a; simpl.
  - split; [done|by eexists].
  - unfold workGroupComplete. destruct (allocated st) eqn:E; simpl.
    + rewrite IH. split; [by constructor|by inversion 1].
    + split; [by intros [??]|]. inversion 1; congruence.
Qed.

(** The order in which the work-groups complete changes the aggregate only
    in the order of its sequences. *)
Lemma merge_all_Permutation a ws ws' a1 :
  ws ≡ₚ ws' → merge_all a ws = Some a1 →
  ∃ a2, merge_all a ws' = Some a2 ∧ same_up_to_order a1 a2.
Proof.
  intros Hperm H1.
  assert (is_Some (merge_all a ws')) as [a2 H2].
  { apply merge_all_allocated. rewrite <- Hperm.
    apply (merge_all_allocated a). by eexists. }
  exists a2. split; [done|].
  destruct (merge_all_Some a ws) as [E|E]; [|congruence].
  destruct (merge_all_Some a ws') as [E'|E']; [|congruence].
  rewrite E in H1. rewrite E' in H2. injection H1 as <-. injection H2 as <-.
  by apply foldl_merge_into_Permutation.
Qed.

End merge.


(** ** The report does not see the order of the sequences *)

Section order.
Import FP Spec AIWC Plugin.

Lemma accumulate_Fin v : accumulate v = Fin (IZR (sumZ v)).
Proof.
  unfold accumulate.
  assert (∀ e, foldl (λ acc x, dadd acc (of_Z x)) (Fin (IZR e)) v
               = Fin (IZR (e + sumZ v))) as Hgen.
  { induction v as [|x v IH]; intros e; simpl.
    - by rewrite Z.add_0_r.
    - unfold of_Z. rewrite <- plus_IZR, IH. do 2 f_equal. lia. }
  apply (Hgen 0).
Qed.

Lemma accumulate_proper v v' : v ≡ₚ v' → accumulate v = accumulate v'.
Proof. intros E. by rewrite !accumulate_Fin, (sumZ_Permutation _ _ E). Qed.

Lemma foldl_min_spec v : ∀ x,
  (foldl Z.min x v = x ∨ foldl Z.min x v ∈ v)
  ∧ foldl Z.min x v ≤ x ∧ Forall (λ y, foldl Z.min x v ≤ y) v.
Proof.
  induction v as [|y v IH]; intros x; simpl.
  - repeat split; [by left|lia|done].
  - destruct (IH (Z.min x y)) as (Hin & Hle & Hall).
    split; [|split; [lia|constructor; [lia|done]]].
    destruct Hin as [->|Hin]; [|right; by right].
    destruct (Z.min_spec x y) as [[_ ->]|[_ ->]]; [by left|right; by left].
Qed.

Lemma foldl_max_spec v : ∀ x,
  (foldl Z.max x v = x ∨ foldl Z.max x v ∈ v)
  ∧ x ≤ foldl Z.max x v ∧ Forall (λ y, y ≤ foldl Z.max x v) v.
Proof.
  induction v as [|y v IH]; intros x; simpl.
  - repeat split; [by left|lia|done].
  - destruct (IH (Z.max x y)) as (Hin & Hle & Hall).
    split; [|split; [lia|constructor; [lia|done]]].
    destruct Hin as [->|Hin]; [|right; by right].
    destruct (Z.max_spec x y) as [[_ ->]|[_ ->]]; [right; by left|by left].
Qed.

(** [*std::min_element] is the least element, when there is one. *)
Lemma min_element_spec v x :
  min_element v = Some x ↔ x ∈ v ∧ Forall (λ y, x ≤ y) v.
Proof.
  destruct v as [|z v]; simpl.
  { split; [done|]. by intros [?%elem_of_nil _]. }
  destruct (foldl_min_spec v z) as (Hin & Hle & Hall).
  split.
  - intros [= <-]. split; [|by constructor].
    destruct Hin as [->|Hin]; [by left|by right].
  - intros [Hx Hxall]. f_equal.
    assert (foldl Z.min z v ∈ z :: v) as Hm.
    { destruct Hin as [->|Hin]; [by left|by right]. }
    rewrite Forall_forall in Hxall. pose proof (Hxall _ Hm).
    assert (Forall (λ y, foldl Z.min z v ≤ y) (z :: v)) as Hall'
      by by constructor.
    rewrite Forall_forall in Hall'. pose proof (Hall' _ Hx). lia.
Qed.

Lemma max_element_spec v x :
  max_element v = Some x ↔ x ∈ v ∧ Forall (λ y, y ≤ x) v.
Proof.
  destruct v as [|z v]; simpl.
  { split; [done|]. by intros [?%elem_of_nil _]. }
  destruct (foldl_max_spec v z) as (Hin & Hle & Hall).
  split.
  - intros [= <-]. split; [|by constructor].
    destruct Hin as [->|Hin]; [by left|by right].
  - intros [Hx Hxall]. f_equal.
    assert (foldl Z.max z v ∈ z :: v) as Hm.
    { destruct Hin as [->|Hin]; [by left|by right]. }
    rewrite Forall_forall in Hxall. pose proof (Hxall _ Hm).
    assert (Forall (λ y, y ≤ foldl Z.max z v) (z :: v)) as Hall'
      by by constructor.
    rewrite Forall_forall in Hall'. pose proof (Hall' _ Hx). lia.
Qed.

Lemma min_element_proper v v' : v ≡ₚ v' → min_element v = min_element v'.
Proof.
  intros E. apply option_eq. intros x.
  rewrite !min_element_spec. by rewrite E.
Qed.

Lemma max_element_proper v v' : v ≡ₚ v' → max_element v = max_element v'.
Proof.
  intros E. apply option_eq. intros x.
  rewrite !max_element_spec. by rewrite E.
Qed.

Lemma median_proper v v' : v ≡ₚ v' → median v = median v'.
Proof. intros E. unfold median. by rewrite (merge_sort_le_proper v v' E). Qed.

(** The sorted lengths of the branch sequences. *)
Lemma branch_lengths_proper (m1 m2 : gmap Z (list bool)) :
  (∀ line, option_Forall2 Permutation (m1 !! line) (m2 !! line)) →
  sorted_desc (map (λ x, Z.of_nat (length x.2)) (map_to_list m1))
  = sorted_desc (map (λ x, Z.of_nat (length x.2)) (map_to_list m2)).
Proof.
  intros Hm.
  assert (length <$> m1 = length <$> m2) as Hlen.
  { apply map_eq. intros line. rewrite !lookup_fmap.
    destruct (Hm line) as [x y E|]; simpl; [by rewrite E|done]. }
  assert (∀ m : gmap Z (list bool),
    map (λ x, Z.of_nat (length x.2)) (map_to_list m)
    ≡ₚ map (λ x, Z.of_nat x.2) (map_to_list (length <$> m))) as Hlist.
  { intros m. rewrite map_to_list_fmap.
    change (map ?f ?l) with (f <$> l). by rewrite <- list_fmap_compose. }
  apply sorted_desc_proper. by rewrite !Hlist, Hlen.
Qed.

End order.


Section order_claim.
Import FP Spec AIWC Plugin Scenario.

(** Every local variable of [kernelEnd] but the branch entropies is the
    same for two aggregates that are the same up to order. *)
Lemma locals_proper a b :
  same_up_to_order a b →
  major_operations a = major_operations b
  ∧ total_instruction_count a = total_instruction_count b
  ∧ freedom_to_reorder a = freedom_to_reorder b
  ∧ resource_pressure a = resource_pressure b
  ∧ simd_sum a = simd_sum b
  ∧ itb_min a = itb_min b ∧ itb_max a = itb_max b ∧ itb_median a = itb_median b
  ∧ ipt_min a = ipt_min b ∧ ipt_max a = ipt_max b ∧ ipt_median a = ipt_median b
  ∧ simd_min a = simd_min b ∧ simd_max a = simd_max b
  ∧ simd_mean a = simd_mean b ∧ simd_stdev a = simd_stdev b
  ∧ granularity a = granularity b
  ∧ barriers_per_instruction a = barriers_per_instruction b
  ∧ instructions_per_operand a = instructions_per_operand b
  ∧ memory_access_count a = memory_access_count b
  ∧ total_memory_footprint a = total_memory_footprint b
  ∧ unique_memory_addresses a = unique_memory_addresses b
  ∧ mem_entropy a = mem_entropy b
  ∧ loc_entropy a = loc_entropy b
  ∧ (∀ x, relative_usage a x = relative_usage b x)
  ∧ sorted_branch_ops a = sorted_branch_ops b
  ∧ unique_branch_addresses a = unique_branch_addresses b.
Proof.
  destruct a as [c1 mo1 br1 itb1 w1 ipt1 ibl1 ll1 sl1 t1 bh1 g1 l1 k1].
  destruct b as [c2 mo2 br2 itb2 w2 ipt2 ibl2 ll2 sl2 t2 bh2 g2 l2 k2].
  intros Hab. unfold same_up_to_order in Hab. cbn in Hab.
  destruct Hab
    as (<- & Hmo & Hbr & Hitb & <- & Hipt & Hibl & <- & <- & <- & <- & <- & <- & <-).
  pose proof (local_address_count_proper 0 _ _ Hmo) as Hh.
  pose proof (branch_lengths_proper _ _ Hbr) as Hlen.
  match goal with |- context [loc_entropy ?x = loc_entropy ?y] =>
    assert (loc_entropy x = loc_entropy y) as Hloc
  end.
  { unfold loc_entropy, memory_access_count, sorted_count. cbn [m_memoryOps].
    rewrite Hh. apply map_ext. intros nskip.
    by rewrite (local_address_count_proper _ _ _ Hmo). }
  rewrite Hloc. clear Hloc.
  unfold major_operations, significant_operation_count, total_instruction_count,
    operation_count, sorted_ops, freedom_to_reorder, resource_pressure,
    simd_sum, itb_min, itb_max, itb_median, ipt_min, ipt_max, ipt_median,
    simd_min, simd_max, simd_stdev, simd_sq_sum, simd_mean, simd_num, granularity,
    barriers_per_instruction, instructions_per_operand, simd_sum,
    total_instruction_count, operation_count, sorted_ops,
    unique_memory_addresses, significant_memory_access_count, mem_entropy,
    memory_access_count, total_memory_footprint, sorted_count,
    relative_usage, m_total_memory_access, unique_branch_addresses,
    significant_branch_op_count, branch_op_count, sorted_branch_ops.
  cbn [m_computeOps m_memoryOps m_branchOps m_instructionsToBarrier
       m_instructionWidth m_instructionsPerWorkitem
       m_instructionsBetweenLoadOrStore m_loadInstructionLabels
       m_storeInstructionLabels m_threads_invoked m_barriers_hit
       m_global_memory_access m_local_memory_access m_constant_memory_access].
  rewrite (accumulate_proper _ _ Hibl), (Permutation_length Hibl),
    (min_element_proper _ _ Hitb), (max_element_proper _ _ Hitb),
    (median_proper _ _ Hitb), (min_element_proper _ _ Hipt),
    (max_element_proper _ _ Hipt), (median_proper _ _ Hipt), Hh, Hlen.
  repeat split.
Qed.

(** Their reports agree on everything but the branch entropies. *)
Lemma kernelEnd_proper a b r a' :
  same_up_to_order a b →
  kernelEnd a = Some (r, a') →
  ∃ r', kernelEnd b = Some (r', reset b)
    ∧ without_branch_entropy r' = without_branch_entropy r.
Proof.
  intros Hab Hend.
  destruct (kernelEnd_inv a r a' Hend)
    as (major & i1 & i2 & i3 & p1 & p2 & p3 & s1 & s2 & um & ub & Hinv).
  destruct Hinv as (E1 & E2 & E3 & E4 & E5 & E6 & E7 & E8 & E9 & Eum & Eub & _ & -> & ->).
  destruct (locals_proper a b Hab)
    as (L1 & L2 & L3 & L4 & L5 & L6 & L7 & L8 & L9 & L10 & L11 & L12 & L13 & L14
        & L15 & L16 & L17 & L18 & L19 & L20 & L21 & L22 & L23 & L24 & L25 & L26).
  destruct Hab as (A1 & A2 & A3 & A4 & A5 & A6 & A7 & A8 & A9 & A10 & A11 & A12 & A13 & A14).
  eexists. split.
  - apply kernelEnd_Some; [by rewrite <- L1|by rewrite <- L6|by rewrite <- L7
      |by rewrite <- L8|by rewrite <- L9|by rewrite <- L10|by rewrite <- L11
      |by rewrite <- L12|by rewrite <- L13|by rewrite <- L21|by rewrite <- L26].
  - unfold without_branch_entropy.
    cbn [rep_major_operations rep_total_instruction_count rep_freedom_to_reorder
         rep_resource_pressure rep_threads_invoked rep_simd_sum rep_barriers_hit
         rep_itb_min rep_itb_max rep_itb_median rep_ipt_min rep_ipt_max
         rep_ipt_median rep_simd_min rep_simd_max rep_simd_mean rep_simd_stdev
         rep_granularity rep_barriers_per_instruction rep_instructions_per_operand
         rep_memory_access_count rep_total_memory_footprint
         rep_unique_memory_addresses rep_mem_entropy rep_loc_entropy
         rep_global_memory_access rep_local_memory_access
         rep_constant_memory_access rep_relative_local rep_relative_constant
         rep_total_unique_branches rep_unique_branch_addresses].
    by rewrite <- L2, <- L3, <- L4, <- L5, <- L14, <- L15, <- L16, <- L17, <- L18,
      <- L19, <- L20, <- L22, <- L23, <- !L24, <- L25,
      <- A10, <- A11, <- A12, <- A13, <- A14.
Qed.

(** The rows other than the branch entropies are those of the blanked
    report. *)
Lemma other_rows_without_branch_entropy r :
  other_rows r = other_rows (without_branch_entropy r).
Proof.
  unfold other_rows, csv_rows, without_branch_entropy.
  cbn [rep_major_operations rep_total_instruction_count rep_freedom_to_reorder
       rep_resource_pressure rep_threads_invoked rep_simd_sum rep_barriers_hit
       rep_itb_min rep_itb_max rep_itb_median rep_ipt_min rep_ipt_max
       rep_ipt_median rep_simd_min rep_simd_max rep_simd_mean rep_simd_stdev
       rep_granularity rep_barriers_per_instruction rep_instructions_per_operand
       rep_memory_access_count rep_total_memory_footprint
       rep_unique_memory_addresses rep_mem_entropy rep_loc_entropy
       rep_global_memory_access rep_local_memory_access
       rep_constant_memory_access rep_relative_local rep_relative_constant
       rep_total_unique_branches rep_unique_branch_addresses
       rep_yokota_entropy_per_workload rep_average_entropy].
  rewrite !filter_app. by do 2 f_equal.
Qed.

Lemma csv_rows_last r :
  last (csv_rows r)
  = Some ("branch entropy (average linear)", CDouble (rep_average_entropy r)).
Proof. unfold csv_rows. by rewrite !last_app. Qed.

Lemma linear_of_taken pattern (t : Z) :
  taken pattern = t → 0 ≤ t ≤ 8 → linear pattern = (IZR t / 8)%R.
Proof.
  intros E Ht. unfold linear, taken_rate. rewrite E.
  change (Z.of_nat window_length) with 16. unfold Rmin.
  assert (0 <= IZR t <= 8)%R by (split; apply IZR_le; lia).
  destruct (Rle_dec _ _); lra.
Qed.

(** Evaluate a closed option and name its value. *)
Ltac evaluate t x H :=
  let v := eval vm_compute in t in
  match v with
  | Some ?y => set (x := y); assert (H : t = Some x) by (vm_compute; reflexivity)
  end.

(** C9, as the code has it.  When the work-groups of an invocation complete
    in another order, the aggregate is the same up to the order of its
    sequences, with the same histograms, [kernelEnd] succeeds on the one as
    on the other, and the two reports agree on every number but the three
    branch entropies: every row of the CSV file other than
    "branch entropy (yokota)" and "branch entropy (average linear)" is the
    same.  Floats are read as reals, so a sum taken in another order is the
    same sum.  A report holds numbers: the names that [kernelEnd] prints
    beside the counts, in the order the hash map gives to equal counts, are
    not part of it. *)
Theorem C9_merge_order_changes_only_branch_entropy
    (a : Aggregate) (ws ws' : list WorkerState)
    (a1 : Aggregate) (r1 : Report) (a1' : Aggregate) :
  ws ≡ₚ ws' →
  merge_all a ws = Some a1 →
  kernelEnd a1 = Some (r1, a1') →
  ∃ a2 r2 a2',
    merge_all a ws' = Some a2
    ∧ same_up_to_order a1 a2
    ∧ kernelEnd a2 = Some (r2, a2')
    ∧ without_branch_entropy r2 = without_branch_entropy r1
    ∧ other_rows r2 = other_rows r1.
Proof.
  intros Hperm Hmerge Hend.
  destruct (merge_all_Permutation a ws ws' a1 Hperm Hmerge) as (a2 & Hmerge' & Hsame).
  destruct (kernelEnd_proper a1 a2 r1 a1' Hsame Hend) as (r2 & Hend' & Hr).
  exists a2, r2, (reset a2).
  split; [exact Hmerge'|]. split; [exact Hsame|]. split; [exact Hend'|].
  split; [exact Hr|].
  rewrite (other_rows_without_branch_entropy r2), Hr.
  symmetry. apply other_rows_without_branch_entropy.
Qed.

Lemma C9_merge_order_changes_only_branch_entropy_witness :
  ∃ w1 w2 a1 r1 a1',
    worker_after group_taken_then_not = Some w1
    ∧ worker_after group_not_taken = Some w2
    ∧ merge_all (kernelBegin (aggregate init)) [w1; w2] = Some a1
    ∧ kernelEnd a1 = Some (r1, a1')
    ∧ ∃ a2 r2 a2',
        merge_all (kernelBegin (aggregate init)) [w2; w1] = Some a2
        ∧ same_up_to_order a1 a2
        ∧ kernelEnd a2 = Some (r2, a2')
        ∧ without_branch_entropy r2 = without_branch_entropy r1
        ∧ other_rows r2 = other_rows r1.
Proof.
  evaluate (worker_after group_taken_then_not) w1 H1.
  evaluate (worker_after group_not_taken) w2 H2.
  evaluate (merge_all (kernelBegin (aggregate init)) [w1; w2]) a1 Ha1.
  report_of a1 r1 Hend.
  exists w1, w2, a1, r1, (reset a1).
  split; [exact H1|]. split; [exact H2|]. split; [exact Ha1|].
  split; [exact Hend|].
  exact (C9_merge_order_changes_only_branch_entropy
           (kernelBegin (aggregate init)) [w1; w2] [w2; w1] a1 r1 (reset a1)
           (perm_swap w2 w1 []) Ha1 Hend).
Defined.

(** C9 as stated fails for the branch entropies.  One work-group records
    taken, not taken for the branch of line 42 and another records fifteen
    times not taken.  Merged in this order the sequence has the windows
    [1000000000000000] and [0000000000000000] and the average linear
    entropy is 1/16; merged in the other order it has
    [0000000000000001] and [0000000000000010] and the average is 1/8. *)
Lemma C9_branch_entropy_depends_on_merge_order :
  ∃ w1 w2 a1 a2 r1 r2 a1' a2',
    worker_after group_taken_then_not = Some w1
    ∧ worker_after group_not_taken = Some w2
    ∧ [w1; w2] ≡ₚ [w2; w1]
    ∧ merge_all (kernelBegin (aggregate init)) [w1; w2] = Some a1
    ∧ merge_all (kernelBegin (aggregate init)) [w2; w1] = Some a2
    ∧ kernelEnd a1 = Some (r1, a1')
    ∧ kernelEnd a2 = Some (r2, a2')
    ∧ rep_average_entropy r1 = Fin (1 / 16)
    ∧ rep_average_entropy r2 = Fin (1 / 8)
    ∧ csv_rows r1 ≠ csv_rows r2.
Proof.
  evaluate (worker_after group_taken_then_not) w1 H1.
  evaluate (worker_after group_not_taken) w2 H2.
  evaluate (merge_all (kernelBegin (aggregate init)) [w1; w2]) a1 Ha1.
  evaluate (merge_all (kernelBegin (aggregate init)) [w2; w1]) a2 Ha2.
  report_of a1 r1 Hend1. report_of a2 r2 Hend2.
  assert (Hr1 : rep_average_entropy r1 = Fin (1 / 16)).
  { subst r1. cbn [rep_average_entropy].
    rewrite average_linear_spec by (by vm_compute). f_equal.
    replace (all_patterns (m_branchOps a1))
      with [("1000000000000000", 1); ("0000000000000000", 1)]
      by (vm_compute; reflexivity).
    unfold Spec.average_linear.
    replace (window_count _) with 2 by reflexivity.
    rewrite decide_False by done.
    unfold linear_numerator. cbn [map sumR foldr fst snd].
    rewrite (linear_of_taken "1000000000000000" 1) ; [|reflexivity|lia].
    rewrite (linear_of_taken "0000000000000000" 0) ; [|reflexivity|lia]. lra. }
  assert (Hr2 : rep_average_entropy r2 = Fin (1 / 8)).
  { subst r2. cbn [rep_average_entropy].
    rewrite average_linear_spec by (by vm_compute). f_equal.
    replace (all_patterns (m_branchOps a2))
      with [("0000000000000001", 1); ("0000000000000010", 1)]
      by (vm_compute; reflexivity).
    unfold Spec.average_linear.
    replace (window_count _) with 2 by reflexivity.
    rewrite decide_False by done.
    unfold linear_numerator. cbn [map sumR foldr fst snd].
    rewrite (linear_of_taken "0000000000000001" 1) ; [|reflexivity|lia].
    rewrite (linear_of_taken "0000000000000010" 1) ; [|reflexivity|lia]. lra. }
  exists w1, w2, a1, a2, r1, r2, (reset a1), (reset a2).
  split; [exact H1|]. split; [exact H2|]. split; [apply perm_swap|].
  split; [exact Ha1|]. split; [exact Ha2|].
  split; [exact Hend1|]. split; [exact Hend2|].
  split; [exact Hr1|]. split; [exact Hr2|].
  intros E. apply (f_equal last) in E.
  rewrite !csv_rows_last, Hr1, Hr2 in E. injection E as E. lra.
Qed.

End order_claim.

(** ** The transfers file *)

Section transfer_file.
Import Transfers Spec.

Lemma elem_of_unique_from prev l x : x ∈ unique_from prev l → x ∈ l.
Proof.
  revert prev. induction l as [|y l IH]; intros prev; simpl; [done|].
  destruct (decide (prev = y)) as [->|_].
  - intros ?%IH. by apply elem_of_cons; right.
  - intros [->|?%IH]%elem_of_cons; apply elem_of_cons; auto.
Qed.

Lemma elem_of_unique_from_2 prev l x :
  x ∈ l → x = prev ∨ x ∈ unique_from prev l.
Proof.
  revert prev. induction l as [|y l IH]; intros prev; simpl.
  { by intros ?%elem_of_nil. }
  intros [->|Hx]%elem_of_cons.
  - destruct (decide (prev = y)) as [->|_]; [by left|].
    right. apply elem_of_cons. by left.
  - destruct (decide (prev = y)) as [->|_]; [by apply IH|].
    right. apply elem_of_cons. destruct (IH y Hx); auto.
Qed.

Lemma elem_of_unique l x : x ∈ unique l ↔ x ∈ l.
Proof.
  destruct l as [|y l]; simpl; [done|]. rewrite !elem_of_cons. split.
  - intros [->|?%elem_of_unique_from]; auto.
  - intros [->|Hx]; [by left|]. destruct (elem_of_unique_from_2 y l x Hx); auto.
Qed.

Lemma count_pos k l : 0 < count k l ↔ k ∈ l.
Proof. exact (occurrences_pos k l). Qed.

Lemma sumZ_fmap_nonneg {A} (f : A → Z) (l : list A) :
  Forall (λ x, 0 < f x) l → 0 ≤ sumZ (map f l) ∧ (sumZ (map f l) = 0 → l = []).
Proof.
  induction 1 as [|x l Hx Hl [IH1 IH2]]; [done|].
  cbn [map]. rewrite sumZ_cons. split; lia.
Qed.

(** The counts listed beside the names that [std::unique] keeps: at least
    the length of the list, and exactly the length when no name is kept
    twice. *)
Lemma unique_counts l :
  Z.of_nat (length l) ≤ sumZ (map (λ k, count k l) (unique l))
  ∧ (sumZ (map (λ k, count k l) (unique l)) = Z.of_nat (length l)
     ↔ NoDup (unique l)).
Proof.
  assert (remove_dups l ⊆+ unique l) as Hsub.
  { apply NoDup_submseteq; [apply NoDup_remove_dups|].
    intros x. by rewrite elem_of_remove_dups, elem_of_unique. }
  destruct (submseteq_Permutation _ _ Hsub) as [rest Hrest].
  assert (Forall (λ k, 0 < count k l) rest) as Hpos.
  { apply Forall_forall. intros x Hx. apply count_pos, elem_of_unique.
    rewrite Hrest. apply elem_of_app. by right. }
  destruct (sumZ_fmap_nonneg (λ k, count k l) rest Hpos) as [Hge Hzero].
  assert (sumZ (map (λ k, count k l) (unique l))
          = Z.of_nat (length l) + sumZ (map (λ k, count k l) rest)) as E.
  { rewrite (sumZ_Permutation _ _ (Permutation_map _ Hrest)).
    rewrite map_app, sumZ_app. f_equal.
    apply (sumZ_occurrences_remove_dups l). }
  split; [lia|]. split.
  - intros E'. rewrite Hrest, (Hzero ltac:(lia)), app_nil_r.
    apply NoDup_remove_dups.
  - intros Hnd. rewrite Hrest in Hnd. apply NoDup_app in Hnd as (_ & Hdis & _).
    destruct rest as [|x rest]; [simpl in E; lia|].
    exfalso. apply (Hdis x); [|by apply elem_of_cons; left].
    apply elem_of_remove_dups, elem_of_unique. rewrite Hrest.
    apply elem_of_app. right. by apply elem_of_cons; left.
Qed.

(** X1.  The destructor writes a row for a name exactly when the name is in
    the list of its direction, and the row carries the number of entries of
    that name in the whole list: no transfer is left without a row and no
    row has the count 0. *)
Theorem transfer_rows_exact (s : HostTransferLog) (metric k : string) (c : Z) :
  (metric, k, c) ∈ transfer_rows s
  ↔ (metric = "transfer: host to device"
     ∧ k ∈ m_hostToDeviceCopy s
     ∧ c = count k (m_hostToDeviceCopy s) ∧ 0 < c)
    ∨ (metric = "transfer: device to host"
       ∧ k ∈ m_deviceToHostCopy s
       ∧ c = count k (m_deviceToHostCopy s) ∧ 0 < c).
Proof.
  unfold transfer_rows. cbv zeta.
  change (map ?f ?l) with (f <$> l).
  rewrite elem_of_app, !list_elem_of_fmap. split.
  - intros [(x & Heq & Hx)|(x & Heq & Hx)];
      injection Heq as -> -> ->; rewrite elem_of_unique in Hx; [left|right];
      (split; [reflexivity|]; split; [exact Hx|]; split; [reflexivity|];
       by apply count_pos).
  - intros [(-> & Hk & -> & _)|(-> & Hk & -> & _)]; [left|right];
      (exists k; split; [done|]; by apply elem_of_unique).
Qed.

(** X2.  The counts of the transfers file add up to at least the number of
    transfers, and to exactly that number if and only if [std::unique] has
    kept no kernel name twice in either direction, that is, if no kernel
    name comes back in a list after another name. *)
Theorem transfer_counts_add_up (s : HostTransferLog) :
  Z.of_nat (length (m_hostToDeviceCopy s))
    + Z.of_nat (length (m_deviceToHostCopy s))
    ≤ sumZ (map snd (transfer_rows s))
  ∧ (sumZ (map snd (transfer_rows s))
     = Z.of_nat (length (m_hostToDeviceCopy s))
       + Z.of_nat (length (m_deviceToHostCopy s))
     ↔ NoDup (unique (m_hostToDeviceCopy s))
       ∧ NoDup (unique (m_deviceToHostCopy s))).
Proof.
  unfold transfer_rows. cbv zeta.
  rewrite map_app, sumZ_app, !map_map. cbn [snd].
  destruct (unique_counts (m_hostToDeviceCopy s)) as [Hh Hh'].
  destruct (unique_counts (m_deviceToHostCopy s)) as [Hd Hd'].
  split; [lia|]. rewrite <- Hh', <- Hd'. lia.
Qed.

End transfer_file.

(** ** The worker callbacks *)

Section worker.
Import FP Spec AIWC Scenario.

(** X4.  A conditional branch records nothing by itself; the instruction
    executed next decides its outcome.  When that instruction's block is
    the first target, [true] is pushed onto the sequence of the branch's
    line; when it is the second target only, [false] is pushed; when it is
    neither, the callback stops.  With twice the same target the outcome is
    always recorded as taken. *)
Theorem conditional_branch_outcome
    (br next : Instruction) (n n' : Z) (st : WorkerState) (t1 t2 : string) :
  allocated st = true →
  previous_instruction_is_branch st = false →
  conditional_branch br = Some (t1, t2) →
  ∃ st1,
    instructionExecuted br n st = Some st1
    ∧ branchOps st1 = branchOps st
    ∧ match instructionExecuted next n' st1 with
      | Some st2 =>
          branchOps st2
          = map_push (u32 (getDebugLine br))
              (bool_decide (getParent next = t1)) (branchOps st)
          ∧ (getParent next = t1 ∨ getParent next = t2)
      | None => getParent next ≠ t1 ∧ getParent next ≠ t2
      end.
Proof.
  intros Ha Hp Hcb. unfold instructionExecuted at 1.
  rewrite Ha, Hp, Hcb. cbn [negb mbind option_bind from_option fst snd].
  eexists. split; [reflexivity|]. split; [cbn [branchOps]; reflexivity|].
  unfold instructionExecuted.
  cbn [allocated negb previous_instruction_is_branch target1 target2
       branch_loc branchOps].
  rewrite (bool_decide_eq_true_2 (is_Some (Some (t1, t2)))) by (by eexists).
  destruct (decide (getParent next = t1)) as [E1|E1].
  { cbn. rewrite (bool_decide_eq_true_2 (getParent next = t1)) by done. auto. }
  destruct (decide (getParent next = t2)) as [E2|E2].
  { cbn. rewrite (bool_decide_eq_false_2 (getParent next = t1)) by done. auto. }
  done.
Qed.

Lemma conditional_branch_outcome_witness :
  ∃ st1,
    instructionExecuted (br_42 "%b") 1 (workGroupBegin null_state) = Some st1
    ∧ branchOps st1 = branchOps (workGroupBegin null_state)
    ∧ match instructionExecuted (br_42 "%a") 1 st1 with
      | Some st2 =>
          branchOps st2
          = map_push (u32 (getDebugLine (br_42 "%b")))
              (bool_decide (getParent (br_42 "%a") = "%a"))
              (branchOps (workGroupBegin null_state))
          ∧ (getParent (br_42 "%a") = "%a" ∨ getParent (br_42 "%a") = "%b")
      | None => getParent (br_42 "%a") ≠ "%a" ∧ getParent (br_42 "%a") ≠ "%b"
      end.
Proof.
  apply (conditional_branch_outcome (br_42 "%b") (br_42 "%a") 1 1
           (workGroupBegin null_state) "%a" "%b"); reflexivity.
Defined.

(** X5.  [workGroupComplete] adds the worker's counts to the aggregate's key
    by key (in [size_t]), appends the worker's sequences to the aggregate's,
    branch sequences line by line, adds the five counters (in [unsigned]),
    and hands the worker back with its [memoryOps] emptied and every other
    container and counter as it was. *)
Theorem workGroupComplete_merges
    (a : Aggregate) (st : WorkerState) (a' : Aggregate) (st' : WorkerState) :
  workGroupComplete a st = Some (a', st') →
  let added (w m : gmap string Z) (k : string) :=
    match w !! k with
    | Some v => Some (u64 (default 0 (m !! k) + v))
    | None => m !! k
    end in
  (∀ k, m_computeOps a' !! k = added (computeOps st) (m_computeOps a) k)
  ∧ (∀ k, m_loadInstructionLabels a' !! k
          = added (loadInstructionLabels st) (m_loadInstructionLabels a) k)
  ∧ (∀ k, m_storeInstructionLabels a' !! k
          = added (storeInstructionLabels st) (m_storeInstructionLabels a) k)
  ∧ (∀ width, m_instructionWidth a' !! width
       = match instructionWidth st !! width with
         | Some v => Some (u64 (default 0 (m_instructionWidth a !! width) + v))
         | None => m_instructionWidth a !! width
         end)
  ∧ (∀ line, m_branchOps a' !! line
       = match branchOps st !! line with
         | Some [] | None => m_branchOps a !! line
         | Some bs => Some (default [] (m_branchOps a !! line) ++ bs)
         end)
  ∧ m_memoryOps a' = m_memoryOps a ++ memoryOps st
  ∧ m_instructionsToBarrier a'
    = m_instructionsToBarrier a ++ instructionsBetweenBarriers st
  ∧ m_instructionsPerWorkitem a'
    = m_instructionsPerWorkitem a ++ instructionsPerWorkitem st
  ∧ m_instructionsBetweenLoadOrStore a'
    = m_instructionsBetweenLoadOrStore a ++ instructionsBetweenLoadOrStore st
  ∧ m_threads_invoked a' = u32 (m_threads_invoked a + threads_invoked st)
  ∧ m_barriers_hit a' = u32 (m_barriers_hit a + barriers_hit st)
  ∧ m_global_memory_access a'
    = u32 (m_global_memory_access a + global_memory_access_count st)
  ∧ m_local_memory_access a'
    = u32 (m_local_memory_access a + local_memory_access_count st)
  ∧ m_constant_memory_access a'
    = u32 (m_constant_memory_access a + constant_memory_access_count st)
  ∧ st' = set_memoryOps [] st.
Proof.
  unfold workGroupComplete. destruct (allocated st); cbn [negb]; [|done].
  intros [= <- <-]. cbv zeta. unfold merge_into.
  cbn [m_computeOps m_loadInstructionLabels m_storeInstructionLabels
       m_instructionWidth m_branchOps m_memoryOps m_instructionsToBarrier
       m_instructionsPerWorkitem m_instructionsBetweenLoadOrStore
       m_threads_invoked m_barriers_hit m_global_memory_access
       m_local_memory_access m_constant_memory_access].
  split; [intros k; apply merge_counts_lookup|].
  split; [intros k; apply merge_counts_lookup|].
  split; [intros k; apply merge_counts_lookup|].
  split; [intros k; apply merge_counts_lookup|].
  split.
  { intros line. rewrite merge_branches_lookup.
    destruct (branchOps st !! line) as [[|b bs]|]; reflexivity. }
  repeat split.
Qed.

Lemma workGroupComplete_merges_witness :
  ∃ st a' st',
    worker_after group_taken_then_not = Some st
    ∧ workGroupComplete (with_branchOps {[42 := [false]]}) st = Some (a', st')
    ∧ m_branchOps a' !! 42 = Some ([false] ++ [true; false])
    ∧ m_instructionsPerWorkitem a' = [] ++ instructionsPerWorkitem st
    ∧ st' = set_memoryOps [] st.
Proof.
  pose (o := worker_after group_taken_then_not).
  assert (Ho : worker_after group_taken_then_not = o) by reflexivity.
  vm_compute in o.
  match eval cbv delta [o] in o with Some ?w => set (st := w) in * end.
  pose (a := with_branchOps {[42 := [false]]}).
  exists st, (merge_into a st), (set_memoryOps [] st).
  split; [exact Ho|]. split; [reflexivity|].
  pose proof (workGroupComplete_merges a st (merge_into a st)
                (set_memoryOps [] st) eq_refl) as H.
  cbv zeta in H.
  destruct H as (H1 & H2 & H3 & H4 & Hbr & H).
  split; [exact (Hbr 42)|]. split; apply H.
Defined.

End worker.

(** ** When [kernelEnd] is defined, and its order statistics *)

(** A closed aggregate is within range by evaluation. *)
Ltac in_range_by_evaluation :=
  let entries m :=
    (apply map_Forall_to_list;
     let l := eval vm_compute in (map_to_list m) in
     change (map_to_list m) with l;
     repeat (apply List.Forall_cons; [done|]); apply List.Forall_nil) in
  unfold Range.in_range;
  split; [match goal with |- map_Forall _ ?m => entries m end|];
  split; [vm_compute; reflexivity|];
  split; [vm_compute; reflexivity|];
  split; [match goal with |- map_Forall _ ?m => entries m end|];
  vm_compute; reflexivity.

Section kernelEnd_defined.
Import FP Spec AIWC Plugin Scenario Range.

Lemma vec_get_elem {A} (v : list A) (i : Z) :
  0 ≤ i < Z.of_nat (length v) → ∃ x, vec_get v i = Some x ∧ x ∈ v.
Proof.
  intros Hi. unfold vec_get. rewrite bool_decide_eq_true_2 by lia.
  destruct (lookup_lt_is_Some_2 v (Z.to_nat i)) as [x Hx]; [lia|].
  exists x. split; [done|]. by eapply list_elem_of_lookup_2.
Qed.

Lemma u64_le x : 0 ≤ x → 0 ≤ u64 x ≤ x.
Proof.
  intros Hx. unfold u64. split; [apply Z.mod_pos_bound; lia|].
  apply Z.mod_le; lia.
Qed.

(** The median is the middle entry of the sorted copy, or half the sum of
    the two middle entries, the sum and the half taken in [unsigned]. *)
Lemma median_elem v :
  v ≠ [] →
  ∃ z, median v = Some z
    ∧ (z ∈ v ∨ ∃ x y, x ∈ v ∧ y ∈ v ∧ z = u32 (x + y) / 2).
Proof.
  intros Hv. unfold median.
  pose proof (merge_sort_Permutation Z.le v) as Hperm.
  set (itb := merge_sort Z.le v) in *.
  assert (0 < Z.of_nat (length itb)) as Hlen.
  { rewrite Hperm. destruct v; [done|]. simpl. lia. }
  set (size := Z.of_nat (length itb)) in *.
  destruct (decide (size mod 2 = 0)) as [Heven|Hodd].
  - rewrite bool_decide_eq_true_2 by done.
    assert (2 ≤ size).
    { destruct (decide (size = 1)) as [E|E]; [by rewrite E in Heven|lia]. }
    assert (1 ≤ size / 2) by (apply Z.div_le_lower_bound; lia).
    pose proof (u64_le (size / 2 - 1)).
    assert (size / 2 < size) by (apply Z.div_lt; lia).
    destruct (vec_get_elem itb (u64 (size / 2 - 1))) as (x & -> & Hx); [lia|].
    destruct (vec_get_elem itb (size / 2)) as (y & -> & Hy); [lia|].
    cbn. eexists. split; [done|]. right. exists x, y.
    by rewrite <- !Hperm.
  - rewrite bool_decide_eq_false_2 by done.
    assert (size / 2 < size) by (apply Z.div_lt; lia).
    assert (0 ≤ size / 2) by (apply Z.div_pos; lia).
    destruct (vec_get_elem itb (size / 2)) as (y & -> & Hy); [lia|].
    eexists. split; [done|]. left. by rewrite <- Hperm.
Qed.

Lemma median_between v lo hi z :
  Forall (λ x, 0 ≤ x < 2 ^ 31) v →
  min_element v = Some lo → max_element v = Some hi → median v = Some z →
  lo ≤ z ≤ hi.
Proof.
  intros Hv [_ Hlo]%min_element_spec [_ Hhi]%max_element_spec Hz.
  rewrite Forall_forall in Hv, Hlo, Hhi.
  destruct (median_elem v) as (z' & Hz' & Hcase).
  { intros ->. done. }
  rewrite Hz in Hz'. injection Hz' as <-.
  destruct Hcase as [Hin|(x & y & Hx & Hy & ->)].
  - split; [by apply Hlo|by apply Hhi].
  - pose proof (Hv x Hx). pose proof (Hv y Hy).
    pose proof (Hlo x Hx). pose proof (Hlo y Hy).
    pose proof (Hhi x Hx). pose proof (Hhi y Hy).
    rewrite u32_small by lia.
    split; [apply Z.div_le_lower_bound; lia|].
    apply Z.div_le_upper_bound; lia.
Qed.

Lemma min_element_is_Some v : v ≠ [] → is_Some (min_element v).
Proof. destruct v; [done|]. by eexists. Qed.

Lemma max_element_is_Some v : v ≠ [] → is_Some (max_element v).
Proof. destruct v; [done|]. by eexists. Qed.

(** The 90% loop on counts that are positive and add up to less than
    [2^32]: the total is their sum and the loop ends on the smallest prefix
    of the sorted counts that reaches nine tenths of it. *)
Lemma cover_sorted_desc counts :
  Forall (λ c, 0 < c) counts → sumZ counts < 2 ^ 32 →
  foldl (λ acc c, u64 (acc + c)) 0 (sorted_desc counts) = sumZ counts
  ∧ ∃ n, cover (sorted_desc counts) (ceil_090 (sumZ counts)) 0 0 = Some n
      ∧ smallest_cover (sorted_desc counts) (ceil_090 (sumZ counts)) n.
Proof.
  intros Hpos Hsum.
  pose proof (sorted_desc_Permutation counts) as Hperm.
  assert (Forall (λ c, 0 < c) (sorted_desc counts)) as Hpos'
    by (by rewrite Hperm).
  assert (sumZ (sorted_desc counts) = sumZ counts) as Hs
    by (by apply sumZ_Permutation).
  assert (0 ≤ sumZ counts) as H0.
  { apply sumZ_nonneg. eapply Forall_impl; [exact Hpos|]. simpl. lia. }
  assert (Z.of_nat (length (sorted_desc counts)) ≤ sumZ counts) as Hlen.
  { rewrite <- Hs. clear -Hpos'. induction Hpos' as [|x l Hx Hl IH].
    - done.
    - cbn [length]. rewrite sumZ_cons. lia. }
  split.
  { rewrite foldl_u64_sum_0, Hs. apply u64_small. lia. }
  destruct (ceil_090_spec (sumZ counts)) as [_ Hceil]; [lia|].
  destruct (cover_spec (sorted_desc counts) (ceil_090 (sumZ counts)) 0 0)
    as (k & Hk & Hkl & Hreach & Hmin); try lia.
  { eapply Forall_impl; [exact Hpos'|]. simpl. lia. }
  exists (Z.of_nat k). split; [by rewrite Hk|].
  unfold smallest_cover. rewrite Nat2Z.id. repeat split; try lia.
  intros j Hj. specialize (Hmin j). lia.
Qed.

Lemma compute_counts_positive a :
  in_range a → Forall (λ c, 0 < c) (map snd (map_to_list (m_computeOps a))).
Proof.
  intros (Hpos & _). apply map_Forall_to_list in Hpos.
  change (map ?f ?l) with (f <$> l). apply Forall_fmap.
  eapply Forall_impl; [exact Hpos|]. by intros [??].
Qed.

Lemma branch_lengths_positive a :
  in_range a →
  Forall (λ c, 0 < c)
    (map (λ x : Z * list bool, Z.of_nat (length x.2)) (map_to_list (m_branchOps a))).
Proof.
  intros (_ & _ & _ & Hpos & _). apply map_Forall_to_list in Hpos.
  change (map ?f ?l) with (f <$> l). apply Forall_fmap.
  eapply Forall_impl; [exact Hpos|]. intros [line bs]. simpl.
  destruct bs; [done|]. simpl. lia.
Qed.

(** The opcode loop of an aggregate within range. *)
Lemma major_operations_cover (a : Aggregate) :
  in_range a →
  total_instruction_count a = instructions a
  ∧ ∃ n, major_operations a = Some n
      ∧ smallest_cover (sorted_ops a) (significant_operation_count a) n.
Proof.
  intros Hr. pose proof (compute_counts_positive a Hr) as Hpos.
  destruct Hr as (_ & Hsum & _).
  destruct (cover_sorted_desc _ Hpos Hsum) as (Htotal & n & Hn & Hsmall).
  assert (total_instruction_count a = instructions a) as Ht by exact Htotal.
  split; [exact Ht|]. exists n.
  unfold major_operations, significant_operation_count.
  change (operation_count a) with (total_instruction_count a).
  rewrite Ht. by split.
Qed.

(** X6.  The opcode table of [kernelEnd], for an aggregate within the range
    of the counters: the total instruction count is the sum of the opcode
    counts, the threshold is the ceiling of nine tenths of it, and the
    number of major operations is the length of the smallest prefix of the
    counts, sorted in descending order, whose sum reaches the threshold. *)
Theorem major_operations_smallest (a : Aggregate) :
  in_range a →
  total_instruction_count a = instructions a
  ∧ descending_sort_of (map snd (map_to_list (m_computeOps a))) (sorted_ops a)
  ∧ ceiling_of_nine_tenths (total_instruction_count a)
      (significant_operation_count a)
  ∧ ∃ n, major_operations a = Some n
      ∧ smallest_cover (sorted_ops a) (significant_operation_count a) n
      ∧ (∀ r a', kernelEnd a = Some (r, a') →
           rep_major_operations r = n
           ∧ rep_total_instruction_count r = instructions a).
Proof.
  intros Hr. destruct (major_operations_cover a Hr) as (Ht & n & Hn & Hsmall).
  pose proof (compute_counts_positive a Hr) as Hpos.
  destruct Hr as (_ & Hsum & _).
  assert (0 ≤ instructions a) as H0.
  { apply sumZ_nonneg. eapply Forall_impl; [exact Hpos|]. simpl. lia. }
  split; [exact Ht|].
  split; [split; [apply sorted_desc_Permutation|apply sorted_desc_Sorted]|].
  split.
  { unfold significant_operation_count.
    change (operation_count a) with (total_instruction_count a).
    apply ceil_090_spec. rewrite Ht. lia. }
  exists n. split; [exact Hn|]. split; [exact Hsmall|].
  intros r a' Hend. apply kernelEnd_inv in Hend.
  destruct Hend as (major & i1 & i2 & i3 & p1 & p2 & p3 & s1 & s2 & um & ub & Hend).
  destruct Hend as (E1 & _ & _ & _ & _ & _ & _ & _ & _ & _ & _ & _ & _ & ->).
  cbn [rep_major_operations rep_total_instruction_count].
  split; [congruence|exact Ht].
Qed.

Lemma major_operations_smallest_witness :
  ∃ s,
    run init load_and_barrier_kernel = Some (s, [])
    ∧ in_range (aggregate s)
    ∧ total_instruction_count (aggregate s) = instructions (aggregate s)
    ∧ ∃ n, major_operations (aggregate s) = Some n
        ∧ smallest_cover (sorted_ops (aggregate s))
            (significant_operation_count (aggregate s)) n.
Proof.
  run_prefix load_and_barrier_kernel s0 Hrun.
  assert (in_range (aggregate s0)) as Hr by in_range_by_evaluation.
  exists s0. split; [exact Hrun|]. split; [exact Hr|].
  destruct (major_operations_smallest (aggregate s0) Hr)
    as (Ht & _ & _ & n & Hn & Hsmall & _).
  split; [exact Ht|]. exists n. split; [exact Hn|exact Hsmall].
Defined.

(** The branch loop of an aggregate within range. *)
Lemma unique_branch_addresses_cover (a : Aggregate) :
  in_range a →
  branch_op_count a = outcomes (m_branchOps a)
  ∧ ∃ n, unique_branch_addresses a = Some n
      ∧ smallest_cover (sorted_branch_ops a) (significant_branch_op_count a) n.
Proof.
  intros Hr. pose proof (branch_lengths_positive a Hr) as Hpos.
  destruct Hr as (_ & _ & _ & _ & Hsum).
  destruct (cover_sorted_desc _ Hpos Hsum) as (Htotal & n & Hn & Hsmall).
  assert (branch_op_count a = outcomes (m_branchOps a)) as Ht by exact Htotal.
  split; [exact Ht|]. exists n.
  unfold unique_branch_addresses, significant_branch_op_count.
  rewrite Ht. by split.
Qed.

(** X7.  The branch table of [kernelEnd], for an aggregate within the range
    of the counters: the number of unique branches is the number of source
    lines with a recorded branch, and the 90% figure is the length of the
    smallest prefix of the per-line outcome counts, sorted in descending
    order, whose sum reaches the ceiling of nine tenths of all outcomes. *)
Theorem unique_branch_addresses_smallest (a : Aggregate) :
  in_range a →
  branch_op_count a = outcomes (m_branchOps a)
  ∧ descending_sort_of
      (map (λ x : Z * list bool, Z.of_nat (length x.2)) (map_to_list (m_branchOps a)))
      (sorted_branch_ops a)
  ∧ ceiling_of_nine_tenths (branch_op_count a) (significant_branch_op_count a)
  ∧ ∃ n, unique_branch_addresses a = Some n
      ∧ smallest_cover (sorted_branch_ops a) (significant_branch_op_count a) n
      ∧ (∀ r a', kernelEnd a = Some (r, a') →
           rep_unique_branch_addresses r = n
           ∧ rep_total_unique_branches r = Z.of_nat (size (m_branchOps a))).
Proof.
  intros Hr. destruct (unique_branch_addresses_cover a Hr) as (Ht & n & Hn & Hsmall).
  pose proof (branch_lengths_positive a Hr) as Hpos.
  destruct Hr as (_ & _ & _ & _ & Hsum).
  assert (0 ≤ outcomes (m_branchOps a)) as H0.
  { apply sumZ_nonneg. eapply Forall_impl; [exact Hpos|]. simpl. lia. }
  split; [exact Ht|].
  split; [split; [apply sorted_desc_Permutation|apply sorted_desc_Sorted]|].
  split.
  { unfold significant_branch_op_count. apply ceil_090_spec. rewrite Ht. lia. }
  exists n. split; [exact Hn|]. split; [exact Hsmall|].
  intros r a' Hend. apply kernelEnd_inv in Hend.
  destruct Hend as (major & i1 & i2 & i3 & p1 & p2 & p3 & s1 & s2 & um & ub & Hend).
  destruct Hend as (_ & _ & _ & _ & _ & _ & _ & _ & _ & _ & E & _ & _ & ->).
  cbn [rep_unique_branch_addresses rep_total_unique_branches].
  split; [congruence|].
  unfold sorted_branch_ops.
  by rewrite sorted_desc_Permutation, length_map, length_map_to_list.
Qed.

Lemma unique_branch_addresses_smallest_witness :
  ∃ s,
    run init alternating_kernel = Some (s, [])
    ∧ in_range (aggregate s)
    ∧ branch_op_count (aggregate s) = outcomes (m_branchOps (aggregate s))
    ∧ ∃ n, unique_branch_addresses (aggregate s) = Some n
        ∧ smallest_cover (sorted_branch_ops (aggregate s))
            (significant_branch_op_count (aggregate s)) n.
Proof.
  run_prefix alternating_kernel s0 Hrun.
  assert (in_range (aggregate s0)) as Hr by in_range_by_evaluation.
  exists s0. split; [exact Hrun|]. split; [exact Hr|].
  destruct (unique_branch_addresses_smallest (aggregate s0) Hr)
    as (Ht & _ & _ & n & Hn & Hsmall & _).
  split; [exact Ht|]. exists n. split; [exact Hn|exact Hsmall].
Defined.

(** X8.  For an aggregate within the range of the counters, [kernelEnd]
    leaves no container exactly when at least one instruction-to-barrier
    count, one per work-item count and one instruction width have been
    merged: otherwise it dereferences the end of an empty container. *)
Theorem kernelEnd_defined_iff (a : Aggregate) :
  in_range a →
  is_Some (kernelEnd a)
  ↔ m_instructionsToBarrier a ≠ []
    ∧ m_instructionsPerWorkitem a ≠ []
    ∧ m_instructionWidth a ≠ ∅.
Proof.
  intros Hr. split.
  { intros [[r a'] Hend]. by apply (kernelEnd_nonempty a r a'). }
  intros (Hitb & Hipt & Hw).
  destruct (major_operations_cover a Hr) as (_ & n & Hn & _).
  destruct (unique_branch_addresses_cover a Hr) as (_ & ub & Hub & _).
  destruct Hr as (_ & _ & Hmem & _).
  destruct (unique_memory_addresses_smallest a Hmem) as (um & Hum & _).
  destruct (min_element_is_Some _ Hitb) as [i1 Hi1].
  destruct (max_element_is_Some _ Hitb) as [i2 Hi2].
  destruct (median_elem _ Hitb) as (i3 & Hi3 & _).
  destruct (min_element_is_Some _ Hipt) as [p1 Hp1].
  destruct (max_element_is_Some _ Hipt) as [p2 Hp2].
  destruct (median_elem _ Hipt) as (p3 & Hp3 & _).
  assert (map fst (map_to_list (m_instructionWidth a)) ≠ []) as Hw'.
  { intros E. apply Hw, map_to_list_empty_iff.
    by destruct (map_to_list (m_instructionWidth a)). }
  destruct (min_element_is_Some _ Hw') as [s1 Hs1].
  destruct (max_element_is_Some _ Hw') as [s2 Hs2].
  eexists.
  exact (kernelEnd_Some a n i1 i2 i3 p1 p2 p3 s1 s2 um ub
           Hn Hi1 Hi2 Hi3 Hp1 Hp2 Hp3 Hs1 Hs2 Hum Hub).
Qed.

Lemma kernelEnd_defined_iff_witness :
  ∃ s,
    run init load_and_barrier_kernel = Some (s, [])
    ∧ in_range (aggregate s)
    ∧ (is_Some (kernelEnd (aggregate s))
       ↔ m_instructionsToBarrier (aggregate s) ≠ []
         ∧ m_instructionsPerWorkitem (aggregate s) ≠ []
         ∧ m_instructionWidth (aggregate s) ≠ ∅).
Proof.
  run_prefix load_and_barrier_kernel s0 Hrun.
  assert (in_range (aggregate s0)) as Hr by in_range_by_evaluation.
  exists s0. split; [exact Hrun|]. split; [exact Hr|].
  exact (kernelEnd_defined_iff (aggregate s0) Hr).
Defined.

(** X9.  The order statistics of a report.  The minimum and the maximum of
    the instructions to barrier and of the instructions per work-item are
    entries of their vectors and bound all entries.  The two medians are
    whole numbers, the instructions-to-barrier one although it is kept in a
    [double], since the two middle entries are added and halved in
    [unsigned]; with every entry below [2^31] they lie between the minimum
    and the maximum. *)
Theorem report_order_statistics (a : Aggregate) (r : Report) (a' : Aggregate) :
  kernelEnd a = Some (r, a') →
  (rep_itb_min r ∈ m_instructionsToBarrier a
   ∧ rep_itb_max r ∈ m_instructionsToBarrier a
   ∧ Forall (λ x, rep_itb_min r ≤ x ≤ rep_itb_max r) (m_instructionsToBarrier a)
   ∧ ∃ z, rep_itb_median r = of_Z z
       ∧ (Forall (λ x, 0 ≤ x < 2 ^ 31) (m_instructionsToBarrier a) →
          rep_itb_min r ≤ z ≤ rep_itb_max r))
  ∧ (rep_ipt_min r ∈ m_instructionsPerWorkitem a
     ∧ rep_ipt_max r ∈ m_instructionsPerWorkitem a
     ∧ Forall (λ x, rep_ipt_min r ≤ x ≤ rep_ipt_max r) (m_instructionsPerWorkitem a)
     ∧ (Forall (λ x, 0 ≤ x < 2 ^ 31) (m_instructionsPerWorkitem a) →
        rep_ipt_min r ≤ rep_ipt_median r ≤ rep_ipt_max r)).
Proof.
  intros Hend. apply kernelEnd_inv in Hend.
  destruct Hend as (major & i1 & i2 & i3 & p1 & p2 & p3 & s1 & s2 & um & ub & Hend).
  destruct Hend as (_ & Hi1 & Hi2 & Hi3 & Hp1 & Hp2 & Hp3 & _ & _ & _ & _ & _ & _ & ->).
  cbn [rep_itb_min rep_itb_max rep_itb_median rep_ipt_min rep_ipt_max
       rep_ipt_median].
  unfold itb_min, itb_max, itb_median, ipt_min, ipt_max, ipt_median in *.
  pose proof Hi1 as [Hi1in Hi1le]%min_element_spec.
  pose proof Hi2 as [Hi2in Hi2le]%max_element_spec.
  pose proof Hp1 as [Hp1in Hp1le]%min_element_spec.
  pose proof Hp2 as [Hp2in Hp2le]%max_element_spec.
  split; (split; [done|]; split; [done|]; split).
  - rewrite Forall_forall in Hi1le, Hi2le. apply Forall_forall.
    intros x Hx. split; [by apply Hi1le|by apply Hi2le].
  - exists i3. split; [done|]. intros Hb. by eapply median_between.
  - rewrite Forall_forall in Hp1le, Hp2le. apply Forall_forall.
    intros x Hx. split; [by apply Hp1le|by apply Hp2le].
  - intros Hb. by eapply median_between.
Qed.

Lemma report_order_statistics_witness :
  ∃ s r a',
    run init two_items_at_barrier = Some (s, [])
    ∧ kernelEnd (aggregate s) = Some (r, a')
    ∧ rep_itb_min r ∈ m_instructionsToBarrier (aggregate s)
    ∧ ∃ z, rep_itb_median r = of_Z z
        ∧ (Forall (λ x, 0 ≤ x < 2 ^ 31) (m_instructionsToBarrier (aggregate s)) →
           rep_itb_min r ≤ z ≤ rep_itb_max r).
Proof.
  run_prefix two_items_at_barrier s0 Hrun.
  report_of (aggregate s0) r Hend.
  exists s0, r, (reset (aggregate s0)).
  split; [exact Hrun|]. split; [exact Hend|].
  destruct (report_order_statistics (aggregate s0) r _ Hend)
    as ((Hmin & _ & _ & Hmed) & _).
  split; [exact Hmin|exact Hmed].
Defined.

End kernelEnd_defined.

(** ** Bounds on the memory entropies *)

Section entropy_bounds.
Import FP Spec AIWC Plugin Scenario.
#[local] Open Scope R_scope.

Lemma ln_le_sub1 x : 0 < x → ln x <= x - 1.
Proof.
  intros Hx. pose proof (exp_ineq1_le (ln x)) as H.
  rewrite exp_ln in H by done. lra.
Qed.

Lemma Rdiv_le_1 x n : 0 < n → x <= n → x / n <= 1.
Proof.
  intros Hn Hx. apply Rmult_le_reg_r with n; [done|].
  replace (x / n * n) with x by (field; lra). lra.
Qed.

Lemma Rdiv_nonpos x n : 0 < n → x <= 0 → x / n <= 0.
Proof.
  intros Hn Hx. apply Rmult_le_reg_r with n; [done|].
  replace (x / n * n) with x by (field; lra). lra.
Qed.

Lemma log2_le x y : 0 < x → x <= y → log2 x <= log2 y.
Proof.
  intros Hx Hxy. unfold log2. pose proof ln_2_pos.
  apply Rmult_le_compat_r; [left; by apply Rinv_0_lt_compat|].
  destruct Hxy as [Hlt| ->]; [left; by apply ln_increasing|right; done].
Qed.

Lemma sumR_le {A} (f g : A → R) (L : list A) :
  Forall (λ x, f x <= g x) L → sumR (map f L) <= sumR (map g L).
Proof.
  induction 1 as [|x L Hx HL IH]; cbn [map]; [unfold sumR; simpl; lra|].
  rewrite !sumR_cons. lra.
Qed.

Lemma sumR_scale {A} (f : A → R) (c : R) (L : list A) :
  sumR (map (λ x, c * f x) L) = c * sumR (map f L).
Proof.
  induction L as [|x L IH]; cbn [map]; [unfold sumR; simpl; lra|].
  rewrite !sumR_cons, IH. lra.
Qed.

Lemma sumR_add {A} (f g : A → R) (L : list A) :
  sumR (map (λ x, f x + g x) L) = sumR (map f L) + sumR (map g L).
Proof.
  induction L as [|x L IH]; cbn [map]; [unfold sumR; simpl; lra|].
  rewrite !sumR_cons, IH. lra.
Qed.

Lemma sumR_const {A} (c : R) (L : list A) :
  sumR (map (λ _, c) L) = INR (length L) * c.
Proof.
  induction L as [|x L IH]; [unfold sumR; simpl; lra|].
  cbn [map]. rewrite sumR_cons, IH.
  change (length (x :: L)) with (S (length L)). rewrite S_INR. lra.
Qed.

Lemma sumR_ext {A} (f g : A → R) (L : list A) :
  (∀ x, x ∈ L → f x = g x) → sumR (map f L) = sumR (map g L).
Proof.
  intros H. f_equal. apply map_ext_in. intros x Hx. apply H.
  by apply list_elem_of_In.
Qed.

(** A sum over the distinct elements, weighted by their counts, is the sum
    over all elements. *)
Lemma sumR_occurrences `{Countable A} (φ : A → R) (L l : list A) :
  NoDup L → (∀ y, y ∈ l → y ∈ L) →
  sumR (map (λ x, IZR (occurrences x l) * φ x) L) = sumR (map φ l).
Proof.
  intros HL. induction l as [|y l IH]; intros Hsub.
  - rewrite (sumR_ext _ (λ x, 0 * φ x))
      by (intros; by rewrite occurrences_nil).
    rewrite sumR_scale. cbn [map]. unfold sumR at 2. cbn [foldr]. lra.
  - cbn [map]. rewrite sumR_cons, <- IH by (intros; apply Hsub; by right).
    assert (y ∈ L) as Hy by (apply Hsub; by left).
    clear IH Hsub. induction HL as [|x L Hx HL IH].
    { by apply elem_of_nil in Hy. }
    cbn [map]. rewrite !sumR_cons, occurrences_cons.
    destruct (decide (y = x)) as [->|Hne].
    + assert (sumR (map (λ x0, IZR (occurrences x0 (x :: l)) * φ x0) L)
              = sumR (map (λ x0, IZR (occurrences x0 l) * φ x0) L)) as ->.
      { apply sumR_ext. intros z Hz. rewrite occurrences_cons.
        rewrite decide_False by (intros ->; done). by rewrite Z.add_0_l. }
      rewrite plus_IZR. lra.
    + apply elem_of_cons in Hy as [?|Hy]; [done|].
      rewrite (IH Hy). rewrite Z.add_0_l. lra.
Qed.

Lemma sumR_occurrences_remove_dups `{Countable A} (φ : A → R) (l : list A) :
  sumR (map (λ x, IZR (occurrences x l) * φ x) (remove_dups l)) = sumR (map φ l).
Proof.
  apply sumR_occurrences; [apply NoDup_remove_dups|].
  intros y. by rewrite elem_of_remove_dups.
Qed.

(** The entropy as a sum over all elements: every element adds
    [log2 (n / count)] over [n]. *)
Lemma entropy_per_element `{Countable A} (l : list A) (n : Z) :
  entropy l n
  = - sumR (map (λ a, log2 (IZR (occurrences a l) / IZR n) / IZR n) l).
Proof.
  unfold entropy. f_equal.
  rewrite <- (sumR_occurrences_remove_dups _ l).
  apply sumR_ext. intros x _. cbv zeta. unfold Rdiv. lra.
Qed.

Lemma occurrences_elem `{Countable A} (a : A) (l : list A) :
  a ∈ l → 1 <= IZR (occurrences a l) <= IZR (Z.of_nat (length l)).
Proof.
  intros Ha%occurrences_pos. pose proof (occurrences_bounds a l).
  split; apply IZR_le; lia.
Qed.

Lemma occurrences_fmap_le `{Countable A} `{Countable B}
    (g : A → B) (a : A) (l : list A) :
  (occurrences a l ≤ occurrences (g a) (g <$> l))%Z.
Proof.
  induction l as [|x l IH]; [done|].
  rewrite fmap_cons, !occurrences_cons.
  destruct (decide (x = a)) as [->|Hne].
  - rewrite decide_True by done. lia.
  - destruct (decide (g x = g a)); lia.
Qed.

Lemma length_pos_INR {A} (l : list A) : l ≠ [] → 0 < IZR (Z.of_nat (length l)).
Proof. intros Hl. apply IZR_lt. destruct l; [done|]. simpl. lia. Qed.

(** The entropy of a non-empty list lies between 0 and the logarithm of the
    number of its distinct elements. *)
Lemma entropy_bounds `{Countable A} (l : list A) :
  l ≠ [] →
  0 <= entropy l (Z.of_nat (length l))
       <= log2 (IZR (Z.of_nat (length (remove_dups l)))).
Proof.
  intros Hl. pose proof (length_pos_INR l Hl) as Hn.
  set (n := IZR (Z.of_nat (length l))) in *.
  assert (remove_dups l ≠ []) as Hd.
  { destruct l as [|x l]; [done|]. intros E.
    assert (x ∈ remove_dups (x :: l)) as Hx
      by (apply elem_of_remove_dups, elem_of_cons; by left).
    rewrite E in Hx. by apply elem_of_nil in Hx. }
  pose proof (length_pos_INR _ Hd) as HK.
  set (K := IZR (Z.of_nat (length (remove_dups l)))) in *.
  pose proof ln_2_pos as H2.
  rewrite entropy_per_element. fold n. split.
  - assert (sumR (map (λ a, log2 (IZR (occurrences a l) / n) / n) l)
            <= sumR (map (λ _, 0) l)) as Hle.
    { apply sumR_le, Forall_forall. intros a Ha.
      destruct (occurrences_elem a l Ha) as [H1 Hle]. fold n in Hle.
      assert (log2 (IZR (occurrences a l) / n) <= 0).
      { apply log2_nonpos. split.
        - apply Rdiv_lt_0_compat; lra.
        - apply Rdiv_le_1; lra. }
      apply Rdiv_nonpos; lra. }
    rewrite sumR_const in Hle. lra.
  - assert (sumR (map (λ a, - (log2 (IZR (occurrences a l) / n) / n)) l)
            <= sumR (map (λ a, log2 K / n
                               + (/ (IZR (occurrences a l) * K) - / n) / ln 2) l))
      as Hle.
    { apply sumR_le, Forall_forall. intros a Ha.
      destruct (occurrences_elem a l Ha) as [H1 _].
      set (c := IZR (occurrences a l)) in *.
      pose proof (ln_le_sub1 (n / (c * K))) as Hln.
      assert (0 < c * K) by nra.
      assert (0 < n / (c * K)) as Hpos by (apply Rdiv_lt_0_compat; lra).
      specialize (Hln Hpos).
      assert (ln (n / (c * K)) = - ln (c / n) - ln K) as E.
      { unfold Rdiv. rewrite ln_mult by (try apply Rinv_0_lt_compat; lra).
        rewrite ln_Rinv by lra. rewrite ln_mult by lra.
        rewrite ln_mult by (try apply Rinv_0_lt_compat; lra).
        rewrite ln_Rinv by lra. lra. }
      rewrite E in Hln. unfold log2.
      assert (- (ln (c / n) / ln 2 / n)
              = ln K / ln 2 / n + (- ln (c / n) - ln K) / ln 2 / n) as ->
        by (field; lra).
      apply Rplus_le_compat_l.
      assert ((/ (c * K) - / n) / ln 2 = (n / (c * K) - 1) / ln 2 / n) as ->
        by (field; lra).
      apply Rmult_le_compat_r; [left; apply Rinv_0_lt_compat; lra|].
      apply Rmult_le_compat_r; [left; apply Rinv_0_lt_compat; lra|]. lra. }
    rewrite sumR_add, sumR_const in Hle.
    assert (sumR (map (λ a, (/ (IZR (occurrences a l) * K) - / n) / ln 2) l) = 0)
      as Hzero.
    { assert (sumR (map (λ a, / (IZR (occurrences a l) * K)) l) = 1) as Hone.
      { rewrite <- (sumR_occurrences_remove_dups _ l).
        assert (sumR (map (λ x, IZR (occurrences x l)
                                * / (IZR (occurrences x l) * K)) (remove_dups l))
                = sumR (map (λ _, / K) (remove_dups l))) as ->.
        { apply sumR_ext. intros x Hx. rewrite elem_of_remove_dups in Hx.
          destruct (occurrences_elem x l Hx) as [H1 _]. field. lra. }
        rewrite sumR_const. rewrite INR_IZR_INZ. fold K. field. lra. }
      assert (sumR (map (λ a, (/ (IZR (occurrences a l) * K) - / n) / ln 2) l)
              = / ln 2 * sumR (map (λ a, / (IZR (occurrences a l) * K)
                                        + - / n) l)) as ->.
      { rewrite <- sumR_scale. apply sumR_ext. intros; lra. }
      rewrite sumR_add, sumR_const, Hone, INR_IZR_INZ. fold n. field. lra. }
    rewrite Hzero, INR_IZR_INZ in Hle. fold n in Hle.
    assert (sumR (map (λ a, - (log2 (IZR (occurrences a l) / n) / n)) l)
            = - sumR (map (λ a, log2 (IZR (occurrences a l) / n) / n) l)) as E.
    { rewrite (sumR_ext _ (λ a, (-1) * (log2 (IZR (occurrences a l) / n) / n)))
        by (intros; lra).
      rewrite sumR_scale. lra. }
    rewrite E in Hle.
    assert (n * (log2 K / n) = log2 K) as E' by (field; lra). lra.
Qed.

(** Mapping the elements, which can only merge classes, never raises the
    entropy. *)
Lemma entropy_fmap_le `{Countable A} `{Countable B}
    (g : A → B) (l : list A) :
  entropy (g <$> l) (Z.of_nat (length l)) <= entropy l (Z.of_nat (length l)).
Proof.
  destruct (decide (l = [])) as [->|Hl].
  { unfold entropy. simpl. lra. }
  pose proof (length_pos_INR l Hl) as Hn.
  rewrite !entropy_per_element.
  change (map ?f (g <$> l)) with (f <$> (g <$> l)).
  rewrite <- list_fmap_compose.
  apply Ropp_le_contravar.
  apply sumR_le, Forall_forall. intros a Ha. unfold compose.
  destruct (occurrences_elem a l Ha) as [H1 _].
  apply Rmult_le_compat_r; [left; by apply Rinv_0_lt_compat|].
  apply log2_le; [apply Rdiv_lt_0_compat; lra|].
  apply Rmult_le_compat_r; [left; by apply Rinv_0_lt_compat|].
  apply IZR_le, occurrences_fmap_le.
Qed.

(** X10.  With at least one and fewer than [2^31] memory operations, the
    global memory address entropy is a real number between 0 and the base-2
    logarithm of the total memory footprint; a report carries that number. *)
Theorem mem_entropy_between (a : Aggregate) :
  m_memoryOps a ≠ [] →
  (Z.of_nat (length (m_memoryOps a)) < 2 ^ 31)%Z →
  ∃ h, mem_entropy a = Fin h
    ∧ 0 <= h <= log2 (IZR (total_memory_footprint a))
    ∧ ∀ r a', kernelEnd a = Some (r, a') → rep_mem_entropy r = Fin h.
Proof.
  intros Hops Hlen.
  assert (Z.of_nat (length (m_memoryOps a)) < 2 ^ 32)%Z as Hlen' by lia.
  exists (entropy (m_memoryOps a) (memory_access_count a)).
  split; [by apply mem_entropy_spec|].
  rewrite memory_access_count_length, total_memory_footprint_distinct by done.
  split; [by apply entropy_bounds|].
  intros r a' Hend. apply (kernelEnd_memory a r a') in Hend.
  destruct Hend as (_ & _ & _ & ->).
  rewrite <- (memory_access_count_length a Hlen').
  by apply mem_entropy_spec.
Qed.

Lemma mem_entropy_between_witness :
  ∃ h, mem_entropy (with_memoryOps [4096; 4096; 4096; 4096; 8192]%Z) = Fin h
    ∧ 0 <= h
      <= log2 (IZR (total_memory_footprint
                      (with_memoryOps [4096; 4096; 4096; 4096; 8192]%Z)))
    ∧ ∀ r a',
        kernelEnd (with_memoryOps [4096; 4096; 4096; 4096; 8192]%Z) = Some (r, a') →
        rep_mem_entropy r = Fin h.
Proof.
  apply (mem_entropy_between (with_memoryOps [4096; 4096; 4096; 4096; 8192]%Z)).
  - discriminate.
  - reflexivity.
Defined.

Lemma shiftr_fmap (i k : nat) (ops : list Z) :
  (λ x, x ≫ Z.of_nat (i + k))%Z <$> ops
  = (λ x, x ≫ Z.of_nat k)%Z <$> ((λ x, x ≫ Z.of_nat i)%Z <$> ops).
Proof.
  rewrite <- list_fmap_compose. apply list_fmap_ext. intros _ x _.
  unfold compose. rewrite Z.shiftr_shiftr by lia. f_equal. lia.
Qed.

Lemma local_entropy_spec (nskip : nat) (ops : list Z) :
  (Z.of_nat (length ops) < 2 ^ 32)%Z →
  local_entropy_of (local_address_count (Z.of_nat nskip) ops)
    (Z.of_nat (length ops))
  = Fin (entropy ((λ x, x ≫ Z.of_nat nskip)%Z <$> ops) (Z.of_nat (length ops))).
Proof.
  intros Hlen. rewrite local_address_count_fmap.
  set (shifted := (λ x, x ≫ Z.of_nat nskip)%Z <$> ops).
  assert (length shifted = length ops) as Hl by apply length_fmap.
  destruct (decide (ops = [])) as [->|Hops].
  { unfold local_entropy_of, entropy. simpl. rewrite map_fold_empty.
    f_equal. lra. }
  assert (0 < Z.of_nat (length ops))%Z as Hn.
  { destruct ops; [done|]. simpl. lia. }
  rewrite local_entropy_of_Fin.
  - f_equal. unfold entropy. f_equal.
    pose proof (histogram_to_list shifted) as Hperm.
    rewrite Hl in Hperm. specialize (Hperm Hlen).
    rewrite (sumR_Permutation _ _ (Permutation_map _ Hperm)).
    by rewrite map_map.
  - done.
  - intros k c Hk.
    rewrite histogram_lookup in Hk by (by rewrite Hl).
    unfold counted in Hk. destruct (decide _); [done|].
    injection Hk as <-. pose proof (occurrences_bounds k shifted). lia.
Qed.

(** X11.  With fewer than [2^31] memory operations, the ten local memory
    address entropies are the entropies of the addresses shifted right by
    1 to 10 bits, each over the number of memory operations; skipping more
    bits never raises the entropy, and none of the ten exceeds the global
    memory address entropy. *)
Theorem local_entropies_decrease (a : Aggregate) :
  (Z.of_nat (length (m_memoryOps a)) < 2 ^ 31)%Z →
  let skipped (nskip : nat) :=
    entropy ((λ x, x ≫ Z.of_nat nskip)%Z <$> m_memoryOps a)
            (Z.of_nat (length (m_memoryOps a))) in
  loc_entropy a = map (λ nskip, Fin (skipped nskip)) (seq 1 10)
  ∧ mem_entropy a = Fin (skipped 0%nat)
  ∧ (∀ i j : nat, (i ≤ j)%nat → skipped j <= skipped i)
  ∧ ∀ r a', kernelEnd a = Some (r, a') →
      rep_loc_entropy r = map (λ nskip, Fin (skipped nskip)) (seq 1 10)
      ∧ rep_mem_entropy r = Fin (skipped 0%nat).
Proof.
  intros Hlen skipped.
  assert (Z.of_nat (length (m_memoryOps a)) < 2 ^ 32)%Z as Hlen' by lia.
  assert (loc_entropy a = map (λ nskip, Fin (skipped nskip)) (seq 1 10)) as Hloc.
  { unfold loc_entropy. apply map_ext. intros nskip.
    rewrite memory_access_count_length by done.
    by apply local_entropy_spec. }
  assert (mem_entropy a = Fin (skipped 0%nat)) as Hmem.
  { rewrite mem_entropy_spec, memory_access_count_length by done.
    unfold skipped. do 2 f_equal.
    rewrite <- (list_fmap_id (m_memoryOps a)) at 1.
    apply list_fmap_ext. intros _ x _. symmetry. apply Z.shiftr_0_r. }
  split; [exact Hloc|]. split; [exact Hmem|]. split.
  - intros i j Hij. unfold skipped.
    replace j with (i + (j - i))%nat by lia.
    rewrite shiftr_fmap.
    rewrite <- (length_fmap (λ x, x ≫ Z.of_nat i)%Z (m_memoryOps a)).
    apply entropy_fmap_le.
  - intros r a' Hend. apply kernelEnd_inv in Hend.
    destruct Hend as (major & i1 & i2 & i3 & p1 & p2 & p3 & s1 & s2 & um & ub & Hend).
    destruct Hend as (_ & _ & _ & _ & _ & _ & _ & _ & _ & _ & _ & _ & _ & ->).
    cbn [rep_loc_entropy rep_mem_entropy]. by split.
Qed.

Lemma local_entropies_decrease_witness :
  let a := with_memoryOps [4096; 4097; 4098; 8192]%Z in
  let skipped (nskip : nat) :=
    entropy ((λ x, x ≫ Z.of_nat nskip)%Z <$> m_memoryOps a)
            (Z.of_nat (length (m_memoryOps a))) in
  loc_entropy a = map (λ nskip, Fin (skipped nskip)) (seq 1 10)
  ∧ skipped 2%nat <= skipped 1%nat.
Proof.
  intros a skipped.
  destruct (local_entropies_decrease a) as (Hloc & _ & Hle & _);
    [reflexivity|].
  split; [exact Hloc|]. apply Hle. lia.
Defined.

End entropy_bounds.

(** ** Bounds on the branch entropies, the memory diversity and the widths *)

Section report_bounds.
Import FP Spec AIWC Plugin Scenario.
#[local] Open Scope R_scope.

Lemma linear_bounds pattern : sixteen pattern → 0 <= linear pattern <= 1.
Proof.
  intros Hp%taken_rate_bounds. unfold linear, Rmin.
  destruct (Rle_dec _ _); lra.
Qed.

Lemma linear_numerator_bounds ps :
  Forall (λ pc, sixteen pc.1 ∧ (0 < pc.2)%Z) ps →
  0 <= linear_numerator ps <= IZR (window_count ps).
Proof.
  unfold linear_numerator, window_count.
  induction 1 as [|[pattern c] ps [Hp Hc] Hps IH]; cbn [map fst snd].
  { unfold sumR, sumZ. simpl. lra. }
  rewrite sumR_cons, sumZ_cons, plus_IZR. simpl in Hp, Hc.
  pose proof (linear_bounds pattern Hp).
  assert (1 <= IZR c) by (apply IZR_le; lia). nra.
Qed.

Lemma average_linear_bounds ps :
  Forall (λ pc, sixteen pc.1 ∧ (0 < pc.2)%Z) ps →
  0 <= Spec.average_linear ps <= 1.
Proof.
  intros Hps. unfold Spec.average_linear.
  destruct (decide (window_count ps = 0%Z)) as [E|E]; [lra|].
  destruct (linear_numerator_bounds ps Hps) as [H0 H1].
  assert (0 <= IZR (window_count ps)) as Hc by lra.
  assert (IZR (window_count ps) ≠ 0) as Hne.
  { intros Hz. apply E. by apply eq_IZR. }
  assert (0 < IZR (window_count ps)) as Hpos by lra.
  split.
  - apply Rmult_le_reg_r with (IZR (window_count ps)); [done|].
    replace (linear_numerator ps / IZR (window_count ps) * IZR (window_count ps))
      with (linear_numerator ps) by (field; lra). lra.
  - apply Rdiv_le_1; lra.
Qed.

Lemma yokota_per_workload_nonneg ps :
  Forall (λ pc, sixteen pc.1 ∧ (0 < pc.2)%Z) ps → 0 <= yokota_per_workload ps.
Proof.
  unfold yokota_per_workload.
  induction 1 as [|[pattern c] ps [Hp Hc] Hps IH]; cbn [map fst snd].
  { unfold sumR. simpl. lra. }
  rewrite sumR_cons. simpl in Hp. pose proof (plogp_nonpos pattern Hp). lra.
Qed.

(** X12.  With fewer than [2^21] recorded branch outcomes, the numerator
    of the average linear branch entropy is, in whatever order the loop
    visits the patterns and at every step, a whole number of eighths below
    [2^21], which the [float] accumulator holds exactly; the average of a
    report is a real number between 0 and 1, and the Yokota entropy per
    workload, the one written to the CSV file, is a real number that is not
    negative. *)
Theorem branch_entropy_bounds (a : Aggregate) (r : Report) (a' : Aggregate) :
  (outcomes (m_branchOps a) < 2 ^ 21)%Z →
  kernelEnd a = Some (r, a') →
  (∀ visited,
     visited ⊆+ all_patterns (m_branchOps a) →
     eighths (linear_numerator visited))
  ∧ ∃ x w,
      rep_average_entropy r = Fin x ∧ 0 <= x <= 1
      ∧ rep_yokota_entropy_per_workload r = Fin w ∧ 0 <= w.
Proof.
  intros Hb21 Hend.
  assert (outcomes (m_branchOps a) < 2 ^ 32)%Z as Hb by lia.
  split.
  { intros visited Hsub. by apply (visited_eighths (m_branchOps a)). }
  destruct (report_yokota a Hb r a' Hend) as (_ & Hw).
  apply (kernelEnd_branch a r a') in Hend. destruct Hend as (_ & _ & Hx).
  rewrite average_linear_spec in Hx by done.
  pose proof (all_patterns_sixteen (m_branchOps a)) as Hps.
  eexists _, _. split; [exact Hx|].
  split; [by apply average_linear_bounds|].
  split; [exact Hw|by apply yokota_per_workload_nonneg].
Qed.

Lemma branch_entropy_bounds_witness :
  ∃ s r a',
    run init alternating_kernel = Some (s, [])
    ∧ kernelEnd (aggregate s) = Some (r, a')
    ∧ (∀ visited,
         visited ⊆+ all_patterns (m_branchOps (aggregate s)) →
         eighths (linear_numerator visited))
    ∧ ∃ x w,
        rep_average_entropy r = Fin x ∧ 0 <= x <= 1
        ∧ rep_yokota_entropy_per_workload r = Fin w ∧ 0 <= w.
Proof.
  run_prefix alternating_kernel s0 Hrun.
  report_of (aggregate s0) r Hend.
  exists s0, r, (reset (aggregate s0)).
  split; [exact Hrun|]. split; [exact Hend|].
  refine (branch_entropy_bounds (aggregate s0) r _ _ Hend).
  vm_compute. reflexivity.
Defined.

(** X13.  The two "relative memory usage" figures of a report, for counters
    that are not negative and whose sum is below [2^32]: with no global,
    local or constant access counted both are NaN, the quotient [0/0];
    otherwise they are the local and the constant accesses as a percentage
    of all three, and together at most 100. *)
Theorem relative_usage_percent (a : Aggregate) (r : Report) (a' : Aggregate) :
  kernelEnd a = Some (r, a') →
  (0 ≤ m_global_memory_access a)%Z →
  (0 ≤ m_local_memory_access a)%Z →
  (0 ≤ m_constant_memory_access a)%Z →
  (m_global_memory_access a + m_local_memory_access a
   + m_constant_memory_access a < 2 ^ 32)%Z →
  let total := (m_global_memory_access a + m_local_memory_access a
                + m_constant_memory_access a)%Z in
  (total = 0%Z →
     rep_relative_local r = NaN ∧ rep_relative_constant r = NaN)
  ∧ (total ≠ 0%Z →
       rep_relative_local r
       = Fin (IZR (m_local_memory_access a) / IZR total * 100)
       ∧ rep_relative_constant r
         = Fin (IZR (m_constant_memory_access a) / IZR total * 100)
       ∧ 0 <= IZR (m_local_memory_access a) / IZR total * 100
       ∧ 0 <= IZR (m_constant_memory_access a) / IZR total * 100
       ∧ IZR (m_local_memory_access a) / IZR total * 100
         + IZR (m_constant_memory_access a) / IZR total * 100 <= 100).
Proof.
  intros Hend Hg Hl Hc Hsum total.
  assert (total = m_global_memory_access a + m_local_memory_access a
                  + m_constant_memory_access a)%Z as Etotal by reflexivity.
  clearbody total.
  apply kernelEnd_inv in Hend.
  destruct Hend as (major & i1 & i2 & i3 & p1 & p2 & p3 & s1 & s2 & um & ub & Hend).
  destruct Hend as (_ & _ & _ & _ & _ & _ & _ & _ & _ & _ & _ & _ & _ & ->).
  cbn [rep_relative_local rep_relative_constant].
  assert (m_total_memory_access a = total) as Ht.
  { unfold m_total_memory_access.
    rewrite (u32_small (m_global_memory_access a + m_local_memory_access a))
      by lia.
    rewrite u32_small by lia. lia. }
  unfold relative_usage. rewrite Ht. split.
  - intros E. assert (m_local_memory_access a = 0%Z) as -> by lia.
    assert (m_constant_memory_access a = 0%Z) as -> by lia.
    rewrite E. change (ddiv (of_Z 0) (of_Z 0)) with (ddiv (Fin 0) (of_Z 0)).
    rewrite ddiv_zero_zero. split; reflexivity.
  - intros Hne. rewrite !ddiv_of_Z by done. cbn [dmul].
    split; [done|]. split; [done|].
    assert (0 < IZR total) as Hpos by (apply IZR_lt; lia).
    assert (0 <= IZR (m_local_memory_access a)) by (by apply IZR_le).
    assert (0 <= IZR (m_constant_memory_access a)) by (by apply IZR_le).
    assert (IZR (m_local_memory_access a) + IZR (m_constant_memory_access a)
            <= IZR total).
    { rewrite <- plus_IZR. apply IZR_le. lia. }
    assert (0 < / IZR total) by (by apply Rinv_0_lt_compat).
    unfold Rdiv. split; [nra|]. split; [nra|].
    assert ((IZR (m_local_memory_access a) + IZR (m_constant_memory_access a))
            * / IZR total <= 1).
    { apply (Rdiv_le_1 _ (IZR total)); lra. }
    nra.
Qed.

Lemma relative_usage_percent_witness :
  ∃ s r a',
    run init no_memory_kernel = Some (s, [])
    ∧ kernelEnd (aggregate s) = Some (r, a')
    ∧ rep_relative_local r = NaN ∧ rep_relative_constant r = NaN.
Proof.
  run_prefix no_memory_kernel s0 Hrun.
  report_of (aggregate s0) r Hend.
  exists s0, r, (reset (aggregate s0)).
  split; [exact Hrun|]. split; [exact Hend|].
  refine (proj1 (relative_usage_percent (aggregate s0) r _ Hend _ _ _ _) _);
    reflexivity || (vm_compute; discriminate).
Defined.

End report_bounds.

(** ** The SIMD width statistics *)

Section widths.
Import FP Spec AIWC Plugin Scenario Range.
#[local] Open Scope R_scope.

Lemma foldr_simd_sum (l : list (Z * Z)) :
  Forall (λ item, 0 ≤ item.1 ∧ 0 < item.2)%Z l →
  (sumZ (map (λ item, item.2 * item.1) l) < 2 ^ 63)%Z →
  foldr (uncurry (λ k v acc, s64 (acc + u64 (v * k)))) 0%Z l
  = sumZ (map (λ item, item.2 * item.1)%Z l)
  ∧ (0 ≤ sumZ (map (λ item, item.2 * item.1) l))%Z.
Proof.
  induction 1 as [|[k v] l [Hk Hv] Hl IH]; [done|].
  cbn [map foldr uncurry fst snd]. rewrite sumZ_cons. simpl in Hk, Hv.
  intros Hsum.
  assert (0 ≤ v * k)%Z by nia.
  assert (0 ≤ sumZ (map (λ item, item.2 * item.1) l))%Z as H0.
  { apply sumZ_nonneg. change (map ?f ?l) with (f <$> l). apply Forall_fmap.
    eapply Forall_impl; [exact Hl|]. intros [??] [??]. simpl in *. nia. }
  destruct IH as [-> _]; [lia|].
  rewrite u64_small by lia. split; [|lia].
  unfold s64. rewrite Z.mod_small; lia.
Qed.

Lemma foldr_simd_num (l : list (Z * Z)) :
  Forall (λ item, 0 ≤ item.1 ∧ 0 < item.2)%Z l →
  (sumZ (map (λ item, item.2) l) < 2 ^ 63)%Z →
  foldr (uncurry (λ (k : Z) v acc, s64 (acc + v))) 0%Z l
  = sumZ (map (λ item, item.2) l)
  ∧ (Z.of_nat (length l) ≤ sumZ (map (λ item, item.2) l))%Z.
Proof.
  induction 1 as [|[k v] l [Hk Hv] Hl IH]; [done|].
  cbn [map foldr uncurry fst snd length]. rewrite sumZ_cons. simpl in Hk, Hv.
  intros Hsum.
  assert (0 ≤ sumZ (map (λ item, item.2) l))%Z as H0.
  { apply sumZ_nonneg. change (map ?f ?l) with (f <$> l). apply Forall_fmap.
    eapply Forall_impl; [exact Hl|]. intros [??] [??]. simpl in *. lia. }
  destruct IH as [-> ?]; [lia|]. split; [|lia].
  unfold s64. rewrite Z.mod_small; lia.
Qed.

Lemma foldr_simd_sq_sum (μ : R) (l : list (Z * Z)) :
  foldr (uncurry (λ k v acc,
           dadd acc (dmul (dmul (dsub (of_Z k) (Fin μ)) (dsub (of_Z k) (Fin μ)))
                          (of_Z v))))
        (Fin 0) l
  = Fin (sumR (map (λ item, (IZR item.1 - μ) * (IZR item.1 - μ) * IZR item.2) l)).
Proof.
  induction l as [|[k v] l IH].
  { cbn. f_equal. }
  cbn [map foldr uncurry fst snd]. rewrite IH, sumR_cons.
  cbn. f_equal. lra.
Qed.

Lemma sumZ_IZR (l : list Z) : IZR (sumZ l) = sumR (map IZR l).
Proof.
  induction l as [|x l IH]; [done|].
  cbn [map]. by rewrite sumZ_cons, sumR_cons, plus_IZR, IH.
Qed.

Lemma weighted_sum_between (lo hi : Z) (l : list (Z * Z)) :
  Forall (λ item, lo ≤ item.1 ≤ hi ∧ 0 < item.2)%Z l →
  (lo * sumZ (map (λ item, item.2) l)
   ≤ sumZ (map (λ item, item.2 * item.1) l)
   ≤ hi * sumZ (map (λ item, item.2) l))%Z.
Proof.
  induction 1 as [|[k v] l [Hk Hv] Hl IH]; cbn [map fst snd].
  { unfold sumZ. simpl. lia. }
  rewrite !sumZ_cons. simpl in Hk, Hv. nia.
Qed.

Lemma sq_sum_nonneg (μ : R) (l : list (Z * Z)) :
  Forall (λ item, 0 ≤ item.1 ∧ 0 < item.2)%Z l →
  0 <= sumR (map (λ item, (IZR item.1 - μ) * (IZR item.1 - μ) * IZR item.2) l).
Proof.
  induction 1 as [|[k v] l [_ Hv] _ IH]; cbn [map fst snd].
  { unfold sumR. simpl. lra. }
  rewrite sumR_cons. simpl in Hv.
  assert (0 < IZR v) by (by apply IZR_lt).
  pose proof (Rle_0_sqr (IZR k - μ)) as Hsq. unfold Rsqr in Hsq.
  assert (0 <= (IZR k - μ) * (IZR k - μ) * IZR v)
    by (apply Rmult_le_pos; lra).
  lra.
Qed.

(** X14.  The SIMD width figures of a report while [simd_sum] and
    [simd_num] do not overflow: the operand sum is the sum of width times
    count, the mean is the operand sum over the number of counted widths
    and lies between the minimum and the maximum width, and the standard
    deviation is the square root of the count-weighted mean of the squared
    distances to the mean. *)
Theorem simd_width_statistics (a : Aggregate) (r : Report) (a' : Aggregate) :
  kernelEnd a = Some (r, a') →
  widths_in_range a →
  let items := map_to_list (m_instructionWidth a) in
  let operands := sumZ (map (λ item, item.2 * item.1)%Z items) in
  let counted := sumZ (map (λ item, item.2) items) in
  let mean := IZR operands / IZR counted in
  rep_simd_sum r = operands
  ∧ rep_simd_mean r = Fin mean
  ∧ IZR (rep_simd_min r) <= mean <= IZR (rep_simd_max r)
  ∧ rep_simd_stdev r
    = Fin (sqrt (sumR (map (λ item, (IZR item.1 - mean) * (IZR item.1 - mean)
                                    * IZR item.2) items)
                 / IZR counted)).
Proof.
  intros Hend (Hpos & Hnum & Hsum) items operands counted mean.
  pose proof (kernelEnd_nonempty a r a' Hend) as (_ & _ & Hne).
  apply kernelEnd_inv in Hend.
  destruct Hend as (major & i1 & i2 & i3 & p1 & p2 & p3 & s1 & s2 & um & ub & Hend).
  destruct Hend as (_ & _ & _ & _ & _ & _ & _ & Hs1 & Hs2 & _ & _ & _ & _ & ->).
  cbn [rep_simd_sum rep_simd_mean rep_simd_min rep_simd_max rep_simd_stdev].
  apply map_Forall_to_list in Hpos. fold items in Hpos.
  assert (Forall (λ item : Z * Z, 0 ≤ item.1 ∧ 0 < item.2)%Z items) as Hpos'.
  { eapply Forall_impl; [exact Hpos|]. by intros [??]. }
  destruct (foldr_simd_sum items Hpos' Hsum) as [Esum Hsum0].
  destruct (foldr_simd_num items Hpos' Hnum) as [Enum Hlen].
  assert (simd_sum a = operands) as Es.
  { unfold simd_sum. rewrite map_fold_foldr. exact Esum. }
  assert (simd_num a = counted) as En.
  { unfold simd_num. rewrite map_fold_foldr. exact Enum. }
  assert (0 < counted)%Z as Hc.
  { assert (items ≠ []) as Hi.
    { intros E. by apply Hne, map_to_list_empty_iff. }
    fold counted in Hlen. destruct items; [done|]. simpl in Hlen. lia. }
  assert (simd_mean a = Fin mean) as Em.
  { unfold simd_mean. rewrite Es, En. apply ddiv_of_Z. lia. }
  split; [exact Es|]. split; [exact Em|].
  assert (0 < IZR counted) as HcR by (by apply IZR_lt).
  split.
  - unfold simd_min, simd_max in Hs1, Hs2.
    apply min_element_spec in Hs1 as [_ Hlo].
    apply max_element_spec in Hs2 as [_ Hhi].
    assert (Forall (λ item : Z * Z, s1 ≤ item.1 ≤ s2 ∧ 0 < item.2)%Z items) as Hb.
    { apply Forall_forall. intros [k v] Hin.
      rewrite Forall_forall in Hlo. rewrite Forall_forall in Hhi.
      rewrite Forall_forall in Hpos'.
      assert (k ∈ map fst items) as Hk.
      { change (map fst items) with (fst <$> items).
        apply list_elem_of_fmap. by exists (k, v). }
      specialize (Hlo k Hk). specialize (Hhi k Hk).
      destruct (Hpos' _ Hin). simpl in *. lia. }
    pose proof (weighted_sum_between s1 s2 items Hb) as [H1 H2].
    fold operands counted in H1, H2.
    apply IZR_le in H1, H2. rewrite mult_IZR in H1, H2.
    unfold mean. split.
    + apply Rmult_le_reg_r with (IZR counted); [done|].
      replace (IZR operands / IZR counted * IZR counted) with (IZR operands)
        by (field; lra). lra.
    + apply Rmult_le_reg_r with (IZR counted); [done|].
      replace (IZR operands / IZR counted * IZR counted) with (IZR operands)
        by (field; lra). lra.
  - unfold simd_stdev, simd_sq_sum. rewrite Em, En, map_fold_foldr.
    fold items. rewrite foldr_simd_sq_sum.
    unfold of_Z. cbn [ddiv]. rewrite zero_R_false by lra. cbn [dsqrt].
    rewrite negative_R_false; [done|].
    apply Rmult_le_pos; [|left; by apply Rinv_0_lt_compat].
    by apply sq_sum_nonneg.
Qed.

Lemma simd_width_statistics_witness :
  ∃ s r a',
    run init load_and_barrier_kernel = Some (s, [])
    ∧ kernelEnd (aggregate s) = Some (r, a')
    ∧ widths_in_range (aggregate s)
    ∧ rep_simd_mean r
      = Fin (IZR (sumZ (map (λ item, item.2 * item.1)%Z
                          (map_to_list (m_instructionWidth (aggregate s)))))
             / IZR (sumZ (map (λ item, item.2)
                            (map_to_list (m_instructionWidth (aggregate s)))))).
Proof.
  run_prefix load_and_barrier_kernel s0 Hrun.
  report_of (aggregate s0) r Hend.
  assert (widths_in_range (aggregate s0)) as Hw.
  { unfold widths_in_range. split; [|split; vm_compute; reflexivity].
    apply map_Forall_to_list.
    let l := eval vm_compute in (map_to_list (m_instructionWidth (aggregate s0))) in
    change (map_to_list (m_instructionWidth (aggregate s0))) with l.
    repeat (apply List.Forall_cons; [split; [discriminate|reflexivity]|]).
    apply List.Forall_nil. }
  exists s0, r, (reset (aggregate s0)).
  split; [exact Hrun|]. split; [exact Hend|]. split; [exact Hw|].
  exact (proj1 (proj2 (simd_width_statistics (aggregate s0) r _ Hend Hw))).
Defined.

End widths.

(** ** One invocation after another *)

Section history.
Import FP Spec AIWC Plugin Scenario.





End history.

(** ** Instructions per work-item across a barrier *)

(** Equality of two tuples of counters, component by component. *)
Ltac counters_eq :=
  repeat (apply pair_equal_spec; split);
  first [reflexivity | lia | (repeat f_equal; lia)].

Section barrier.
Import FP Spec AIWC Plugin Scenario Barrier.

Lemma run_cons_worker (s : State) (e : Event) (es : list Event) (st : WorkerState) :
  step s e = Some (mkState (transfers s) (aggregate s) st, []) →
  run s (e :: es) = run (mkState (transfers s) (aggregate s) st) es.
Proof.
  intros E. cbn [run]. rewrite E. cbn.
  by destruct (run _ es) as [[??]|].
Qed.

Lemma run_app_nil (s s' : State) (es es' : list Event) :
  run s es = Some (s', []) → run s (es ++ es') = run s' es'.
Proof.
  intros E. rewrite run_app, E. cbn. by destruct (run s' es') as [[??]|].
Qed.

Lemma run_executed (i : Instruction) (n : nat) :
  conditional_branch i = None →
  ∀ (s : State) ipt itb (w c : Z),
    counters (m_state s) = (true, false, ipt, itb, w, c) →
    0 ≤ w → w + Z.of_nat n < 2 ^ 32 → 0 ≤ c → c + Z.of_nat n < 2 ^ 32 →
    ∃ st, run s (executed i n ++ []) = Some (mkState (transfers s) (aggregate s) st, [])
      ∧ counters st = (true, false, ipt, itb, w + Z.of_nat n, c + Z.of_nat n).
Proof.
  intros Hcb. induction n as [|n IH]; intros s ipt itb w c Hs Hw Hwn Hc Hcn.
  { exists (m_state s). cbn. split; [by destruct s|].
    rewrite Hs. counters_eq. }
  unfold executed. cbn [replicate app]. fold (executed i n).
  unfold counters in Hs. injection Hs as Ha Hp Hipt Hitb Hwic Hic.
  assert (∃ st, instructionExecuted i 1 (m_state s) = Some st
            ∧ counters st = (true, false, ipt, itb, w + 1, c + 1))
    as (st & Hst & Hcounters).
  { unfold instructionExecuted. rewrite Ha, Hp, Hcb.
    cbn [negb mbind option_bind]. eexists. split; [reflexivity|].
    unfold counters. cbn. rewrite Hipt, Hitb, Hwic, Hic.
    rewrite !u32_small by lia. counters_eq. }
  rewrite (run_cons_worker s _ _ st).
  2:{ cbn [step on_worker]. rewrite Hst. done. }
  destruct (IH (mkState (transfers s) (aggregate s) st) ipt itb (w + 1) (c + 1))
    as (st' & Hrun & Hc'); [done|lia..|].
  exists st'. split; [exact Hrun|]. rewrite Hc'. counters_eq.
Qed.

Lemma run_reaches_barrier (i : Instruction) (n : nat) (es : list Event) :
  conditional_branch i = None →
  Z.of_nat n < 2 ^ 32 →
  ∀ (s : State) ipt itb (w c : Z),
    counters (m_state s) = (true, false, ipt, itb, w, c) →
    ∃ st, run s (reaches_barrier i n ++ es)
          = run (mkState (transfers s) (aggregate s) st) es
      ∧ counters st = (true, false, ipt, itb ++ [Z.of_nat n], Z.of_nat n, 0).
Proof.
  intros Hcb Hn s ipt itb w c Hs.
  unfold counters in Hs. injection Hs as Ha Hp Hipt Hitb Hwic Hic.
  unfold reaches_barrier. rewrite <- !app_assoc. cbn [app].
  rewrite (run_cons_worker s _ _ (workItemBegin (m_state s))) by done.
  destruct (run_executed i n Hcb
              (mkState (transfers s) (aggregate s) (workItemBegin (m_state s)))
              ipt itb 0 0) as (st & Hrun & Hc); [|lia..|].
  { unfold counters. cbn. by rewrite Ha, Hp, Hipt, Hitb. }
  rewrite app_nil_r in Hrun. cbn [transfers aggregate] in Hrun.
  rewrite (run_app_nil _ _ _ _ Hrun). cbn [app].
  unfold counters in Hc. injection Hc as Ha' Hp' Hipt' Hitb' Hwic' Hic'.
  assert (workItemBarrier st = Some
            (mkWorker true (computeOps st) (memoryOps st) (branchOps st)
               (instructionsBetweenBarriers st ++ [instruction_count st])
               (instructionWidth st) (instructionsPerWorkitem st)
               (instructionsBetweenLoadOrStore st)
               (loadInstructionLabels st) (storeInstructionLabels st)
               (threads_invoked st) 0 (u32 (barriers_hit st + 1))
               (workitem_instruction_count st) (ops_between_load_or_store st)
               (global_memory_access_count st) (local_memory_access_count st)
               (constant_memory_access_count st)
               (previous_instruction_is_branch st)
               (target1 st) (target2 st) (branch_loc st))) as Hb.
  { unfold workItemBarrier. by rewrite Ha'. }
  eexists. split.
  - apply (run_cons_worker (mkState (transfers s) (aggregate s) st)).
    cbn [step on_worker m_state transfers aggregate]. rewrite Hb. reflexivity.
  - unfold counters. cbn. rewrite Hp', Hipt', Hitb', Hwic', Hic'.
    counters_eq.
Qed.

Lemma run_resumes (i : Instruction) (k : nat) (es : list Event) :
  conditional_branch i = None →
  ∀ (s : State) ipt itb (w c : Z),
    counters (m_state s) = (true, false, ipt, itb, w, c) →
    0 ≤ w → w + Z.of_nat k < 2 ^ 32 →
    ∃ st, run s (resumes i k ++ es)
          = run (mkState (transfers s) (aggregate s) st) es
      ∧ counters st
        = (true, false, ipt ++ [w + Z.of_nat k], itb ++ [Z.of_nat k],
           w + Z.of_nat k, Z.of_nat k).
Proof.
  intros Hcb s ipt itb w c Hs Hw Hwk.
  unfold counters in Hs. injection Hs as Ha Hp Hipt Hitb Hwic Hic.
  unfold resumes. rewrite <- !app_assoc. cbn [app].
  rewrite (run_cons_worker s _ _ (workItemClearBarrier (m_state s))) by done.
  destruct (run_executed i k Hcb
              (mkState (transfers s) (aggregate s)
                 (workItemClearBarrier (m_state s)))
              ipt itb w 0) as (st & Hrun & Hc); [|lia..|].
  { unfold counters. cbn. by rewrite Ha, Hp, Hipt, Hitb, Hwic. }
  rewrite app_nil_r in Hrun. cbn [transfers aggregate] in Hrun.
  rewrite (run_app_nil _ _ _ _ Hrun). cbn [app].
  unfold counters in Hc. injection Hc as Ha' Hp' Hipt' Hitb' Hwic' Hic'.
  assert (workItemComplete st = Some
            (mkWorker true (computeOps st) (memoryOps st) (branchOps st)
               (instructionsBetweenBarriers st ++ [instruction_count st])
               (instructionWidth st)
               (instructionsPerWorkitem st ++ [workitem_instruction_count st])
               (instructionsBetweenLoadOrStore st)
               (loadInstructionLabels st) (storeInstructionLabels st)
               (threads_invoked st) (instruction_count st) (barriers_hit st)
               (workitem_instruction_count st) (ops_between_load_or_store st)
               (global_memory_access_count st) (local_memory_access_count st)
               (constant_memory_access_count st)
               (previous_instruction_is_branch st)
               (target1 st) (target2 st) (branch_loc st))) as Hb.
  { unfold workItemComplete. by rewrite Ha'. }
  eexists. split.
  - apply (run_cons_worker (mkState (transfers s) (aggregate s) st)).
    cbn [step on_worker m_state transfers aggregate]. rewrite Hb. reflexivity.
  - unfold counters. cbn. rewrite Hp', Hipt', Hitb', Hwic', Hic'.
    counters_eq.
Qed.

Lemma run_in_turn (i : Instruction) (n1 k1 n2 k2 : nat) (s : State) :
  conditional_branch i = None →
  Z.of_nat (n1 + k1 + n2 + k2) < 2 ^ 32 →
  ∃ st, run s (in_turn i n1 k1 n2 k2)
        = Some (mkState (transfers s) (aggregate s) st, [])
    ∧ instructionsPerWorkitem st
      = [Z.of_nat n1 + Z.of_nat k1; Z.of_nat n2 + Z.of_nat k2]
    ∧ instructionsBetweenBarriers st
      = [Z.of_nat n1; Z.of_nat k1; Z.of_nat n2; Z.of_nat k2].
Proof.
  intros Hcb Hsum.
  set (s0 := mkState (transfers s) (aggregate s) (workGroupBegin (m_state s))).
  assert (counters (m_state s0)
          = (true, false, [], [],
             workitem_instruction_count (m_state s), 0)) as H0 by reflexivity.
  unfold in_turn. cbn [app].
  rewrite (run_cons_worker s _ _ (workGroupBegin (m_state s))) by done.
  fold s0.
  destruct (run_reaches_barrier i n1
              (resumes i k1 ++ reaches_barrier i n2 ++ resumes i k2)
              Hcb ltac:(lia) s0 _ _ _ _ H0) as (st1 & -> & C1).
  cbn [transfers aggregate s0].
  destruct (run_resumes i k1 (reaches_barrier i n2 ++ resumes i k2) Hcb
              (mkState (transfers s) (aggregate s) st1) _ _ _ _ C1)
    as (st2 & -> & C2); [lia..|].
  cbn [transfers aggregate].
  destruct (run_reaches_barrier i n2 (resumes i k2) Hcb ltac:(lia)
              (mkState (transfers s) (aggregate s) st2) _ _ _ _ C2)
    as (st3 & -> & C3).
  cbn [transfers aggregate].
  rewrite <- (app_nil_r (resumes i k2)).
  destruct (run_resumes i k2 [] Hcb
              (mkState (transfers s) (aggregate s) st3) _ _ _ _ C3)
    as (st4 & -> & C4); [lia..|].
  cbn [transfers aggregate run].
  exists st4. split; [done|].
  unfold counters in C4. injection C4 as _ _ -> -> _ _. done.
Qed.

Lemma run_gathered (i : Instruction) (n1 k1 n2 k2 : nat) (s : State) :
  conditional_branch i = None →
  Z.of_nat (n1 + k1 + n2 + k2) < 2 ^ 32 →
  ∃ st, run s (gathered i n1 k1 n2 k2)
        = Some (mkState (transfers s) (aggregate s) st, [])
    ∧ instructionsPerWorkitem st
      = [Z.of_nat n2 + Z.of_nat k1; Z.of_nat n2 + Z.of_nat k1 + Z.of_nat k2]
    ∧ instructionsBetweenBarriers st
      = [Z.of_nat n1; Z.of_nat n2; Z.of_nat k1; Z.of_nat k2].
Proof.
  intros Hcb Hsum.
  set (s0 := mkState (transfers s) (aggregate s) (workGroupBegin (m_state s))).
  assert (counters (m_state s0)
          = (true, false, [], [],
             workitem_instruction_count (m_state s), 0)) as H0 by reflexivity.
  unfold gathered. cbn [app].
  rewrite (run_cons_worker s _ _ (workGroupBegin (m_state s))) by done.
  fold s0.
  destruct (run_reaches_barrier i n1
              (reaches_barrier i n2 ++ resumes i k1 ++ resumes i k2)
              Hcb ltac:(lia) s0 _ _ _ _ H0) as (st1 & -> & C1).
  cbn [transfers aggregate s0].
  destruct (run_reaches_barrier i n2 (resumes i k1 ++ resumes i k2) Hcb
              ltac:(lia) (mkState (transfers s) (aggregate s) st1) _ _ _ _ C1)
    as (st2 & -> & C2).
  cbn [transfers aggregate].
  destruct (run_resumes i k1 (resumes i k2) Hcb
              (mkState (transfers s) (aggregate s) st2) _ _ _ _ C2)
    as (st3 & -> & C3); [lia..|].
  cbn [transfers aggregate].
  rewrite <- (app_nil_r (resumes i k2)).
  destruct (run_resumes i k2 [] Hcb
              (mkState (transfers s) (aggregate s) st3) _ _ _ _ C3)
    as (st4 & -> & C4); [lia..|].
  cbn [transfers aggregate run].
  exists st4. split; [done|].
  unfold counters in C4. injection C4 as _ _ -> -> _ _. done.
Qed.

Lemma run_completes (i : Instruction) (k : nat) (es : list Event) :
  conditional_branch i = None →
  ∀ (s : State) ipt itb (w c : Z),
    counters (m_state s) = (true, false, ipt, itb, w, c) →
    0 ≤ w → w + Z.of_nat k < 2 ^ 32 → 0 ≤ c → c + Z.of_nat k < 2 ^ 32 →
    ∃ st, run s (completes i k ++ es)
          = run (mkState (transfers s) (aggregate s) st) es
      ∧ counters st
        = (true, false, ipt ++ [w + Z.of_nat k], itb ++ [c + Z.of_nat k],
           w + Z.of_nat k, c + Z.of_nat k).
Proof.
  intros Hcb s ipt itb w c Hs Hw Hwk Hc Hck.
  unfold completes. rewrite <- app_assoc. cbn [app].
  destruct (run_executed i k Hcb s ipt itb w c Hs) as (st & Hrun & Hc');
    [lia..|].
  rewrite app_nil_r in Hrun.
  rewrite (run_app_nil _ _ _ _ Hrun).
  unfold counters in Hc'. injection Hc' as Ha' Hp' Hipt' Hitb' Hwic' Hic'.
  assert (workItemComplete st = Some
            (mkWorker true (computeOps st) (memoryOps st) (branchOps st)
               (instructionsBetweenBarriers st ++ [instruction_count st])
               (instructionWidth st)
               (instructionsPerWorkitem st ++ [workitem_instruction_count st])
               (instructionsBetweenLoadOrStore st)
               (loadInstructionLabels st) (storeInstructionLabels st)
               (threads_invoked st) (instruction_count st) (barriers_hit st)
               (workitem_instruction_count st) (ops_between_load_or_store st)
               (global_memory_access_count st) (local_memory_access_count st)
               (constant_memory_access_count st)
               (previous_instruction_is_branch st)
               (target1 st) (target2 st) (branch_loc st))) as Hb.
  { unfold workItemComplete. by rewrite Ha'. }
  eexists. split.
  - apply (run_cons_worker (mkState (transfers s) (aggregate s) st)).
    cbn [step on_worker m_state transfers aggregate]. rewrite Hb. reflexivity.
  - unfold counters. cbn. rewrite Hp', Hipt', Hitb', Hwic', Hic'.
    counters_eq.
Qed.

Lemma run_clear (es : list Event) :
  ∀ (s : State) ipt itb (w c : Z),
    counters (m_state s) = (true, false, ipt, itb, w, c) →
    ∃ st, run s (WorkItemClearBarrier :: es)
          = run (mkState (transfers s) (aggregate s) st) es
      ∧ counters st = (true, false, ipt, itb, w, 0).
Proof.
  intros s ipt itb w c Hs.
  unfold counters in Hs. injection Hs as Ha Hp Hipt Hitb Hwic Hic.
  exists (workItemClearBarrier (m_state s)). split.
  - by apply run_cons_worker.
  - unfold counters. cbn. by rewrite Ha, Hp, Hipt, Hitb, Hwic.
Qed.

Lemma run_released_together (i : Instruction) (n1 k1 n2 k2 : nat) (s : State) :
  conditional_branch i = None →
  Z.of_nat (n1 + k1 + n2 + k2) < 2 ^ 32 →
  ∃ st, run s (released_together i n1 k1 n2 k2)
        = Some (mkState (transfers s) (aggregate s) st, [])
    ∧ instructionsPerWorkitem st
      = [Z.of_nat n2 + Z.of_nat k1; Z.of_nat n2 + Z.of_nat k1 + Z.of_nat k2]
    ∧ instructionsBetweenBarriers st
      = [Z.of_nat n1; Z.of_nat n2; Z.of_nat k1; Z.of_nat k1 + Z.of_nat k2].
Proof.
  intros Hcb Hsum.
  set (s0 := mkState (transfers s) (aggregate s) (workGroupBegin (m_state s))).
  assert (counters (m_state s0)
          = (true, false, [], [],
             workitem_instruction_count (m_state s), 0)) as H0 by reflexivity.
  unfold released_together. cbn [app].
  rewrite (run_cons_worker s _ _ (workGroupBegin (m_state s))) by done.
  fold s0.
  destruct (run_reaches_barrier i n1
              (reaches_barrier i n2
               ++ WorkItemClearBarrier :: WorkItemClearBarrier
                  :: completes i k1 ++ completes i k2)
              Hcb ltac:(lia) s0 _ _ _ _ H0) as (st1 & -> & C1).
  cbn [transfers aggregate s0].
  destruct (run_reaches_barrier i n2
              (WorkItemClearBarrier :: WorkItemClearBarrier
               :: completes i k1 ++ completes i k2)
              Hcb ltac:(lia) (mkState (transfers s) (aggregate s) st1)
              _ _ _ _ C1) as (st2 & -> & C2).
  cbn [transfers aggregate].
  destruct (run_clear (WorkItemClearBarrier :: completes i k1 ++ completes i k2)
              (mkState (transfers s) (aggregate s) st2) _ _ _ _ C2)
    as (st3 & -> & C3).
  cbn [transfers aggregate].
  destruct (run_clear (completes i k1 ++ completes i k2)
              (mkState (transfers s) (aggregate s) st3) _ _ _ _ C3)
    as (st4 & -> & C4).
  cbn [transfers aggregate].
  destruct (run_completes i k1 (completes i k2) Hcb
              (mkState (transfers s) (aggregate s) st4) _ _ _ _ C4)
    as (st5 & -> & C5); [lia..|].
  cbn [transfers aggregate].
  rewrite <- (app_nil_r (completes i k2)).
  destruct (run_completes i k2 [] Hcb
              (mkState (transfers s) (aggregate s) st5) _ _ _ _ C5)
    as (st6 & -> & C6); [lia..|].
  cbn [transfers aggregate run].
  exists st6. split; [done|].
  unfold counters in C6. injection C6 as _ _ -> -> _ _.
  split; [reflexivity|]. cbn [app]. repeat f_equal; lia.
Qed.

(** X16.  The instructions per work-item and the instructions to barrier
    are read off two counters of the worker thread, not of the work-item:
    [workItemBegin] zeroes both, [workItemBarrier] and
    [workItemClearBarrier] zero the second, [workItemComplete] zeroes
    neither, and none is saved when a work-item waits.  For two work-items
    of one work-group that execute [n1 + k1] and [n2 + k2] instructions
    around one barrier: run one after the other, the vectors hold
    [n1 + k1; n2 + k2] and [n1; k1; n2; k2]; when both wait at the barrier
    and each resumes as soon as its own barrier is cleared, they hold
    [n2 + k1; n2 + k1 + k2] and [n1; n2; k1; k2]; when both are released
    before either resumes, they hold [n2 + k1; n2 + k1 + k2] and
    [n1; n2; k1; k1 + k2]. *)
Theorem per_item_count_follows_worker
    (i : Instruction) (n1 k1 n2 k2 : nat) (s : State) :
  conditional_branch i = None →
  Z.of_nat (n1 + k1 + n2 + k2) < 2 ^ 32 →
  ∃ s1 s2 s3,
    run s (in_turn i n1 k1 n2 k2) = Some (s1, [])
    ∧ run s (gathered i n1 k1 n2 k2) = Some (s2, [])
    ∧ run s (released_together i n1 k1 n2 k2) = Some (s3, [])
    ∧ instructionsPerWorkitem (m_state s1)
      = [Z.of_nat n1 + Z.of_nat k1; Z.of_nat n2 + Z.of_nat k2]
    ∧ instructionsPerWorkitem (m_state s2)
      = [Z.of_nat n2 + Z.of_nat k1; Z.of_nat n2 + Z.of_nat k1 + Z.of_nat k2]
    ∧ instructionsPerWorkitem (m_state s3)
      = [Z.of_nat n2 + Z.of_nat k1; Z.of_nat n2 + Z.of_nat k1 + Z.of_nat k2]
    ∧ instructionsBetweenBarriers (m_state s1)
      = [Z.of_nat n1; Z.of_nat k1; Z.of_nat n2; Z.of_nat k2]
    ∧ instructionsBetweenBarriers (m_state s2)
      = [Z.of_nat n1; Z.of_nat n2; Z.of_nat k1; Z.of_nat k2]
    ∧ instructionsBetweenBarriers (m_state s3)
      = [Z.of_nat n1; Z.of_nat n2; Z.of_nat k1; Z.of_nat k1 + Z.of_nat k2].
Proof.
  intros Hcb Hsum.
  destruct (run_in_turn i n1 k1 n2 k2 s Hcb Hsum) as (st1 & R1 & I1 & B1).
  destruct (run_gathered i n1 k1 n2 k2 s Hcb Hsum) as (st2 & R2 & I2 & B2).
  destruct (run_released_together i n1 k1 n2 k2 s Hcb Hsum)
    as (st3 & R3 & I3 & B3).
  eexists _, _, _. split; [exact R1|]. split; [exact R2|].
  split; [exact R3|]. cbn [m_state].
  split; [exact I1|]. split; [exact I2|]. split; [exact I3|].
  split; [exact B1|]. split; [exact B2|exact B3].
Qed.

Lemma per_item_count_follows_worker_witness :
  ∃ s1 s2 s3,
    run init (in_turn add 4 2 4 2) = Some (s1, [])
    ∧ run init (gathered add 4 2 4 2) = Some (s2, [])
    ∧ run init (released_together add 4 2 4 2) = Some (s3, [])
    ∧ instructionsPerWorkitem (m_state s1) = [4 + 2; 4 + 2]
    ∧ instructionsPerWorkitem (m_state s2) = [4 + 2; 4 + 2 + 2]
    ∧ instructionsPerWorkitem (m_state s3) = [4 + 2; 4 + 2 + 2]
    ∧ instructionsBetweenBarriers (m_state s1) = [4; 2; 4; 2]
    ∧ instructionsBetweenBarriers (m_state s2) = [4; 4; 2; 2]
    ∧ instructionsBetweenBarriers (m_state s3) = [4; 4; 2; 2 + 2].
Proof.
  apply (per_item_count_follows_worker add 4 2 4 2 init); reflexivity.
Defined.

End barrier.

(** ** Opcode counts and width counts count the same instructions *)

Section balance.
Import FP Spec AIWC Plugin Scenario Range.

Lemma total_insert_delete `{Countable K} (m : gmap K Z) (k : K) (x : Z) :
  total (<[k := x]> m) = x + total (delete k m).
Proof.
  unfold total. rewrite <- (insert_delete_eq m k x).
  rewrite (sumZ_Permutation _ _
             (Permutation_map snd (map_to_list_insert _ _ _ (lookup_delete_eq m k)))).
  cbn [map snd]. by rewrite sumZ_cons.
Qed.

Lemma total_delete `{Countable K} (m : gmap K Z) (k : K) :
  total m = default 0 (m !! k) + total (delete k m).
Proof.
  destruct (m !! k) as [y|] eqn:E; cbn.
  - rewrite <- (insert_id m k y E) at 1. apply total_insert_delete.
  - by rewrite delete_id.
Qed.

Lemma total_insert `{Countable K} (m : gmap K Z) (k : K) (x : Z) :
  total (<[k := x]> m) = total m - default 0 (m !! k) + x.
Proof. rewrite total_insert_delete, (total_delete m k). lia. Qed.

Lemma total_empty `{Countable K} : total (∅ : gmap K Z) = 0.
Proof. unfold total. by rewrite map_to_list_empty. Qed.

Lemma total_nonneg `{Countable K} (m : gmap K Z) :
  map_Forall (λ _ c, 0 < c) m → 0 ≤ total m.
Proof.
  intros Hm%map_Forall_to_list. apply sumZ_nonneg.
  change (map ?f ?l) with (f <$> l). apply Forall_fmap.
  eapply Forall_impl; [exact Hm|]. intros [??]. simpl. lia.
Qed.

Lemma total_lookup_le `{Countable K} (m : gmap K Z) (k : K) :
  map_Forall (λ _ c, 0 < c) m → 0 ≤ default 0 (m !! k) ≤ total m.
Proof.
  intros Hm. destruct (m !! k) as [y|] eqn:E; cbn.
  - pose proof (Hm k y E) as Hy. cbn in Hy.
    rewrite (total_delete m k), E. cbn.
    assert (0 ≤ total (delete k m)); [|lia].
    apply total_nonneg. intros j c Hj. apply lookup_delete_Some in Hj as [_ Hj].
    by apply (Hm j c).
  - split; [done|]. by apply total_nonneg.
Qed.

(** [m[k] += v] adds [v] to the total and keeps the counts positive, as
    long as the total stays below [2^64]. *)
Lemma map_add_total `{Countable K} (m : gmap K Z) (k : K) (v : Z) :
  map_Forall (λ _ c, 0 < c) m → 0 < v → total m + v < 2 ^ 64 →
  total (map_add k v m) = total m + v
  ∧ map_Forall (λ _ c, 0 < c) (map_add k v m).
Proof.
  intros Hm Hv Hlt. unfold map_add.
  pose proof (total_lookup_le m k Hm).
  rewrite u64_small by lia. split.
  - rewrite total_insert. lia.
  - apply map_Forall_insert_2; [lia|done].
Qed.

Lemma merge_counts_total `{Countable K} (w m : gmap K Z) :
  map_Forall (λ _ c, 0 < c) m → map_Forall (λ _ c, 0 < c) w →
  total m + total w < 2 ^ 64 →
  total (merge_counts w m) = total m + total w
  ∧ map_Forall (λ _ c, 0 < c) (merge_counts w m).
Proof.
  intros Hm. unfold merge_counts.
  apply (map_fold_weak_ind (λ r w',
    map_Forall (λ _ c, 0 < c) w' → total m + total w' < 2 ^ 64 →
    total r = total m + total w' ∧ map_Forall (λ _ c, 0 < c) r)).
  - intros _ _. rewrite total_empty. split; [lia|done].
  - intros i x w' r Hfresh IH Hw Hlt.
    rewrite total_insert, Hfresh in Hlt. cbn in Hlt.
    assert (0 < x) as Hx by (apply (Hw i x); by rewrite lookup_insert_eq).
    assert (map_Forall (λ _ c, 0 < c) w') as Hw'.
    { intros j c Hj. apply (Hw j c). rewrite lookup_insert_ne; [done|].
      intros ->. congruence. }
    destruct (IH Hw') as [Er Hr]; [lia|].
    destruct (map_add_total r i x Hr Hx) as [E Hpos]; [lia|].
    split; [|done]. rewrite E, Er, total_insert, Hfresh. cbn. lia.
Qed.

Lemma balanced_le ops widths (k k' : Z) :
  k ≤ k' → balanced ops widths k → balanced ops widths k'.
Proof.
  intros Hk (H1 & H2 & H3 & H4). unfold balanced.
  split; [exact H1|]. split; [exact H2|]. split; [exact H3|lia].
Qed.

Lemma balanced_empty (k : Z) : 0 ≤ k → balanced ∅ ∅ k.
Proof.
  intros Hk. unfold balanced.
  split; [apply map_Forall_empty|]. split; [apply map_Forall_empty|].
  rewrite !total_empty. split; [done|lia].
Qed.

Lemma instructionExecuted_balanced instruction num st st' (k : Z) :
  0 ≤ k < 2 ^ 63 →
  balanced (computeOps st) (instructionWidth st) k →
  instructionExecuted instruction num st = Some st' →
  balanced (computeOps st') (instructionWidth st') (k + 1).
Proof.
  intros Hk (Hops & Hw & Heq & Hle) Hst. unfold instructionExecuted in Hst.
  destruct (allocated st); cbn [negb] in Hst; [|done].
  destruct (if previous_instruction_is_branch st then _ else _); [|done].
  cbn in Hst. injection Hst as <-. cbn [computeOps instructionWidth].
  destruct (map_add_total (computeOps st) (getOpcodeName (getOpcode instruction))
              1 Hops) as [E1 P1]; [lia|lia|].
  destruct (map_add_total (instructionWidth st) num 1 Hw) as [E2 P2]; [lia|lia|].
  repeat split; try done; lia.
Qed.

(** Every callback keeps the worker's two maps balanced. *)
Lemma step_balanced_worker (s s' : State) (e : Event) (rs : list Report) (k : Z) :
  0 ≤ k < 2 ^ 63 →
  balanced (computeOps (m_state s)) (instructionWidth (m_state s)) k →
  step s e = Some (s', rs) →
  balanced (computeOps (m_state s')) (instructionWidth (m_state s')) (k + 1).
Proof.
  intros Hk Hb Hstep.
  assert (balanced (computeOps (m_state s)) (instructionWidth (m_state s)) (k + 1))
    as Hb' by (eapply balanced_le; [|exact Hb]; lia).
  destruct e; cbn [step on_worker] in Hstep.
  - destruct (Transfers.kernelBegin name (transfers s)); [|done].
    cbn in Hstep. by injection Hstep as <- <-.
  - destruct (kernelEnd (aggregate s)) as [[r a]|]; [|done].
    cbn in Hstep. by injection Hstep as <- <-.
  - cbn in Hstep. injection Hstep as <- <-. cbn. apply balanced_empty. lia.
  - unfold workGroupComplete in Hstep.
    destruct (allocated (m_state s)); [|done].
    cbn in Hstep. by injection Hstep as <- <-.
  - cbn in Hstep. by injection Hstep as <- <-.
  - unfold workItemComplete in Hstep.
    destruct (allocated (m_state s)); [|done].
    cbn in Hstep. by injection Hstep as <- <-.
  - unfold workItemBarrier in Hstep.
    destruct (allocated (m_state s)); [|done].
    cbn in Hstep. by injection Hstep as <- <-.
  - cbn in Hstep. by injection Hstep as <- <-.
  - destruct (instructionExecuted instruction num (m_state s)) as [st|] eqn:E;
      [|done].
    cbn in Hstep. injection Hstep as <- <-. cbn [m_state].
    by eapply instructionExecuted_balanced.
  - unfold memoryLoad in Hstep.
    destruct (bool_decide _), (allocated (m_state s)); try done;
      cbn in Hstep; by injection Hstep as <- <-.
  - unfold memoryStore, memoryLoad in Hstep.
    destruct (bool_decide _), (allocated (m_state s)); try done;
      cbn in Hstep; by injection Hstep as <- <-.
  - unfold memoryAtomicLoad in Hstep.
    destruct (bool_decide _), (allocated (m_state s)); try done;
      cbn in Hstep; by injection Hstep as <- <-.
  - unfold memoryAtomicStore, memoryAtomicLoad in Hstep.
    destruct (bool_decide _), (allocated (m_state s)); try done;
      cbn in Hstep; by injection Hstep as <- <-.
  - by injection Hstep as <- <-.
  - by injection Hstep as <- <-.
Qed.

(** Every callback but [kernelEnd] keeps the aggregate's two maps
    balanced. *)
Lemma step_balanced_aggregate (s s' : State) (e : Event) (rs : list Report) (k : Z) :
  0 ≤ k < 2 ^ 31 →
  (∀ name, e ≠ KernelEnd name) →
  balanced (computeOps (m_state s)) (instructionWidth (m_state s)) k →
  balanced (m_computeOps (aggregate s)) (m_instructionWidth (aggregate s)) (k * k) →
  step s e = Some (s', rs) →
  balanced (m_computeOps (aggregate s')) (m_instructionWidth (aggregate s'))
    ((k + 1) * (k + 1)).
Proof.
  intros Hk Hne Hw Hb Hstep.
  assert (balanced (m_computeOps (aggregate s)) (m_instructionWidth (aggregate s))
            ((k + 1) * (k + 1)))
    as Hb' by (eapply balanced_le; [|exact Hb]; nia).
  destruct e; cbn [step on_worker] in Hstep.
  - destruct (Transfers.kernelBegin name (transfers s)); [|done].
    cbn in Hstep. injection Hstep as <- <-. cbn. apply balanced_empty. nia.
  - by destruct (Hne name).
  - cbn in Hstep. by injection Hstep as <- <-.
  - unfold workGroupComplete in Hstep.
    destruct (allocated (m_state s)); [|done].
    cbn in Hstep. injection Hstep as <- <-.
    cbn [aggregate merge_into m_computeOps m_instructionWidth].
    destruct Hw as (W1 & W2 & W3 & W4). destruct Hb as (A1 & A2 & A3 & A4).
    assert (k * k < 2 ^ 62) by nia.
    destruct (merge_counts_total (computeOps (m_state s))
                (m_computeOps (aggregate s)) A1 W1) as [E1 P1]; [lia|].
    destruct (merge_counts_total (instructionWidth (m_state s))
                (m_instructionWidth (aggregate s)) A2 W2) as [E2 P2]; [lia|].
    unfold balanced. split; [exact P1|]. split; [exact P2|].
    split; [lia|nia].
  - cbn in Hstep. by injection Hstep as <- <-.
  - destruct (workItemComplete (m_state s)); [|done].
    cbn in Hstep. by injection Hstep as <- <-.
  - destruct (workItemBarrier (m_state s)); [|done].
    cbn in Hstep. by injection Hstep as <- <-.
  - cbn in Hstep. by injection Hstep as <- <-.
  - destruct (instructionExecuted instruction num (m_state s)); [|done].
    cbn in Hstep. by injection Hstep as <- <-.
  - destruct (memoryLoad addressSpace address (m_state s)); [|done].
    cbn in Hstep. by injection Hstep as <- <-.
  - destruct (memoryStore addressSpace address (m_state s)); [|done].
    cbn in Hstep. by injection Hstep as <- <-.
  - destruct (memoryAtomicLoad addressSpace address (m_state s)); [|done].
    cbn in Hstep. by injection Hstep as <- <-.
  - destruct (memoryAtomicStore addressSpace address (m_state s)); [|done].
    cbn in Hstep. by injection Hstep as <- <-.
  - by injection Hstep as <- <-.
  - by injection Hstep as <- <-.
Qed.

Lemma run_balanced_worker (es : list Event) : ∀ (s s' : State) rs (k : Z),
  0 ≤ k → k + Z.of_nat (length es) < 2 ^ 63 →
  balanced (computeOps (m_state s)) (instructionWidth (m_state s)) k →
  run s es = Some (s', rs) →
  balanced (computeOps (m_state s')) (instructionWidth (m_state s'))
    (k + Z.of_nat (length es)).
Proof.
  induction es as [|e es IH]; intros s s' rs k Hk Hlen Hb Hrun.
  { cbn in Hrun. injection Hrun as <- <-. cbn. by rewrite Z.add_0_r. }
  cbn [run] in Hrun. cbn [length] in Hlen |- *.
  destruct (step s e) as [[t q]|] eqn:E; [|done]. cbn in Hrun.
  destruct (run t es) as [[u p]|] eqn:R; [|done].
  cbn in Hrun. injection Hrun as <- <-.
  replace (k + Z.of_nat (S (length es))) with (k + 1 + Z.of_nat (length es)) by lia.
  apply (IH t u p (k + 1)); [lia|lia| |done].
  eapply step_balanced_worker; [|exact Hb|exact E]. lia.
Qed.

Lemma run_balanced_aggregate (es : list Event) : ∀ (s s' : State) rs (k : Z),
  0 ≤ k → k + Z.of_nat (length es) < 2 ^ 31 →
  Forall (λ e, ∀ name, e ≠ KernelEnd name) es →
  balanced (computeOps (m_state s)) (instructionWidth (m_state s)) k →
  balanced (m_computeOps (aggregate s)) (m_instructionWidth (aggregate s)) (k * k) →
  run s es = Some (s', rs) →
  balanced (m_computeOps (aggregate s')) (m_instructionWidth (aggregate s'))
    ((k + Z.of_nat (length es)) * (k + Z.of_nat (length es))).
Proof.
  induction es as [|e es IH]; intros s s' rs k Hk Hlen Hne Hw Hb Hrun.
  { cbn in Hrun. injection Hrun as <- <-. cbn. by rewrite Z.add_0_r. }
  cbn [run] in Hrun. cbn [length] in Hlen |- *.
  destruct (step s e) as [[t q]|] eqn:E; [|done]. cbn in Hrun.
  destruct (run t es) as [[u p]|] eqn:R; [|done].
  cbn in Hrun. injection Hrun as <- <-.
  inversion Hne as [|?? He Hes]; subst.
  replace (k + Z.of_nat (S (length es))) with (k + 1 + Z.of_nat (length es)) by lia.
  apply (IH t u p (k + 1)); [lia|lia|done| | |done].
  - eapply step_balanced_worker; [|exact Hw|exact E]. lia.
  - eapply step_balanced_aggregate; [|exact He|exact Hw|exact Hb|exact E]. lia.
Qed.

Lemma simd_num_total (a : Aggregate) :
  map_Forall (λ _ c, 0 < c) (m_instructionWidth a) →
  total (m_instructionWidth a) < 2 ^ 63 →
  simd_num a = total (m_instructionWidth a).
Proof.
  intros Hpos%map_Forall_to_list Hlt. unfold simd_num, total in *.
  rewrite map_fold_foldr.
  induction Hpos as [|[k v] l Hv Hl IH]; [done|].
  cbn [map foldr uncurry fst snd] in *. rewrite sumZ_cons in *. cbn in Hv.
  assert (0 ≤ sumZ (map snd l)).
  { apply sumZ_nonneg. change (map ?f ?l) with (f <$> l). apply Forall_fmap.
    eapply Forall_impl; [exact Hl|]. intros [??]. simpl. lia. }
  rewrite IH by lia. unfold s64. rewrite Z.mod_small; lia.
Qed.

Lemma total_instruction_count_total (a : Aggregate) :
  map_Forall (λ _ c, 0 < c) (m_computeOps a) →
  total (m_computeOps a) < 2 ^ 64 →
  total_instruction_count a = total (m_computeOps a).
Proof.
  intros Hpos Hlt. unfold total_instruction_count, operation_count, sorted_ops.
  rewrite foldl_u64_sum_0.
  rewrite (sumZ_Permutation _ _ (sorted_desc_Permutation _)).
  apply u64_small. split; [by apply total_nonneg|done].
Qed.

(** X17.  In every report of a kernel that was begun with [kernelBegin],
    whatever ran before and however its work-groups were scheduled, the
    opcode table and the width table have counted the same instructions:
    the mean SIMD width is the operand sum over the total instruction
    count, which is not zero, and hence the reciprocal of the instructions
    per operand.  The callbacks of the kernel are any sequence without a
    [kernelEnd], fewer than [2^31] in all. *)
Theorem mean_width_is_operands_per_instruction
    (es0 es : list Event) (name : string) (s0 s1 : State)
    (rs0 rs1 : list Report) (r : Report) (a' : Aggregate) :
  run init es0 = Some (s0, rs0) →
  Forall (λ e, ∀ name', e ≠ KernelEnd name') es →
  run s0 (KernelBegin name :: es) = Some (s1, rs1) →
  kernelEnd (aggregate s1) = Some (r, a') →
  Z.of_nat (length es0) + Z.of_nat (length es) + 1 < 2 ^ 31 →
  0 < rep_total_instruction_count r
  ∧ rep_simd_mean r
    = ddiv (of_Z (rep_simd_sum r)) (of_Z (rep_total_instruction_count r))
  ∧ rep_instructions_per_operand r
    = ddiv (of_Z (rep_total_instruction_count r)) (of_Z (rep_simd_sum r)).
Proof.
  intros Hrun0 Hne Hrun Hend Hlen.
  assert (balanced (computeOps (m_state init)) (instructionWidth (m_state init)) 0)
    as Hinit by (apply balanced_empty; lia).
  pose proof (run_balanced_worker es0 init s0 rs0 0 ltac:(lia) ltac:(lia)
                Hinit Hrun0) as Hw0.
  rewrite Z.add_0_l in Hw0.
  cbn [run] in Hrun.
  destruct (step s0 (KernelBegin name)) as [[t q]|] eqn:E; [|done].
  cbn in Hrun. destruct (run t es) as [[u p]|] eqn:R; [|done].
  cbn in Hrun. injection Hrun as <- <-.
  set (k := Z.of_nat (length es0)) in *.
  assert (balanced (computeOps (m_state t)) (instructionWidth (m_state t)) (k + 1))
    as Hwt by (eapply step_balanced_worker; [|exact Hw0|exact E]; lia).
  assert (balanced (m_computeOps (aggregate t)) (m_instructionWidth (aggregate t))
            ((k + 1) * (k + 1))) as Hat.
  { cbn [step] in E.
    destruct (Transfers.kernelBegin name (transfers s0)); [|done].
    cbn in E. injection E as <- <-. cbn. apply balanced_empty. nia. }
  pose proof (run_balanced_aggregate es t u p (k + 1) ltac:(lia) ltac:(lia)
                Hne Hwt Hat R) as (A1 & A2 & A3 & A4).
  set (K := k + 1 + Z.of_nat (length es)) in *.
  assert (K * K < 2 ^ 62) by nia.
  pose proof (kernelEnd_nonempty _ _ _ Hend) as (_ & _ & Hwne).
  apply kernelEnd_inv in Hend.
  destruct Hend as (major & i1 & i2 & i3 & p1 & p2 & p3 & z1 & z2 & um & ub & Hend).
  destruct Hend as (_ & _ & _ & _ & _ & _ & _ & _ & _ & _ & _ & _ & _ & ->).
  cbn [rep_total_instruction_count rep_simd_mean rep_simd_sum
       rep_instructions_per_operand].
  rewrite total_instruction_count_total by (done || lia).
  assert (0 < total (m_instructionWidth (aggregate u))) as Hpos.
  { apply map_Forall_to_list in A2. unfold total.
    destruct (map_to_list (m_instructionWidth (aggregate u))) as [|[w c] l] eqn:El.
    { by apply map_to_list_empty_iff in El. }
    inversion A2 as [|?? Hc Hl]; subst. cbn [map snd]. rewrite sumZ_cons.
    cbn in Hc.
    assert (0 ≤ sumZ (map snd l)); [|cbn; lia].
    apply sumZ_nonneg. change (map ?f ?l) with (f <$> l). apply Forall_fmap.
    eapply Forall_impl; [exact Hl|]. intros [??]. simpl. lia. }
  split; [lia|]. split.
  - unfold simd_mean. rewrite simd_num_total by (done || lia). by rewrite A3.
  - unfold instructions_per_operand.
    by rewrite total_instruction_count_total by (done || lia).
Qed.

Lemma mean_width_is_operands_per_instruction_witness :
  ∃ s r a',
    run init load_and_barrier_kernel = Some (s, [])
    ∧ kernelEnd (aggregate s) = Some (r, a')
    ∧ 0 < rep_total_instruction_count r
    ∧ rep_simd_mean r
      = ddiv (of_Z (rep_simd_sum r)) (of_Z (rep_total_instruction_count r)).
Proof.
  run_prefix load_and_barrier_kernel s0 Hrun.
  report_of (aggregate s0) r Hend.
  exists s0, r, (reset (aggregate s0)).
  split; [exact Hrun|]. split; [exact Hend|].
  pose (es := [WorkGroupBegin; WorkItemBegin;
               InstructionExecuted load_global 1; MemoryLoad AddrSpaceGlobal 4096;
               WorkItemBarrier; WorkItemClearBarrier;
               InstructionExecuted ret 1;
               WorkItemComplete; WorkGroupComplete]).
  assert (Forall (λ e, ∀ name', e ≠ KernelEnd name') es) as Hne.
  { repeat (apply List.Forall_cons; [intros ?; discriminate|]).
    apply List.Forall_nil. }
  destruct (mean_width_is_operands_per_instruction [] es "K" init s0 [] [] r
              (reset (aggregate s0)) eq_refl Hne Hrun Hend eq_refl)
    as (Hpos & Hmean & _).
  split; [exact Hpos|exact Hmean].
Defined.

End balance.

(** ** The names of the files written *)

Section logfile.
Import Logfile.

Lemma string_length_app (s t : string) :
  String.length (s +:+ t) = (String.length s + String.length t)%nat.
Proof. induction s as [|a s IH]; simpl; [done|]. f_equal. exact IH. Qed.

Lemma string_app_inv_tail (s1 s2 t : string) : s1 +:+ t = s2 +:+ t → s1 = s2.
Proof.
  revert s2. induction s1 as [|a s1 IH]; intros [|b s2] E.
  - done.
  - apply (f_equal String.length) in E.
    rewrite !string_length_app in E. simpl in E. lia.
  - apply (f_equal String.length) in E.
    rewrite !string_length_app in E. simpl in E. lia.
  - simpl in E. injection E as -> E. f_equal. by apply IH.
Qed.

#[local] Instance logfile_name_inj kernel : Inj (=) (=) (logfile_name kernel).
Proof.
  intros c1 c2 E. unfold logfile_name in E.
  do 3 apply String.app_inj in E.
  apply string_app_inv_tail in E. by apply pretty_Z_inj in E.
Qed.

#[local] Instance transfers_logfile_name_inj : Inj (=) (=) transfers_logfile_name.
Proof.
  intros c1 c2 E. unfold transfers_logfile_name in E.
  apply String.app_inj in E.
  apply string_app_inv_tail in E. by apply pretty_Z_inj in E.
Qed.

(** Names that are all present are no more than the files present. *)
Lemma present_names_le (files : gset string) (name : Z → string) (c : Z) :
  Inj (=) (=) name → 0 ≤ c →
  (∀ j, 0 ≤ j < c → name j ∈ files) →
  c ≤ Z.of_nat (size files).
Proof.
  intros Hinj Hc Hall.
  set (l := (λ j : nat, name (Z.of_nat j)) <$> seq 0 (Z.to_nat c)).
  assert (NoDup l) as Hnd.
  { apply NoDup_fmap_2; [|apply NoDup_seq].
    intros i j E. apply Hinj in E. lia. }
  assert (list_to_set l ⊆ files) as Hsub.
  { intros f Hf. apply elem_of_list_to_set in Hf.
    apply list_elem_of_fmap in Hf as (j & -> & Hj).
    apply elem_of_seq in Hj. apply Hall. lia. }
  apply subseteq_size in Hsub.
  rewrite size_list_to_set in Hsub by done.
  unfold l in Hsub. rewrite length_fmap, length_seq in Hsub. lia.
Qed.

Lemma first_free_spec (files : gset string) (name : Z → string) :
  Inj (=) (=) name →
  ∀ (fuel : nat) (c : Z),
    0 ≤ c →
    (∀ j, 0 ≤ j < c → name j ∈ files) →
    Z.of_nat (size files) < c + Z.of_nat fuel →
    c + Z.of_nat fuel < 2 ^ 31 →
    ∃ c', first_free fuel (λ f, bool_decide (f ∈ files)) name c = Some c'
      ∧ c ≤ c' ≤ Z.of_nat (size files)
      ∧ (name c' ∉ files)
      ∧ ∀ j, 0 ≤ j < c' → name j ∈ files.
Proof.
  intros Hinj. induction fuel as [|fuel IH]; intros c Hc Hall Hfuel Hint.
  { pose proof (present_names_le files name c Hinj Hc Hall). lia. }
  cbn [first_free]. destruct (decide (name c ∈ files)) as [Hin|Hout].
  - rewrite bool_decide_eq_true_2 by done.
    rewrite s32_small by lia.
    destruct (IH (c + 1)) as (c' & E & Hle & Hfree & Hbelow); [lia| |lia|lia|].
    { intros j Hj. destruct (decide (j = c)) as [->|]; [done|].
      apply Hall. lia. }
    exists c'. split; [done|]. split; [lia|]. done.
  - rewrite bool_decide_eq_false_2 by done.
    pose proof (present_names_le files name c Hinj Hc Hall).
    exists c. split; [done|]. split; [lia|]. done.
Qed.

(** X19.  The file that [kernelEnd] writes for a kernel, and the transfers
    file of the destructor: with [n] files that can be opened, the loop
    stops within [n + 1] tests, at the smallest count whose name cannot be
    opened.  The count is at most [n], every smaller count names a file
    that is present, and the file written is not one of the present
    files. *)
Theorem logfile_is_first_free (files : gset string) (kernel : string) (fuel : nat) :
  (size files < fuel)%nat →
  Z.of_nat fuel < 2 ^ 31 →
  (∃ c, first_free fuel (λ f, bool_decide (f ∈ files)) (logfile_name kernel) 0
        = Some c
     ∧ 0 ≤ c ≤ Z.of_nat (size files)
     ∧ (logfile_name kernel c ∉ files)
     ∧ ∀ j, 0 ≤ j < c → logfile_name kernel j ∈ files)
  ∧ (∃ c, first_free fuel (λ f, bool_decide (f ∈ files)) transfers_logfile_name 0
          = Some c
       ∧ 0 ≤ c ≤ Z.of_nat (size files)
       ∧ (transfers_logfile_name c ∉ files)
       ∧ ∀ j, 0 ≤ j < c → transfers_logfile_name j ∈ files).
Proof.
  intros Hfuel Hint. split.
  - apply (first_free_spec files (logfile_name kernel) _ fuel 0);
      [done| |lia|lia].
    intros j Hj. lia.
  - apply (first_free_spec files transfers_logfile_name _ fuel 0);
      [done| |lia|lia].
    intros j Hj. lia.
Qed.

Lemma logfile_is_first_free_witness :
  ∃ c,
    first_free 3
      (λ f, bool_decide (f ∈ ({["aiwc_K_0.csv"; "aiwc_K_1.csv"]} : gset string)))
      (logfile_name "K") 0 = Some c
    ∧ 0 ≤ c ≤ Z.of_nat (size ({["aiwc_K_0.csv"; "aiwc_K_1.csv"]} : gset string))
    ∧ (logfile_name "K" c ∉ ({["aiwc_K_0.csv"; "aiwc_K_1.csv"]} : gset string))
    ∧ ∀ j, 0 ≤ j < c →
        logfile_name "K" j ∈ ({["aiwc_K_0.csv"; "aiwc_K_1.csv"]} : gset string).
Proof.
  apply (logfile_is_first_free {["aiwc_K_0.csv"; "aiwc_K_1.csv"]} "K" 3).
  - vm_compute. lia.
  - reflexivity.
Defined.

End logfile.

(** ** What one work-group adds to the aggregate *)

Section contribution.
Import FP Spec AIWC Plugin Scenario Contribution.

Lemma u32_add_congr (a x y : Z) : u32 x = u32 y → u32 (a + x) = u32 (a + y).
Proof.
  unfold u32. intros E.
  rewrite (Z.add_mod a x), (Z.add_mod a y) by lia. by rewrite E.
Qed.

Lemma u32_u32 (x : Z) : u32 (u32 x) = u32 x.
Proof. unfold u32. apply Z.mod_mod. lia. Qed.

Lemma number_of_cons (p : Event → bool) (e : Event) (es : list Event) :
  number_of p (e :: es) = (if p e then 1 else 0) + number_of p es.
Proof.
  unfold number_of. rewrite filter_cons.
  destruct (p e); [rewrite decide_True by done|rewrite decide_False by done];
    cbn [length]; lia.
Qed.

(** One callback of a work-group. *)
Lemma step_inside (s s' : State) (e : Event) (rs : list Report) :
  inside_group e = true →
  step s e = Some (s', rs) →
  rs = []
  ∧ aggregate s' = aggregate s
  ∧ memoryOps (m_state s') = memoryOps (m_state s) ++ recorded e
  ∧ threads_invoked (m_state s')
    = (if is_item_begin e then u32 (threads_invoked (m_state s) + 1)
       else threads_invoked (m_state s))
  ∧ barriers_hit (m_state s')
    = (if is_barrier e then u32 (barriers_hit (m_state s) + 1)
       else barriers_hit (m_state s))
  ∧ global_memory_access_count (m_state s')
    = (if accesses AddrSpaceGlobal e
       then u32 (global_memory_access_count (m_state s) + 1)
       else global_memory_access_count (m_state s))
  ∧ local_memory_access_count (m_state s')
    = (if accesses AddrSpaceLocal e
       then u32 (local_memory_access_count (m_state s) + 1)
       else local_memory_access_count (m_state s))
  ∧ constant_memory_access_count (m_state s')
    = (if accesses AddrSpaceConstant e
       then u32 (constant_memory_access_count (m_state s) + 1)
       else constant_memory_access_count (m_state s))
  ∧ allocated (m_state s') = allocated (m_state s).
Proof.
  intros Hin Hstep.
  destruct e; try discriminate Hin; cbn [step on_worker] in Hstep.
  - cbn in Hstep. injection Hstep as <- <-. cbn. by rewrite app_nil_r.
  - unfold workItemComplete in Hstep.
    destruct (allocated (m_state s)) eqn:Ea; [|done].
    cbn in Hstep. injection Hstep as <- <-. cbn. by rewrite app_nil_r.
  - unfold workItemBarrier in Hstep.
    destruct (allocated (m_state s)) eqn:Ea; [|done].
    cbn in Hstep. injection Hstep as <- <-. cbn. by rewrite app_nil_r.
  - cbn in Hstep. injection Hstep as <- <-. cbn. by rewrite app_nil_r.
  - unfold instructionExecuted in Hstep.
    destruct (allocated (m_state s)) eqn:Ea; [|done]. cbn [negb] in Hstep.
    destruct (if previous_instruction_is_branch (m_state s) then _ else _);
      [|done].
    cbn in Hstep. injection Hstep as <- <-.
    cbn [m_state aggregate memoryOps threads_invoked barriers_hit
         global_memory_access_count local_memory_access_count
         constant_memory_access_count allocated recorded is_item_begin
         is_barrier accesses].
    rewrite app_nil_r.
    destruct (getOpcode instruction); cbn [andb]; repeat split.
  - unfold memoryLoad in Hstep. cbn [recorded].
    destruct (bool_decide (addressSpace ≠ AddrSpacePrivate)).
    + destruct (allocated (m_state s)) eqn:Ea; [|done].
      cbn in Hstep. injection Hstep as <- <-. cbn. by rewrite Ea.
    + cbn in Hstep. injection Hstep as <- <-. cbn. by rewrite app_nil_r.
  - unfold memoryStore, memoryLoad in Hstep. cbn [recorded].
    destruct (bool_decide (addressSpace ≠ AddrSpacePrivate)).
    + destruct (allocated (m_state s)) eqn:Ea; [|done].
      cbn in Hstep. injection Hstep as <- <-. cbn. by rewrite Ea.
    + cbn in Hstep. injection Hstep as <- <-. cbn. by rewrite app_nil_r.
  - unfold memoryAtomicLoad in Hstep. cbn [recorded].
    change AddrSpacePrivate with 0.
    destruct (bool_decide (addressSpace ≠ 0)).
    + destruct (allocated (m_state s)) eqn:Ea; [|done].
      cbn in Hstep. injection Hstep as <- <-. cbn. by rewrite Ea.
    + cbn in Hstep. injection Hstep as <- <-. cbn. by rewrite app_nil_r.
  - unfold memoryAtomicStore, memoryAtomicLoad in Hstep. cbn [recorded].
    change AddrSpacePrivate with 0.
    destruct (bool_decide (addressSpace ≠ 0)).
    + destruct (allocated (m_state s)) eqn:Ea; [|done].
      cbn in Hstep. injection Hstep as <- <-. cbn. by rewrite Ea.
    + cbn in Hstep. injection Hstep as <- <-. cbn. by rewrite app_nil_r.
  - injection Hstep as <- <-. cbn. by rewrite app_nil_r.
  - injection Hstep as <- <-. cbn. by rewrite app_nil_r.
Qed.

Lemma u32_count_step (p : bool) (x n : Z) :
  u32 ((if p then u32 (x + 1) else x) + n) = u32 (x + ((if p then 1 else 0) + n)).
Proof.
  destruct p; [|f_equal; lia].
  rewrite u32_add_idemp. f_equal. lia.
Qed.

(** The callbacks of a work-group, one after the other. *)
Lemma run_inside (es : list Event) : ∀ (s s' : State) (rs : list Report),
  Forall (λ e, inside_group e = true) es →
  run s es = Some (s', rs) →
  rs = []
  ∧ aggregate s' = aggregate s
  ∧ memoryOps (m_state s') = memoryOps (m_state s) ++ (es ≫= recorded)
  ∧ u32 (threads_invoked (m_state s'))
    = u32 (threads_invoked (m_state s) + number_of is_item_begin es)
  ∧ u32 (barriers_hit (m_state s'))
    = u32 (barriers_hit (m_state s) + number_of is_barrier es)
  ∧ u32 (global_memory_access_count (m_state s'))
    = u32 (global_memory_access_count (m_state s)
           + number_of (accesses AddrSpaceGlobal) es)
  ∧ u32 (local_memory_access_count (m_state s'))
    = u32 (local_memory_access_count (m_state s)
           + number_of (accesses AddrSpaceLocal) es)
  ∧ u32 (constant_memory_access_count (m_state s'))
    = u32 (constant_memory_access_count (m_state s)
           + number_of (accesses AddrSpaceConstant) es)
  ∧ allocated (m_state s') = allocated (m_state s).
Proof.
  induction es as [|e es IH]; intros s s' rs Hin Hrun.
  { cbn in Hrun. injection Hrun as <- <-. cbn.
    rewrite app_nil_r, !Z.add_0_r. done. }
  inversion Hin as [|?? He Hes]; subst.
  cbn [run] in Hrun.
  destruct (step s e) as [[t q]|] eqn:E; [|done]. cbn in Hrun.
  destruct (run t es) as [[u p]|] eqn:R; [|done].
  cbn in Hrun. injection Hrun as <- <-.
  destruct (step_inside s t e q He E)
    as (-> & Ha & Hm & Ht & Hb & Hg & Hl & Hc & Hal).
  destruct (IH t u p Hes R)
    as (-> & Ha' & Hm' & Ht' & Hb' & Hg' & Hl' & Hc' & Hal').
  rewrite !number_of_cons.
  split; [done|]. split; [congruence|].
  split; [rewrite Hm', Hm; cbn [mbind list_bind]; by rewrite app_assoc|].
  split; [rewrite Ht', Ht; apply u32_count_step|].
  split; [rewrite Hb', Hb; apply u32_count_step|].
  split; [rewrite Hg', Hg; apply u32_count_step|].
  split; [rewrite Hl', Hl; apply u32_count_step|].
  split; [rewrite Hc', Hc; apply u32_count_step|].
  congruence.
Qed.

(** X20.  What a work-group adds to the aggregate, read off its callbacks:
    the addresses of its loads, stores and atomics outside the private
    address space, in the order of the callbacks, the number of its
    [workItemBegin] to the work-items, the number of its barriers to the
    barriers hit, and to the global, local and constant access counts the
    executed loads and stores whose pointer is in that address space; the
    counters are added in [unsigned].  No report is emitted and the worker's
    memory operations are empty afterwards. *)
Theorem work_group_contribution
    (s s' : State) (es : list Event) (rs : list Report) :
  Forall (λ e, inside_group e = true) es →
  run s (WorkGroupBegin :: es ++ [WorkGroupComplete]) = Some (s', rs) →
  rs = []
  ∧ m_memoryOps (aggregate s') = m_memoryOps (aggregate s) ++ (es ≫= recorded)
  ∧ m_threads_invoked (aggregate s')
    = u32 (m_threads_invoked (aggregate s) + number_of is_item_begin es)
  ∧ m_barriers_hit (aggregate s')
    = u32 (m_barriers_hit (aggregate s) + number_of is_barrier es)
  ∧ m_global_memory_access (aggregate s')
    = u32 (m_global_memory_access (aggregate s)
           + number_of (accesses AddrSpaceGlobal) es)
  ∧ m_local_memory_access (aggregate s')
    = u32 (m_local_memory_access (aggregate s)
           + number_of (accesses AddrSpaceLocal) es)
  ∧ m_constant_memory_access (aggregate s')
    = u32 (m_constant_memory_access (aggregate s)
           + number_of (accesses AddrSpaceConstant) es)
  ∧ memoryOps (m_state s') = [].
Proof.
  intros Hin Hrun.
  rewrite (run_cons_worker s _ _ (workGroupBegin (m_state s))) in Hrun by done.
  set (s0 := mkState (transfers s) (aggregate s) (workGroupBegin (m_state s))) in *.
  rewrite run_app in Hrun.
  destruct (run s0 es) as [[t q]|] eqn:R; cbn [mbind option_bind] in Hrun; [|done].
  destruct (run_inside es s0 t q Hin R)
    as (-> & Ha & Hm & Ht & Hb & Hg & Hl & Hc & Hal).
  cbn [run step] in Hrun.
  unfold workGroupComplete in Hrun. rewrite Hal in Hrun.
  cbn in Hrun. injection Hrun as <- <-.
  cbn [aggregate m_state merge_into m_memoryOps m_threads_invoked
       m_barriers_hit m_global_memory_access m_local_memory_access
       m_constant_memory_access set_memoryOps memoryOps].
  rewrite Ha. cbn [s0 aggregate].
  cbn [s0 m_state workGroupBegin memoryOps threads_invoked barriers_hit
       global_memory_access_count local_memory_access_count
       constant_memory_access_count] in Hm, Ht, Hb, Hg, Hl, Hc.
  rewrite Z.add_0_l in Ht, Hb, Hg, Hl, Hc.
  split; [done|]. split; [by rewrite Hm|].
  split; [by apply u32_add_congr|]. split; [by apply u32_add_congr|].
  split; [by apply u32_add_congr|]. split; [by apply u32_add_congr|].
  split; [by apply u32_add_congr|done].
Qed.

Lemma work_group_contribution_witness :
  ∃ s s',
    run init [KernelBegin "K"] = Some (s, [])
    ∧ run s (WorkGroupBegin
             :: [WorkItemBegin; InstructionExecuted load_global 1;
                 MemoryLoad AddrSpaceGlobal 4096; MemoryLoad AddrSpacePrivate 8;
                 WorkItemBarrier; WorkItemClearBarrier;
                 InstructionExecuted ret 1; WorkItemComplete]
             ++ [WorkGroupComplete]) = Some (s', [])
    ∧ m_memoryOps (aggregate s') = [] ++ [4096]
    ∧ m_threads_invoked (aggregate s') = u32 (0 + 1)
    ∧ m_barriers_hit (aggregate s') = u32 (0 + 1)
    ∧ m_global_memory_access (aggregate s') = u32 (0 + 1).
Proof.
  run_prefix [KernelBegin "K"] s0 Hbegin.
  exists s0. eexists. split; [exact Hbegin|].
  split; [vm_compute; reflexivity|].
  match goal with |- m_memoryOps (aggregate ?x) = _ ∧ _ => set (s' := x) end.
  pose (es := [WorkItemBegin; InstructionExecuted load_global 1;
               MemoryLoad AddrSpaceGlobal 4096; MemoryLoad AddrSpacePrivate 8;
               WorkItemBarrier; WorkItemClearBarrier;
               InstructionExecuted ret 1; WorkItemComplete]).
  assert (Forall (λ e, inside_group e = true) es) as Hin.
  { repeat (apply List.Forall_cons; [reflexivity|]). apply List.Forall_nil. }
  assert (run s0 (WorkGroupBegin :: es ++ [WorkGroupComplete]) = Some (s', []))
    as Hrun by (vm_compute; reflexivity).
  destruct (work_group_contribution s0 s' es [] Hin Hrun)
    as (_ & Hm & Ht & Hb & Hg & _).
  split; [exact Hm|]. split; [exact Ht|]. split; [exact Hb|exact Hg].
Defined.

End contribution.

(** ** The freedom to reorder is never between 0 and 1 *)

Section reorder.
Import FP Spec AIWC Plugin Scenario.

Lemma sumZ_ge_length (l : list Z) :
  Forall (λ x, 1 ≤ x) l → Z.of_nat (length l) ≤ sumZ l.
Proof.
  induction 1 as [|x l Hx Hl IH]; [done|].
  cbn [length]. rewrite sumZ_cons. lia.
Qed.

Lemma freedom_to_reorder_ge_1 (a : Aggregate) :
  Forall (λ x, 1 ≤ x) (m_instructionsBetweenLoadOrStore a) →
  freedom_to_reorder a = NaN
  ∨ ∃ x, freedom_to_reorder a = Fin x ∧ (1 <= x)%R.
Proof.
  intros Hl. unfold freedom_to_reorder.
  destruct (m_instructionsBetweenLoadOrStore a) as [|y l] eqn:E.
  { left. cbn. apply ddiv_zero_zero. }
  right. rewrite accumulate_Fin.
  pose proof (sumZ_ge_length _ Hl) as Hsum.
  assert (0 < Z.of_nat (length (y :: l))) as Hlen by (cbn [length]; lia).
  change (Fin (IZR ?z)) with (of_Z z). rewrite ddiv_of_Z by lia.
  eexists. split; [reflexivity|].
  apply IZR_le in Hsum. apply IZR_lt in Hlen.
  apply Rmult_le_reg_r with (IZR (Z.of_nat (length (y :: l)))); [done|].
  replace (IZR (sumZ (y :: l)) / IZR (Z.of_nat (length (y :: l)))
           * IZR (Z.of_nat (length (y :: l))))%R
    with (IZR (sumZ (y :: l))) by (field; lra).
  lra.
Qed.

(** Every recorded gap between two memory instructions counts the second
    one: it is at least 1, as long as the gap counter does not wrap. *)
Lemma instructionExecuted_gaps instruction num st st' (k : Z) :
  Forall (λ x, 1 ≤ x) (instructionsBetweenLoadOrStore st) →
  0 ≤ ops_between_load_or_store st ≤ k → k < 2 ^ 32 - 1 →
  instructionExecuted instruction num st = Some st' →
  Forall (λ x, 1 ≤ x) (instructionsBetweenLoadOrStore st')
  ∧ 0 ≤ ops_between_load_or_store st' ≤ k + 1.
Proof.
  intros Hl Hops Hk Hst. unfold instructionExecuted in Hst.
  destruct (allocated st); cbn [negb] in Hst; [|done].
  destruct (if previous_instruction_is_branch st then _ else _); [|done].
  cbn in Hst. injection Hst as <-.
  cbn [instructionsBetweenLoadOrStore ops_between_load_or_store].
  rewrite !u32_small by lia.
  destruct (getOpcode instruction); split; try done; try lia;
    apply Forall_app; split; try done; by repeat constructor; lia.
Qed.

Lemma step_gaps (s s' : State) (e : Event) (rs : list Report) (k : Z) :
  Forall (λ x, 1 ≤ x) (instructionsBetweenLoadOrStore (m_state s)) →
  0 ≤ ops_between_load_or_store (m_state s) ≤ k → k < 2 ^ 32 - 1 →
  Forall (λ x, 1 ≤ x) (m_instructionsBetweenLoadOrStore (aggregate s)) →
  step s e = Some (s', rs) →
  Forall (λ x, 1 ≤ x) (instructionsBetweenLoadOrStore (m_state s'))
  ∧ 0 ≤ ops_between_load_or_store (m_state s') ≤ k + 1
  ∧ Forall (λ x, 1 ≤ x) (m_instructionsBetweenLoadOrStore (aggregate s'))
  ∧ Forall (λ r, rep_freedom_to_reorder r = NaN
                 ∨ ∃ x, rep_freedom_to_reorder r = Fin x ∧ (1 <= x)%R) rs.
Proof.
  intros Hl Hops Hk Ha Hstep.
  assert (0 ≤ ops_between_load_or_store (m_state s) ≤ k + 1) as Hops' by lia.
  destruct e; cbn [step on_worker] in Hstep.
  - destruct (Transfers.kernelBegin name (transfers s)); [|done].
    cbn in Hstep. injection Hstep as <- <-. cbn. done.
  - destruct (kernelEnd (aggregate s)) as [[r a]|] eqn:E; [|done].
    cbn in Hstep. injection Hstep as <- <-. cbn [m_state aggregate].
    pose proof (kernelEnd_reset _ _ _ E) as ->.
    split; [done|]. split; [done|]. split; [by cbn|].
    apply List.Forall_cons; [|apply List.Forall_nil].
    apply kernelEnd_inv in E.
    destruct E as (major & i1 & i2 & i3 & p1 & p2 & p3 & z1 & z2 & um & ub & E).
    destruct E as (_ & _ & _ & _ & _ & _ & _ & _ & _ & _ & _ & _ & _ & ->).
    cbn [rep_freedom_to_reorder]. by apply freedom_to_reorder_ge_1.
  - cbn in Hstep. injection Hstep as <- <-. cbn. done.
  - unfold workGroupComplete in Hstep.
    destruct (allocated (m_state s)); [|done].
    cbn in Hstep. injection Hstep as <- <-. cbn.
    split; [done|]. split; [done|]. split; [|done].
    apply Forall_app. done.
  - cbn in Hstep. injection Hstep as <- <-. cbn.
    split; [done|]. split; [lia|]. done.
  - unfold workItemComplete in Hstep.
    destruct (allocated (m_state s)); [|done].
    cbn in Hstep. injection Hstep as <- <-. cbn. done.
  - unfold workItemBarrier in Hstep.
    destruct (allocated (m_state s)); [|done].
    cbn in Hstep. injection Hstep as <- <-. cbn. done.
  - cbn in Hstep. injection Hstep as <- <-. cbn. done.
  - destruct (instructionExecuted instruction num (m_state s)) as [st|] eqn:E;
      [|done].
    cbn in Hstep. injection Hstep as <- <-. cbn [m_state aggregate].
    destruct (instructionExecuted_gaps _ _ _ _ k Hl Hops Hk E) as [H1 H2].
    done.
  - unfold memoryLoad in Hstep.
    destruct (bool_decide _), (allocated (m_state s)); try done;
      cbn in Hstep; injection Hstep as <- <-; cbn; done.
  - unfold memoryStore, memoryLoad in Hstep.
    destruct (bool_decide _), (allocated (m_state s)); try done;
      cbn in Hstep; injection Hstep as <- <-; cbn; done.
  - unfold memoryAtomicLoad in Hstep.
    destruct (bool_decide _), (allocated (m_state s)); try done;
      cbn in Hstep; injection Hstep as <- <-; cbn; done.
  - unfold memoryAtomicStore, memoryAtomicLoad in Hstep.
    destruct (bool_decide _), (allocated (m_state s)); try done;
      cbn in Hstep; injection Hstep as <- <-; cbn; done.
  - injection Hstep as <- <-. cbn. done.
  - injection Hstep as <- <-. cbn. done.
Qed.

Lemma run_gaps (es : list Event) : ∀ (s s' : State) (rs : list Report) (k : Z),
  Forall (λ x, 1 ≤ x) (instructionsBetweenLoadOrStore (m_state s)) →
  0 ≤ ops_between_load_or_store (m_state s) ≤ k →
  k + Z.of_nat (length es) < 2 ^ 32 - 1 →
  Forall (λ x, 1 ≤ x) (m_instructionsBetweenLoadOrStore (aggregate s)) →
  run s es = Some (s', rs) →
  Forall (λ r, rep_freedom_to_reorder r = NaN
               ∨ ∃ x, rep_freedom_to_reorder r = Fin x ∧ (1 <= x)%R) rs.
Proof.
  induction es as [|e es IH]; intros s s' rs k Hl Hops Hk Ha Hrun.
  { cbn in Hrun. injection Hrun as <- <-. apply List.Forall_nil. }
  cbn [run] in Hrun. cbn [length] in Hk.
  destruct (step s e) as [[t q]|] eqn:E; [|done]. cbn in Hrun.
  destruct (run t es) as [[u p]|] eqn:R; [|done].
  cbn in Hrun. injection Hrun as <- <-.
  destruct (step_gaps s t e q k Hl Hops ltac:(lia) Ha E) as (H1 & H2 & H3 & H4).
  apply Forall_app. split; [exact H4|].
  apply (IH t u p (k + 1)); [done|done|lia|done|done].
Qed.

(** X21.  In every report of every run of the plugin (fewer than
    [2^32 - 1] callbacks), the freedom to reorder is NaN, when no load or
    store was merged, or a real number that is at least 1: the gap recorded
    at a load or store counts that instruction itself. *)
Theorem freedom_to_reorder_at_least_one
    (es : list Event) (s : State) (rs : list Report) :
  Z.of_nat (length es) < 2 ^ 32 - 1 →
  run init es = Some (s, rs) →
  Forall (λ r, rep_freedom_to_reorder r = NaN
               ∨ ∃ x, rep_freedom_to_reorder r = Fin x ∧ (1 <= x)%R) rs.
Proof.
  intros Hlen Hrun.
  apply (run_gaps es init s rs 0); [apply List.Forall_nil|done|lia| |done].
  apply List.Forall_nil.
Qed.

Lemma freedom_to_reorder_at_least_one_witness :
  ∃ s r,
    run init (load_and_barrier_kernel ++ [KernelEnd "K"]) = Some (s, [r])
    ∧ Forall (λ r, rep_freedom_to_reorder r = NaN
                   ∨ ∃ x, rep_freedom_to_reorder r = Fin x ∧ (1 <= x)%R) [r].
Proof.
  run_prefix load_and_barrier_kernel s0 Hrun.
  report_of (aggregate s0) r Hend.
  pose proof (run_then_kernelEnd init load_and_barrier_kernel "K" s0 r _
                Hrun Hend) as Hrun'.
  eexists _, r. split; [exact Hrun'|].
  refine (freedom_to_reorder_at_least_one _ _ _ _ Hrun'). reflexivity.
Defined.

End reorder.

(** ** Resource pressure counts the loads and stores *)

Section pressure.
Import FP Spec AIWC Plugin Scenario Range.

Lemma labelled_le loads stores gaps (k k' : Z) :
  k ≤ k' → labelled loads stores gaps k → labelled loads stores gaps k'.
Proof.
  intros Hk (H1 & H2 & H3 & H4). unfold labelled.
  split; [exact H1|]. split; [exact H2|]. split; [exact H3|lia].
Qed.

Lemma labelled_empty (k : Z) : 0 ≤ k → labelled ∅ ∅ [] k.
Proof.
  intros Hk. unfold labelled.
  split; [apply map_Forall_empty|]. split; [apply map_Forall_empty|].
  rewrite (@total_empty string _ _). split; [done|cbn; lia].
Qed.

Lemma instructionExecuted_labelled instruction num st st' (k : Z) :
  0 ≤ k < 2 ^ 63 →
  labelled (loadInstructionLabels st) (storeInstructionLabels st)
    (instructionsBetweenLoadOrStore st) k →
  instructionExecuted instruction num st = Some st' →
  labelled (loadInstructionLabels st') (storeInstructionLabels st')
    (instructionsBetweenLoadOrStore st') (k + 1).
Proof.
  intros Hk (Hl & Hs & Heq & Hle) Hst. unfold instructionExecuted in Hst.
  destruct (allocated st); cbn [negb] in Hst; [|done].
  destruct (if previous_instruction_is_branch st then _ else _); [|done].
  cbn in Hst. injection Hst as <-.
  cbn [loadInstructionLabels storeInstructionLabels
       instructionsBetweenLoadOrStore].
  pose proof (total_nonneg _ Hl). pose proof (total_nonneg _ Hs).
  unfold labelled.
  destruct (getOpcode instruction).
  - destruct (map_add_total (loadInstructionLabels st)
                (getPointerOperandName instruction) 1 Hl) as [E P]; [lia|lia|].
    rewrite length_app. cbn [length].
    split; [exact P|]. split; [exact Hs|]. split; lia.
  - destruct (map_add_total (storeInstructionLabels st)
                (getPointerOperandName instruction) 1 Hs) as [E P]; [lia|lia|].
    rewrite length_app. cbn [length].
    split; [exact Hl|]. split; [exact P|]. split; lia.
  - split; [exact Hl|]. split; [exact Hs|]. split; lia.
  - split; [exact Hl|]. split; [exact Hs|]. split; lia.
Qed.

Lemma step_labelled (s s' : State) (e : Event) (rs : list Report) (k : Z) :
  0 ≤ k < 2 ^ 31 →
  labelled (loadInstructionLabels (m_state s)) (storeInstructionLabels (m_state s))
    (instructionsBetweenLoadOrStore (m_state s)) k →
  labelled (m_loadInstructionLabels (aggregate s))
    (m_storeInstructionLabels (aggregate s))
    (m_instructionsBetweenLoadOrStore (aggregate s)) (k * k) →
  step s e = Some (s', rs) →
  labelled (loadInstructionLabels (m_state s')) (storeInstructionLabels (m_state s'))
    (instructionsBetweenLoadOrStore (m_state s')) (k + 1)
  ∧ labelled (m_loadInstructionLabels (aggregate s'))
      (m_storeInstructionLabels (aggregate s'))
      (m_instructionsBetweenLoadOrStore (aggregate s')) ((k + 1) * (k + 1)).
Proof.
  intros Hk Hw Ha Hstep.
  pose proof (labelled_le _ _ _ k (k + 1) ltac:(lia) Hw) as Hw'.
  pose proof (labelled_le _ _ _ (k * k) ((k + 1) * (k + 1)) ltac:(nia) Ha) as Ha'.
  destruct e; cbn [step on_worker] in Hstep.
  - destruct (Transfers.kernelBegin name (transfers s)); [|done].
    cbn in Hstep. injection Hstep as <- <-. cbn.
    split; [exact Hw'|]. apply labelled_empty. nia.
  - destruct (kernelEnd (aggregate s)) as [[r a]|] eqn:E; [|done].
    cbn in Hstep. injection Hstep as <- <-. cbn [m_state aggregate].
    pose proof (kernelEnd_reset _ _ _ E) as ->. cbn.
    split; [exact Hw'|]. apply labelled_empty. nia.
  - cbn in Hstep. injection Hstep as <- <-. cbn.
    split; [apply labelled_empty; lia|exact Ha'].
  - unfold workGroupComplete in Hstep.
    destruct (allocated (m_state s)); [|done].
    cbn in Hstep. injection Hstep as <- <-.
    cbn [aggregate m_state merge_into set_memoryOps loadInstructionLabels
         storeInstructionLabels instructionsBetweenLoadOrStore
         m_loadInstructionLabels m_storeInstructionLabels
         m_instructionsBetweenLoadOrStore].
    split; [exact Hw'|].
    destruct Hw as (W1 & W2 & W3 & W4). destruct Ha as (A1 & A2 & A3 & A4).
    pose proof (total_nonneg _ W1). pose proof (total_nonneg _ W2).
    pose proof (total_nonneg _ A1). pose proof (total_nonneg _ A2).
    assert (k * k < 2 ^ 62) by nia.
    destruct (merge_counts_total (loadInstructionLabels (m_state s))
                (m_loadInstructionLabels (aggregate s)) A1 W1) as [E1 P1]; [lia|].
    destruct (merge_counts_total (storeInstructionLabels (m_state s))
                (m_storeInstructionLabels (aggregate s)) A2 W2) as [E2 P2]; [lia|].
    unfold labelled. rewrite length_app.
    split; [exact P1|]. split; [exact P2|]. split; [lia|nia].
  - cbn in Hstep. by injection Hstep as <- <-.
  - unfold workItemComplete in Hstep.
    destruct (allocated (m_state s)); [|done].
    cbn in Hstep. by injection Hstep as <- <-.
  - unfold workItemBarrier in Hstep.
    destruct (allocated (m_state s)); [|done].
    cbn in Hstep. by injection Hstep as <- <-.
  - cbn in Hstep. by injection Hstep as <- <-.
  - destruct (instructionExecuted instruction num (m_state s)) as [st|] eqn:E;
      [|done].
    cbn in Hstep. injection Hstep as <- <-. cbn [m_state aggregate].
    split; [|exact Ha'].
    eapply instructionExecuted_labelled; [|exact Hw|exact E]. lia.
  - unfold memoryLoad in Hstep.
    destruct (bool_decide _), (allocated (m_state s)); try done;
      cbn in Hstep; by injection Hstep as <- <-.
  - unfold memoryStore, memoryLoad in Hstep.
    destruct (bool_decide _), (allocated (m_state s)); try done;
      cbn in Hstep; by injection Hstep as <- <-.
  - unfold memoryAtomicLoad in Hstep.
    destruct (bool_decide _), (allocated (m_state s)); try done;
      cbn in Hstep; by injection Hstep as <- <-.
  - unfold memoryAtomicStore, memoryAtomicLoad in Hstep.
    destruct (bool_decide _), (allocated (m_state s)); try done;
      cbn in Hstep; by injection Hstep as <- <-.
  - by injection Hstep as <- <-.
  - by injection Hstep as <- <-.
Qed.

Lemma run_labelled (es : list Event) : ∀ (s s' : State) rs (k : Z),
  0 ≤ k → k + Z.of_nat (length es) < 2 ^ 31 →
  labelled (loadInstructionLabels (m_state s)) (storeInstructionLabels (m_state s))
    (instructionsBetweenLoadOrStore (m_state s)) k →
  labelled (m_loadInstructionLabels (aggregate s))
    (m_storeInstructionLabels (aggregate s))
    (m_instructionsBetweenLoadOrStore (aggregate s)) (k * k) →
  run s es = Some (s', rs) →
  labelled (m_loadInstructionLabels (aggregate s'))
    (m_storeInstructionLabels (aggregate s'))
    (m_instructionsBetweenLoadOrStore (aggregate s'))
    ((k + Z.of_nat (length es)) * (k + Z.of_nat (length es))).
Proof.
  induction es as [|e es IH]; intros s s' rs k Hk Hlen Hw Ha Hrun.
  { cbn in Hrun. injection Hrun as <- <-. cbn. by rewrite Z.add_0_r. }
  cbn [run] in Hrun. cbn [length] in Hlen |- *.
  destruct (step s e) as [[t q]|] eqn:E; [|done]. cbn in Hrun.
  destruct (run t es) as [[u p]|] eqn:R; [|done].
  cbn in Hrun. injection Hrun as <- <-.
  destruct (step_labelled s t e q k ltac:(lia) Hw Ha E) as [Hw' Ha'].
  replace (k + Z.of_nat (S (length es))) with (k + 1 + Z.of_nat (length es)) by lia.
  apply (IH t u p (k + 1)); [lia|lia|done|done|done].
Qed.

Lemma fold_dadd `{Countable K} (m : gmap K Z) (x : R) :
  map_fold (λ _ v acc, dadd acc (of_Z v)) (Fin x) m
  = Fin (x + IZR (total m)).
Proof.
  rewrite map_fold_foldr. unfold total.
  induction (map_to_list m) as [|[k v] l IH].
  { cbn. f_equal. unfold sumZ. cbn. lra. }
  cbn [foldr uncurry map fst snd]. rewrite IH, sumZ_cons, plus_IZR.
  cbn. f_equal. lra.
Qed.

(** X22.  At every state the plugin reaches (fewer than [2^31] callbacks),
    the load labels and the store labels of the aggregate count as many
    memory instructions as it holds gaps between loads and stores.  The
    resource pressure that [kernelEnd] would report is that number over the
    number of work-items, and the freedom to reorder averages over the same
    number. *)
Theorem resource_pressure_counts_loads_and_stores
    (es : list Event) (s : State) (rs : list Report) :
  Z.of_nat (length es) < 2 ^ 31 →
  run init es = Some (s, rs) →
  total (m_loadInstructionLabels (aggregate s))
  + total (m_storeInstructionLabels (aggregate s))
  = Z.of_nat (length (m_instructionsBetweenLoadOrStore (aggregate s)))
  ∧ ∀ r a', kernelEnd (aggregate s) = Some (r, a') →
      rep_resource_pressure r
      = ddiv (of_Z (Z.of_nat
                      (length (m_instructionsBetweenLoadOrStore (aggregate s)))))
             (of_Z (rep_threads_invoked r))
      ∧ rep_freedom_to_reorder r
        = ddiv (accumulate (m_instructionsBetweenLoadOrStore (aggregate s)))
               (of_Z (Z.of_nat
                        (length (m_instructionsBetweenLoadOrStore (aggregate s))))).
Proof.
  intros Hlen Hrun.
  pose proof (run_labelled es init s rs 0 ltac:(lia) ltac:(lia)
                (labelled_empty 0 ltac:(lia)) (labelled_empty (0 * 0) ltac:(lia))
                Hrun) as (_ & _ & Heq & _).
  split; [exact Heq|].
  intros r a' Hend. apply kernelEnd_inv in Hend.
  destruct Hend as (major & i1 & i2 & i3 & p1 & p2 & p3 & z1 & z2 & um & ub & Hend).
  destruct Hend as (_ & _ & _ & _ & _ & _ & _ & _ & _ & _ & _ & _ & _ & ->).
  cbn [rep_resource_pressure rep_threads_invoked rep_freedom_to_reorder].
  split; [|reflexivity].
  unfold resource_pressure. rewrite !fold_dadd, <- Heq.
  unfold of_Z at 2. rewrite plus_IZR. do 2 f_equal. lra.
Qed.

Lemma resource_pressure_counts_loads_and_stores_witness :
  ∃ s,
    run init load_and_barrier_kernel = Some (s, [])
    ∧ total (m_loadInstructionLabels (aggregate s))
      + total (m_storeInstructionLabels (aggregate s))
      = Z.of_nat (length (m_instructionsBetweenLoadOrStore (aggregate s))).
Proof.
  run_prefix load_and_barrier_kernel s0 Hrun.
  exists s0. split; [exact Hrun|].
  refine (proj1 (resource_pressure_counts_loads_and_stores
                   load_and_barrier_kernel s0 [] _ Hrun)).
  reflexivity.
Defined.

End pressure.

(** ** Branches that always go the same way *)

Section predictable.
Import FP Spec AIWC Plugin Scenario Loop.
#[local] Open Scope R_scope.

Lemma taken_constant (c : bool) (w : list bool) :
  Forall (λ b, b = c) w →
  taken (pattern_of w) = if c then Z.of_nat (length w) else 0%Z.
Proof.
  rewrite taken_count_char.
  induction 1 as [|b w -> _ IH]; [by destruct c|].
  cbn [pattern_of foldr count_char length]. fold (pattern_of w).
  rewrite IH. destruct c.
  - change (Ascii.eqb "1" "1") with true. cbv iota. lia.
  - change (Ascii.eqb "0" "1") with false. cbv iota. reflexivity.
Qed.

Lemma one_way_window bs i :
  one_way bs → (i + m ≤ length bs)%nat →
  taken (window bs i) = 0%Z ∨ taken (window bs i) = 16%Z.
Proof.
  intros Hbs Hi. unfold window.
  rewrite (taken_constant (hd false bs)).
  - rewrite length_take, length_drop. unfold m in *.
    destruct (hd false bs); [right; lia|by left].
  - by apply Forall_take, Forall_drop.
Qed.

Lemma predictable_patterns branches :
  predictable branches →
  Forall (λ pc, taken pc.1 = 0%Z ∨ taken pc.1 = 16%Z) (all_patterns branches).
Proof.
  intros Hp. unfold all_patterns. apply Forall_bind, Forall_forall.
  intros [line bs] Hin%elem_of_map_to_list. apply Hp in Hin.
  unfold compose. cbn [snd]. unfold line_patterns. change window_length with m.
  destruct (decide (length bs < m)%nat) as [|Hlen]; [constructor|].
  apply Forall_fmap, Forall_forall. intros pattern Hpat. cbn [fst].
  rewrite elem_of_remove_dups, windows_window in Hpat.
  rewrite list_elem_of_fmap in Hpat. destruct Hpat as (i & -> & Hi).
  apply elem_of_seq in Hi. apply one_way_window; [exact Hin|].
  unfold m in *. lia.
Qed.

Lemma linear_one_way pattern :
  taken pattern = 0%Z ∨ taken pattern = 16%Z → linear pattern = 0.
Proof.
  unfold linear, taken_rate. change (Z.of_nat window_length) with 16%Z.
  intros [-> | ->]; unfold Rmin; destruct (Rle_dec _ _); lra.
Qed.

Lemma plogp_one_way pattern :
  taken pattern = 0%Z ∨ taken pattern = 16%Z → plogp pattern = 0.
Proof.
  unfold plogp, taken_rate. change (Z.of_nat window_length) with 16%Z.
  intros [E | E]; rewrite E.
  - by rewrite decide_True.
  - rewrite decide_False by done.
    replace (16 / 16) with 1 by lra. unfold log2. rewrite ln_1. lra.
Qed.

Lemma sums_one_way ps :
  Forall (λ pc, taken pc.1 = 0%Z ∨ taken pc.1 = 16%Z) ps →
  yokota ps = 0 ∧ yokota_per_workload ps = 0 ∧ linear_numerator ps = 0.
Proof.
  unfold yokota, yokota_per_workload, linear_numerator.
  induction 1 as [|[pattern c] ps Hp _ (IH1 & IH2 & IH3)]; cbn [map fst snd].
  { unfold sumR. simpl. split; [lra|]. split; lra. }
  rewrite !sumR_cons. cbn [fst] in Hp.
  rewrite (plogp_one_way pattern Hp), (linear_one_way pattern Hp).
  split; [lra|]. split; lra.
Qed.

(** X23.  With fewer than [2^32] recorded branch outcomes, a kernel each of
    whose conditional branches went the same way every time it was recorded
    is reported with the average linear branch entropy 0 and with both
    Yokota entropies 0: whatever the number of branches and of windows,
    patterns of sixteen ['1'] or sixteen ['0'] add nothing to any of the
    three sums. *)
Theorem predictable_branches_no_entropy
    (a : Aggregate) (r : Report) (a' : Aggregate) :
  (outcomes (m_branchOps a) < 2 ^ 32)%Z →
  predictable (m_branchOps a) →
  kernelEnd a = Some (r, a') →
  rep_average_entropy r = Fin 0
  ∧ rep_yokota_entropy r = Fin 0
  ∧ rep_yokota_entropy_per_workload r = Fin 0.
Proof.
  intros Hb Hp Hend.
  destruct (report_yokota a Hb r a' Hend) as (Hy & Hw).
  apply (kernelEnd_branch a r a') in Hend. destruct Hend as (_ & _ & Hx).
  rewrite average_linear_spec in Hx by exact Hb.
  destruct (sums_one_way _ (predictable_patterns _ Hp)) as (E1 & E2 & E3).
  rewrite Hx, Hy, Hw, E1, E2. unfold Spec.average_linear. rewrite E3.
  split; [|split; reflexivity].
  destruct (decide _); [reflexivity|]. f_equal. unfold Rdiv. apply Rmult_0_l.
Qed.

Lemma predictable_branches_no_entropy_witness :
  ∃ s r a',
    run init loop_kernel = Some (s, [])
    ∧ m_branchOps (aggregate s) = {[ 42%Z := replicate 20 true ]}
    ∧ kernelEnd (aggregate s) = Some (r, a')
    ∧ rep_average_entropy r = Fin 0
    ∧ rep_yokota_entropy r = Fin 0
    ∧ rep_yokota_entropy_per_workload r = Fin 0.
Proof.
  run_prefix loop_kernel s0 Hrun.
  report_of (aggregate s0) r Hend.
  exists s0, r, (reset (aggregate s0)).
  split; [exact Hrun|]. split; [vm_compute; reflexivity|].
  split; [exact Hend|].
  refine (predictable_branches_no_entropy (aggregate s0) r _ _ _ Hend).
  - vm_compute. reflexivity.
  - refine (bool_decide_unpack _ _). vm_compute. exact I.
Defined.

End predictable.

(** ** The two extremes of the memory metrics *)

Section memory_extremes.
Import FP Spec AIWC Plugin Scenario.

Lemma remove_dups_NoDup_id `{EqDecision A} (l : list A) :
  NoDup l → remove_dups l = l.
Proof.
  induction 1 as [|x l Hx _ IH]; [reflexivity|].
  cbn [remove_dups]. destruct (decide_rel _ x l); [contradiction|].
  by rewrite IH.
Qed.

Lemma remove_dups_constant `{EqDecision A} (x : A) (l : list A) :
  l ≠ [] → Forall (λ y, y = x) l → remove_dups l = [x].
Proof.
  intros Hl Hall. induction Hall as [|y l -> Hall IH]; [done|].
  cbn [remove_dups]. destruct l as [|z l].
  - destruct (decide_rel _ x []) as [Hin|]; [|reflexivity].
    by apply elem_of_nil in Hin.
  - destruct (decide_rel _ x (z :: l)) as [|Hout]; [by apply IH|].
    exfalso. apply Hout. apply Forall_cons in Hall as [-> _]. by left.
Qed.

Lemma sumZ_take_ones (l : list Z) (k : nat) :
  Forall (λ c, c = 1) l → sumZ (take k l) = Z.of_nat (k `min` length l).
Proof.
  intros Hl. revert k. induction Hl as [|c l -> _ IH]; intros [|k];
    try reflexivity.
  cbn [take length]. rewrite sumZ_cons, IH. lia.
Qed.

Lemma smallest_cover_ones (l : list Z) (t n : Z) :
  Forall (λ c, c = 1) l → 0 ≤ t ≤ Z.of_nat (length l) →
  smallest_cover l t n → n = t.
Proof.
  intros Hl Ht (Hn & Hge & Hlt). rewrite sumZ_take_ones in Hge by exact Hl.
  destruct (decide (t < n)) as [Hless|]; [|lia].
  specialize (Hlt (Z.to_nat t)). rewrite sumZ_take_ones in Hlt by exact Hl.
  lia.
Qed.

Lemma smallest_cover_single (c t n : Z) :
  0 < t → smallest_cover [c] t n → n = 1.
Proof.
  intros Ht (Hn & Hge & _). cbn [length] in Hn.
  destruct (decide (n = 0)) as [->|]; [|lia].
  change (sumZ (take (Z.to_nat 0) [c])) with 0 in Hge. lia.
Qed.

Lemma log2_1 : log2 1 = 0%R.
Proof. unfold log2. rewrite ln_1. unfold Rdiv. apply Rmult_0_l. Qed.

Lemma log2_share (n : R) : (0 < n)%R → (log2 (1 / n) = - log2 n)%R.
Proof.
  intros Hn. unfold log2, Rdiv. rewrite Rmult_1_l, ln_Rinv by exact Hn. lra.
Qed.

(** X24.  Memory operations that never come back to an address, at least
    one and fewer than [2^31] of them: the total memory footprint is their
    number [n], the 90% footprint is the threshold itself, the ceiling of
    nine tenths of [n], since every address counts once, and the global
    entropy is [log2 n], the largest value [n] accesses can have. *)
Theorem every_address_once (a : Aggregate) :
  NoDup (m_memoryOps a) →
  m_memoryOps a ≠ [] →
  Z.of_nat (length (m_memoryOps a)) < 2 ^ 31 →
  total_memory_footprint a = Z.of_nat (length (m_memoryOps a))
  ∧ unique_memory_addresses a
    = Some (ceil_090 (Z.of_nat (length (m_memoryOps a))))
  ∧ mem_entropy a = Fin (log2 (IZR (Z.of_nat (length (m_memoryOps a))))).
Proof.
  intros Hnd Hops Hlen.
  assert (Z.of_nat (length (m_memoryOps a)) < 2 ^ 32) as Hlen' by lia.
  pose proof (memory_access_count_length a Hlen') as Hcount.
  split; [|split].
  - rewrite total_memory_footprint_distinct by exact Hlen'.
    by rewrite remove_dups_NoDup_id.
  - destruct (unique_memory_addresses_smallest a Hlen') as (n & Hn & Hsmall).
    rewrite Hn. f_equal.
    unfold significant_memory_access_count in Hsmall. rewrite Hcount in Hsmall.
    pose proof (sorted_count_Permutation a Hlen') as Hperm.
    rewrite remove_dups_NoDup_id in Hperm by exact Hnd.
    assert (Forall (λ c, c = 1) (sorted_count a)) as Hones.
    { rewrite Hperm. apply Forall_fmap, Forall_forall. intros x Hx. simpl.
      rewrite occurrences_NoDup by exact Hnd. by rewrite decide_True. }
    apply (smallest_cover_ones (sorted_count a)); [exact Hones| |exact Hsmall].
    rewrite Hperm, length_fmap.
    destruct (ceil_090_spec (Z.of_nat (length (m_memoryOps a)))) as [_ Hc];
      [lia|exact Hc].
  - rewrite mem_entropy_spec by exact Hlen. f_equal. rewrite Hcount.
    pose proof (length_pos_INR _ Hops) as Hn.
    rewrite entropy_per_element.
    rewrite (sumR_ext _ (λ _, (- log2 (IZR (Z.of_nat (length (m_memoryOps a))))
                               / IZR (Z.of_nat (length (m_memoryOps a))))%R)).
    + rewrite sumR_const, INR_IZR_INZ. field. lra.
    + intros x Hx. rewrite occurrences_NoDup by exact Hnd.
      rewrite decide_True by exact Hx. by rewrite log2_share.
Qed.

Lemma every_address_once_witness :
  total_memory_footprint (with_memoryOps [4096; 4100; 4104]) = 3
  ∧ unique_memory_addresses (with_memoryOps [4096; 4100; 4104])
    = Some (ceil_090 3)
  ∧ mem_entropy (with_memoryOps [4096; 4100; 4104]) = Fin (log2 3).
Proof.
  apply (every_address_once (with_memoryOps [4096; 4100; 4104])).
  - refine (bool_decide_unpack _ _). vm_compute. exact I.
  - discriminate.
  - reflexivity.
Defined.

(** X25.  Memory operations that all go to one address, at least one and
    fewer than [2^31] of them: the total memory footprint and the 90%
    footprint are both 1 and the global entropy is 0. *)
Theorem one_address_only (a : Aggregate) (address : Z) :
  Forall (λ x, x = address) (m_memoryOps a) →
  m_memoryOps a ≠ [] →
  Z.of_nat (length (m_memoryOps a)) < 2 ^ 31 →
  total_memory_footprint a = 1
  ∧ unique_memory_addresses a = Some 1
  ∧ mem_entropy a = Fin 0.
Proof.
  intros Hall Hops Hlen.
  assert (Z.of_nat (length (m_memoryOps a)) < 2 ^ 32) as Hlen' by lia.
  pose proof (memory_access_count_length a Hlen') as Hcount.
  pose proof (remove_dups_constant address _ Hops Hall) as Hone.
  split; [|split].
  - rewrite total_memory_footprint_distinct by exact Hlen'.
    by rewrite Hone.
  - destruct (unique_memory_addresses_smallest a Hlen') as (n & Hn & Hsmall).
    rewrite Hn. f_equal.
    pose proof (sorted_count_Permutation a Hlen') as Hperm.
    rewrite Hone in Hperm. cbn [map] in Hperm.
    apply Permutation_singleton_r in Hperm. rewrite Hperm in Hsmall.
    apply smallest_cover_single in Hsmall; [exact Hsmall|].
    unfold significant_memory_access_count. rewrite Hcount.
    destruct (ceil_090_spec (Z.of_nat (length (m_memoryOps a)))) as [Hc _];
      [lia|].
    unfold ceiling_of_nine_tenths in Hc.
    assert (0 < Z.of_nat (length (m_memoryOps a))); [|lia].
    destruct (m_memoryOps a); [done|]. simpl. lia.
  - rewrite mem_entropy_spec by exact Hlen. f_equal. rewrite Hcount.
    pose proof (entropy_bounds _ Hops) as Hb. rewrite Hone in Hb.
    change (IZR (Z.of_nat (length [address]))) with 1%R in Hb.
    rewrite log2_1 in Hb. lra.
Qed.

Lemma one_address_only_witness :
  total_memory_footprint (with_memoryOps [4096; 4096; 4096]) = 1
  ∧ unique_memory_addresses (with_memoryOps [4096; 4096; 4096]) = Some 1
  ∧ mem_entropy (with_memoryOps [4096; 4096; 4096]) = Fin 0.
Proof.
  apply (one_address_only (with_memoryOps [4096; 4096; 4096]) 4096).
  - repeat constructor.
  - discriminate.
  - reflexivity.
Defined.

End memory_extremes.
